(** * sf-insurance-scraper: record aggregation, deduplication and enrichment

    A shallow embedding of the core of [scraper.py] and [enrich_sf.py]:
    the entity record [InsuranceCompany] with its [dedup_key], the field
    extractors ([extract_city_from_address], [extract_zip],
    [extract_emails]), [deduplicate], [enrich_from_websites] and
    [scrape_website_for_email]; then the record-making loops of the
    sources ([scrape_cdi_pdf], [scrape_google_maps], [scrape_yellowpages]),
    [save_results], and the two [main] functions around them.

    Python [str] values are modelled as [string]; a character is one code
    point of the range 0..255, and the character classes below are Python's
    ([str.lower], [str.isspace], the [re] classes [\s], [\d], [\w]) cut down
    to that range.  Where a property turns on what [\d] takes for a digit
    (the ZIP and the code of a registry line), the functions are given a
    second time in module [Uni], on texts of arbitrary code points with
    the Unicode database as a parameter, and the functions on strings are
    shown to be their restriction to the code points below 256.  The
    network, the HTML parser and [urlparse] are parameters of the
    enrichers; the pages of Yelp come as the records [_parse_yelp_html]
    makes of them, a field of which need not be a string.  Delays
    ([polite_sleep]) and printing are left out.

    The definitions come first, the lemmas and the theorems on the
    specification's properties after them. *)

From Stdlib Require Import Strings.String Strings.Ascii Lists.List Arith.Arith
  Arith.PeanoNat NArith.BinNat Bool.Bool Sorting.Sorted Sorting.Permutation Lia.
Import ListNotations.

Local Open Scope list_scope.
Local Open Scope string_scope.
Local Open Scope nat_scope.

(** [l.append(x)] *)
Definition list_append {A : Type} (l : list A) (x : A) : list A := (l ++ [x])%list.

(** ** Python strings *)

Module PyStr.

Definition code (c : ascii) : nat := nat_of_ascii c.

Definition between (lo hi c : ascii) : bool :=
  (code lo <=? code c) && (code c <=? code hi).

Definition is_char (a c : ascii) : bool := Ascii.eqb a c.

Definition is_lower_az (c : ascii) : bool := between "a" "z" c.
Definition is_upper_az (c : ascii) : bool := between "A" "Z" c.
(** The decimal digits below 256, which are 0 to 9: [\d] of a [str]
    pattern on a code point of this range ([Uni.isdecimal] beyond it). *)
Definition is_digit (c : ascii) : bool := between "0" "9" c.
Definition is_alpha_az (c : ascii) : bool := is_lower_az c || is_upper_az c.

(** [str.isspace] on one code point below 256; this is also the class
    [\s] of a [str] pattern. *)
Definition isspace (c : ascii) : bool :=
  let n := code c in
  ((9 <=? n) && (n <=? 13)) || ((28 <=? n) && (n <=? 32))
  || (n =? 133) || (n =? 160).

(** The class [\w] of a [str] pattern below 256: alphanumeric code points
    and the underscore. *)
Definition isword (c : ascii) : bool :=
  let n := code c in
  is_lower_az c || is_upper_az c || is_digit c || (n =? 95)
  || (n =? 170) || (n =? 178) || (n =? 179) || (n =? 181) || (n =? 185)
  || (n =? 186) || ((188 <=? n) && (n <=? 190))
  || ((192 <=? n) && (n <=? 214)) || ((216 <=? n) && (n <=? 246))
  || (248 <=? n).

(** [str.lower] on one code point below 256. *)
Definition lower_char (c : ascii) : ascii :=
  let n := code c in
  if is_upper_az c then ascii_of_nat (n + 32)
  else if ((192 <=? n) && (n <=? 214)) || ((216 <=? n) && (n <=? 222))
       then ascii_of_nat (n + 32)
  else c.

Fixpoint lower (s : string) : string :=
  match s with
  | EmptyString => EmptyString
  | String c s' => String (lower_char c) (lower s')
  end.

(** [s.startswith(p)] *)
Fixpoint startswith (p s : string) : bool :=
  match p, s with
  | EmptyString, _ => true
  | String a p', String b s' => Ascii.eqb a b && startswith p' s'
  | String _ _, EmptyString => false
  end.

(** [needle in hay] on two strings: the substring test. *)
Fixpoint str_in (needle hay : string) : bool :=
  startswith needle hay ||
  match hay with
  | EmptyString => false
  | String _ hay' => str_in needle hay'
  end.

(** Truth value of a string: [not s] is [is_empty s]. *)
Definition is_empty (s : string) : bool :=
  match s with EmptyString => true | String _ _ => false end.

(** [s[:n]] *)
Definition slice_to (n : nat) (s : string) : string := substring 0 n s.

Fixpoint lstrip (s : string) : string :=
  match s with
  | EmptyString => EmptyString
  | String c s' => if isspace c then lstrip s' else s
  end.

Fixpoint rstrip (s : string) : string :=
  match s with
  | EmptyString => EmptyString
  | String c s' =>
      match rstrip s' with
      | EmptyString => if isspace c then EmptyString else String c EmptyString
      | t => String c t
      end
  end.

(** [s[n:]] *)
Fixpoint drop (n : nat) (s : string) : string :=
  match n, s with
  | 0, _ => s
  | S n', String _ s' => drop n' s'
  | S _, EmptyString => EmptyString
  end.

(** [x] occurs in [s] as a run of consecutive characters. *)
Definition occurs_in (x s : string) : Prop := exists a b, s = a ++ x ++ b.

(** [s.strip()] *)
Definition strip (s : string) : string := rstrip (lstrip s).

Fixpoint all_chars (p : ascii -> bool) (s : string) : bool :=
  match s with
  | EmptyString => true
  | String c s' => p c && all_chars p s'
  end.

Fixpoint filter_chars (p : ascii -> bool) (s : string) : string :=
  match s with
  | EmptyString => EmptyString
  | String c s' => if p c then String c (filter_chars p s') else filter_chars p s'
  end.

Fixpoint last_char (s : string) : option ascii :=
  match s with
  | EmptyString => None
  | String c EmptyString => Some c
  | String _ s' => last_char s'
  end.

Definition first_char (s : string) : option ascii :=
  match s with EmptyString => None | String c _ => Some c end.

End PyStr.

(** ** The fragment of Python's [re] the program uses

    A backtracking matcher with the priorities of [re]: a greedy
    quantifier tries the longer alternative first, and [search] returns
    the leftmost match. *)

Module Re.
Import PyStr.

Inductive regex : Type :=
| Eps
| Chr (p : ascii -> bool)          (* one character of a class *)
| Seq (a b : regex)
| Opt (a : regex)                  (* greedy [a?] *)
| Star (a : regex)                 (* greedy [a*] *)
| Group (a : regex)                (* the capturing group, [( a )] *)
| WordB.                           (* [\b] *)

(** [a+], [a{n}] and [a{n,}] *)
Definition Plus (a : regex) : regex := Seq a (Star a).

Fixpoint Times (n : nat) (a : regex) : regex :=
  match n with
  | 0 => Eps
  | S n' => Seq a (Times n' a)
  end.

Definition AtLeast (n : nat) (a : regex) : regex := Seq (Times n a) (Star a).

Fixpoint Lit (s : string) : regex :=
  match s with
  | EmptyString => Eps
  | String c s' => Seq (Chr (is_char c)) (Lit s')
  end.

(** The matcher's position: the character before it, the text after it,
    and the text of group 1 when the group has been closed. *)
Record mstate : Type := MState {
  before : option ascii;
  rest : string;
  grp : option string
}.

Definition advance (c : ascii) (s' : string) (st : mstate) : mstate :=
  MState (Some c) s' (grp st).

Definition word_opt (o : option ascii) : bool :=
  match o with Some c => isword c | None => false end.

Definition at_boundary (st : mstate) : bool :=
  xorb (word_opt (before st)) (word_opt (first_char (rest st))).

(** The text consumed between two positions of one scan. *)
Definition consumed (st st' : mstate) : string :=
  substring 0 (String.length (rest st) - String.length (rest st')) (rest st).

Definition close_group (st st' : mstate) : mstate :=
  MState (before st') (rest st') (Some (consumed st st')).

(** The greedy loop of [a*]: once more through the body, which has to
    consume something, and only then on with [k].  [fuel] bounds the number
    of turns; the text left is enough. *)
Fixpoint star_loop (body : mstate -> (mstate -> option mstate) -> option mstate)
  (k : mstate -> option mstate) (fuel : nat) (st : mstate) {struct fuel}
  : option mstate :=
  match fuel with
  | 0 => k st
  | S fuel' =>
      match body st (fun st' =>
              if String.length (rest st') <? String.length (rest st)
              then star_loop body k fuel' st' else None) with
      | Some m => Some m
      | None => k st
      end
  end.

Fixpoint exec (r : regex) (st : mstate) (k : mstate -> option mstate)
  {struct r} : option mstate :=
  match r with
  | Eps => k st
  | Chr p =>
      match rest st with
      | String c s' => if p c then k (advance c s' st) else None
      | EmptyString => None
      end
  | Seq a b => exec a st (fun st' => exec b st' k)
  | Opt a =>
      match exec a st k with
      | Some m => Some m
      | None => k st
      end
  | Star a => star_loop (exec a) k (String.length (rest st)) st
  | Group a => exec a st (fun st' => k (close_group st st'))
  | WordB => if at_boundary st then k st else None
  end.

Definition match_at (r : regex) (prev : option ascii) (s : string)
  : option mstate :=
  exec r (MState prev s None) Some.

(** [re.search(r, s)]: the leftmost position with a match. *)
Fixpoint search_from (r : regex) (prev : option ascii) (s : string)
  : option mstate :=
  match match_at r prev s with
  | Some m => Some m
  | None =>
      match s with
      | EmptyString => None
      | String c s' => search_from r (Some c) s'
      end
  end.

Definition search (r : regex) (s : string) : option mstate :=
  search_from r None s.

(** [m.group(1)] of a pattern whose group always takes part. *)
Definition group1 (m : mstate) : string :=
  match grp m with Some g => g | None => EmptyString end.

(** [re.findall(r, s)] for a pattern without groups: the non-overlapping
    matches, left to right.  [skip] counts the characters of the last
    match still to be passed. *)
Fixpoint findall_from (r : regex) (prev : option ascii) (s : string)
  (skip : nat) : list string :=
  match s with
  | EmptyString =>
      match skip, match_at r prev s with
      | 0, Some _ => [EmptyString]
      | _, _ => []
      end
  | String c s' =>
      match skip with
      | S n => findall_from r (Some c) s' n
      | 0 =>
          match match_at r prev s with
          | Some m =>
              let n := String.length s - String.length (rest m) in
              substring 0 n s :: findall_from r (Some c) s' (pred n)
          | None => findall_from r (Some c) s' 0
          end
      end
  end.

Definition findall (r : regex) (s : string) : list string :=
  findall_from r None s 0.

(** [re.sub(r, repl, s)] for a pattern that matches no empty text. *)
Fixpoint sub_from (r : regex) (repl : string) (prev : option ascii)
  (s : string) (skip : nat) : string :=
  match s with
  | EmptyString => EmptyString
  | String c s' =>
      match skip with
      | S n => sub_from r repl (Some c) s' n
      | 0 =>
          match match_at r prev s with
          | Some m =>
              match String.length s - String.length (rest m) with
              | 0 => String c (sub_from r repl (Some c) s' 0)
              | S n => repl ++ sub_from r repl (Some c) s' n
              end
          | None => String c (sub_from r repl (Some c) s' 0)
          end
      end
  end.

Definition sub (r : regex) (repl s : string) : string :=
  sub_from r repl None s 0.

End Re.

(** ** Field extractors of [scraper.py] *)

Import PyStr Re.

Definition cls_city (c : ascii) : bool := is_alpha_az c || isspace c.

(** [r",\s*([A-Za-z\s]+),\s*CA"] *)
Definition CITY_RE_1 : regex :=
  Seq (Chr (is_char ","))
 (Seq (Star (Chr isspace))
 (Seq (Group (Plus (Chr cls_city)))
 (Seq (Chr (is_char ","))
 (Seq (Star (Chr isspace)) (Lit "CA"))))).

(** [r",\s*([A-Za-z\s]+)\s+CA"] *)
Definition CITY_RE_2 : regex :=
  Seq (Chr (is_char ","))
 (Seq (Star (Chr isspace))
 (Seq (Group (Plus (Chr cls_city)))
 (Seq (Plus (Chr isspace)) (Lit "CA")))).

Definition extract_city_from_address (address : string) : string :=
  if is_empty address then ""
  else
    match search CITY_RE_1 address with
    | Some m => strip (group1 m)
    | None =>
        match search CITY_RE_2 address with
        | Some m => strip (group1 m)
        | None => ""
        end
    end.

(** [r"\b(\d{5}(?:-\d{4})?)\b"] on strings of code points below 256,
    where the digits [\d] takes are 0 to 9; [Uni.ZIP_RE] is the pattern on
    texts of arbitrary code points. *)
Definition ZIP_RE : regex :=
  Seq WordB
 (Seq (Group (Seq (Times 5 (Chr is_digit))
                  (Opt (Seq (Chr (is_char "-")) (Times 4 (Chr is_digit))))))
      WordB).

Definition extract_zip (address : string) : string :=
  match search ZIP_RE address with
  | Some m => group1 m
  | None => ""
  end.

(** ** Declarative reading of the matcher *)

Module ReSpec.
Import PyStr Re.

(** [Matches r st st']: [r] can take the matcher from [st] to [st']. *)
Inductive Matches : regex -> mstate -> mstate -> Prop :=
| M_Eps st : Matches Eps st st
| M_Chr p c s' st :
    rest st = String c s' -> p c = true ->
    Matches (Chr p) st (advance c s' st)
| M_Seq a b st st1 st2 :
    Matches a st st1 -> Matches b st1 st2 -> Matches (Seq a b) st st2
| M_Opt_some a st st1 : Matches a st st1 -> Matches (Opt a) st st1
| M_Opt_none a st : Matches (Opt a) st st
| M_Star_nil a st : Matches (Star a) st st
| M_Star_cons a st st1 st2 :
    Matches a st st1 ->
    String.length (rest st1) < String.length (rest st) ->
    Matches (Star a) st1 st2 -> Matches (Star a) st st2
| M_Group a st st1 :
    Matches a st st1 -> Matches (Group a) st (close_group st st1)
| M_WordB st : at_boundary st = true -> Matches WordB st st.

(** The words of a pattern, positions and groups forgotten. *)
Inductive lang : regex -> string -> Prop :=
| L_Eps : lang Eps ""
| L_Chr p c : p c = true -> lang (Chr p) (String c "")
| L_Seq a b w1 w2 : lang a w1 -> lang b w2 -> lang (Seq a b) (w1 ++ w2)
| L_Opt_some a w : lang a w -> lang (Opt a) w
| L_Opt_none a : lang (Opt a) ""
| L_Star_nil a : lang (Star a) ""
| L_Star_cons a w1 w2 : lang a w1 -> lang (Star a) w2 -> lang (Star a) (w1 ++ w2)
| L_Group a w : lang a w -> lang (Group a) w
| L_WordB : lang WordB "".

Fixpoint has_group (r : regex) : bool :=
  match r with
  | Group _ => true
  | Seq a b => has_group a || has_group b
  | Opt a | Star a => has_group a
  | _ => false
  end.

End ReSpec.

Import ReSpec.

(** ** Shape of what the extractors return *)

Definition digits (n : nat) (w : string) : Prop :=
  String.length w = n /\ all_chars is_digit w = true.

(** A ZIP code: five digits, or five digits, a dash and four digits. *)
Definition zip_shaped (w : string) : Prop :=
  digits 5 w \/ exists a b, digits 5 a /\ digits 4 b /\ w = a ++ "-" ++ b.

(** A city: letters and white space only, trimmed at both ends. *)
Definition city_shaped (w : string) : Prop :=
  all_chars cls_city w = true /\
  (forall c, first_char w = Some c -> isspace c = false) /\
  (forall c, last_char w = Some c -> isspace c = false).

(** ** The entity record ([scraper.py], class [InsuranceCompany]) *)

Record InsuranceCompany : Type := mkCompany {
  name : string;
  address : string;
  city : string;
  state : string;
  zip_code : string;
  phone : string;
  website : string;
  email : string;
  rating : string;
  review_count : string;
  categories : string;
  description : string;
  source : string;
  source_url : string
}.

(** The class [[^a-z0-9]]. *)
Definition not_az09 (c : ascii) : bool := negb (is_lower_az c || is_digit c).

(** [re.sub(r"[^a-z0-9]", "", s.lower())] *)
Definition normalize (s : string) : string := sub (Chr not_az09) "" (lower s).

Definition dedup_key (self : InsuranceCompany) : string :=
  let norm := normalize (name self) in
  let city := normalize (city self) in
  norm ++ "_" ++ city.

(** The attribute names [deduplicate] goes through with [getattr] and
    [setattr]. *)
Inductive field : Type :=
| f_address | f_phone | f_website | f_email | f_rating
| f_review_count | f_categories | f_description | f_zip_code.

Definition MERGE_FIELDS : list field :=
  [f_address; f_phone; f_website; f_email; f_rating;
   f_review_count; f_categories; f_description; f_zip_code].

Definition getattr (c : InsuranceCompany) (fld : field) : string :=
  match fld with
  | f_address => address c
  | f_phone => phone c
  | f_website => website c
  | f_email => email c
  | f_rating => rating c
  | f_review_count => review_count c
  | f_categories => categories c
  | f_description => description c
  | f_zip_code => zip_code c
  end.

Definition setattr (c : InsuranceCompany) (fld : field) (v : string)
  : InsuranceCompany :=
  let 'mkCompany n ad ci st zi ph we em ra rc ca de so su := c in
  match fld with
  | f_address => mkCompany n v ci st zi ph we em ra rc ca de so su
  | f_phone => mkCompany n ad ci st zi v we em ra rc ca de so su
  | f_website => mkCompany n ad ci st zi ph v em ra rc ca de so su
  | f_email => mkCompany n ad ci st zi ph we v ra rc ca de so su
  | f_rating => mkCompany n ad ci st zi ph we em v rc ca de so su
  | f_review_count => mkCompany n ad ci st zi ph we em ra v ca de so su
  | f_categories => mkCompany n ad ci st zi ph we em ra rc v de so su
  | f_description => mkCompany n ad ci st zi ph we em ra rc ca v so su
  | f_zip_code => mkCompany n ad ci st v ph we em ra rc ca de so su
  end.

Definition set_source (c : InsuranceCompany) (v : string) : InsuranceCompany :=
  let 'mkCompany n ad ci st zi ph we em ra rc ca de so su := c in
  mkCompany n ad ci st zi ph we em ra rc ca de v su.

(** ** Deduplication ([scraper.py], [deduplicate])

    [deduplicate] keeps in [seen] the objects of its input and writes the
    merged values to them.  Here a record is a value and [seen] holds the
    current value of each retained record; [deduplicate_inplace] further
    down runs the same loop on references into a store, and the two are
    proved to return the same records. *)

(** A dict with string keys: the keys in insertion order. *)
Definition dict (V : Type) : Type := list (string * V).

Fixpoint dict_get {V : Type} (k : string) (d : dict V) : option V :=
  match d with
  | [] => None
  | (k', v) :: d' => if String.eqb k k' then Some v else dict_get k d'
  end.

(** [d[k] = v]: a key already present keeps its place, a new one goes
    last. *)
Fixpoint dict_set {V : Type} (k : string) (v : V) (d : dict V) : dict V :=
  match d with
  | [] => [(k, v)]
  | (k', v') :: d' =>
      if String.eqb k k' then (k', v) :: d' else (k', v') :: dict_set k v d'
  end.

(** [list(d.values())] *)
Definition dict_values {V : Type} (d : dict V) : list V := map snd d.

(** One turn of the loop over the field names. *)
Definition merge_field (company existing : InsuranceCompany) (fld : field)
  : InsuranceCompany :=
  let existing_val := getattr existing fld in
  let new_val := getattr company fld in
  if is_empty existing_val && negb (is_empty new_val)
  then setattr existing fld new_val
  else existing.

(** The body of the [if key in seen] branch: [existing] after merging
    [company] into it. *)
Definition merge_into (existing company : InsuranceCompany) : InsuranceCompany :=
  let existing :=
    fold_left (fun ex fld => merge_field company ex fld) MERGE_FIELDS existing in
  if negb (str_in (source company) (source existing))
  then set_source existing (source existing ++ ", " ++ source company)
  else existing.

Definition dedup_step (seen : dict InsuranceCompany) (company : InsuranceCompany)
  : dict InsuranceCompany :=
  let key := dedup_key company in
  match dict_get key seen with
  | Some existing => dict_set key (merge_into existing company) seen
  | None => dict_set key company seen
  end.

Definition deduplicate (results : list InsuranceCompany) : list InsuranceCompany :=
  dict_values (fold_left dedup_step results []).

(** [s.split(sep)] for a non-empty separator, as [save_results] reads the
    [source] field back ([c.source.split(", ")]).  [skip] counts the
    characters of the separator still to be passed, [cur] is the entry
    being read. *)
Fixpoint split_from (sep s : string) (skip : nat) (cur : string) : list string :=
  match s with
  | EmptyString => [cur]
  | String c s' =>
      match skip with
      | S n => split_from sep s' n cur
      | 0 =>
          if startswith sep s
          then cur :: split_from sep s' (pred (String.length sep)) ""
          else split_from sep s' 0 (cur ++ String c "")
      end
  end.

Definition split (sep s : string) : list string := split_from sep s 0 "".

(** The entries of a comma-joined [source] field. *)
Definition source_entries (src : string) : list string := split ", " src.

(** The records of one identity key, in input order. *)
Definition group (k : string) (xs : list InsuranceCompany) : list InsuranceCompany :=
  filter (fun x => String.eqb (dedup_key x) k) xs.

(** The first non-empty value of a list of values, [""] when there is
    none. *)
Fixpoint first_nonempty (vs : list string) : string :=
  match vs with
  | [] => ""
  | v :: vs' => if is_empty v then first_nonempty vs' else v
  end.

(** A group merged from its first record on. *)
Definition merged (g : list InsuranceCompany) : option InsuranceCompany :=
  match g with
  | [] => None
  | x :: g' => Some (fold_left merge_into g' x)
  end.

(** Two texts agree up to case and non-alphanumeric characters. *)
Inductive agree : string -> string -> Prop :=
| agree_nil : agree "" ""
| agree_skip_l c s t : not_az09 (lower_char c) = true -> agree s t -> agree (String c s) t
| agree_skip_r c s t : not_az09 (lower_char c) = true -> agree s t -> agree s (String c t)
| agree_char c d s t :
    lower_char c = lower_char d -> agree s t -> agree (String c s) (String d t).

(** ** Email extraction ([enrich_sf.py], [extract_emails]) *)

Definition cls_local (c : ascii) : bool :=
  is_alpha_az c || is_digit c || is_char "." c || is_char "_" c
  || is_char "%" c || is_char "+" c || is_char "-" c.

Definition cls_domain (c : ascii) : bool :=
  is_alpha_az c || is_digit c || is_char "." c || is_char "-" c.

(** [r"[a-zA-Z0-9._%+-]+@[a-zA-Z0-9.-]+\.[a-zA-Z]{2,}"] *)
Definition EMAIL_RE : regex :=
  Seq (Plus (Chr cls_local))
 (Seq (Chr (is_char "@"))
 (Seq (Plus (Chr cls_domain))
 (Seq (Chr (is_char "."))
      (AtLeast 2 (Chr is_alpha_az))))).

Definition JUNK : list string :=
  ["example.com"; "sentry"; "webpack"; "wixpress"; "wix.com";
   "squarespace"; "wordpress"; "google.com"; "schema.org";
   "w3.org"; "sentry.io"; "cloudflare"; "jquery"; "bootstrap";
   "placeholder"; "yourdomain"; "email.com"; "domain.com";
   "test.com"; "noreply"; "no-reply"; "yoursite"; "change.me";
   "company.com"; "sample.com"; ".png"; ".jpg"; ".gif"; ".svg"].

(** [any(j in em_lower for j in junk)] *)
Definition is_junk (junk : list string) (em : string) : bool :=
  existsb (fun j => str_in j (lower em)) junk.

(** Membership in the set [seen] of lowercased addresses. *)
Definition set_mem (x : string) (seen : list string) : bool :=
  existsb (String.eqb x) seen.

Definition extract_emails (html : string) : list string :=
  let raw := findall EMAIL_RE html in
  let filtered :=
    fold_left (fun filtered em =>
                 if negb (is_junk JUNK em) && (String.length em <? 80)
                 then list_append filtered em else filtered) raw [] in
  let '(_, result) :=
    fold_left (fun '(seen, result) em =>
                 if negb (set_mem (lower em) seen)
                 then (lower em :: seen, list_append result em)
                 else (seen, result)) filtered ([], []) in
  result.

(** The survivors of the filter as the code has it: not junk and shorter
    than 80 characters. *)
Definition survives (em : string) : bool :=
  negb (is_junk JUNK em) && (String.length em <? 80).

(** The survivors as the specification words it: not junk and not
    exceeding 80 characters. *)
Definition survives_spec (em : string) : bool :=
  negb (is_junk JUNK em) && (String.length em <=? 80).

(** First occurrences up to case, in order. *)
Fixpoint first_seen_ci (l : list string) : list string :=
  match l with
  | [] => []
  | x :: l' =>
      x :: filter (fun y => negb (String.eqb (lower y) (lower x))) (first_seen_ci l')
  end.

(** [extract_emails] as the specification words it. *)
Definition extract_emails_spec (html : string) : list string :=
  first_seen_ci (filter survives_spec (findall EMAIL_RE html)).

(** ** Enrichment *)

(** What one HTTP request comes to: an exception, or a response with its
    status code, body and final URL. *)
Inductive outcome : Type :=
| Raised
| Response (status_code : nat) (text : string) (url : string).

Definition request_log : Type := list (string * outcome).

Definition set_email (c : InsuranceCompany) (v : string) : InsuranceCompany :=
  setattr c f_email v.

Definition set_description (c : InsuranceCompany) (v : string) : InsuranceCompany :=
  setattr c f_description v.

(** [company.website and company.website.startswith("http")] *)
Definition has_website (w : string) : bool :=
  negb (is_empty w) && startswith "http" w.

Definition ENRICH_JUNK : list string :=
  ["example.com"; "sentry"; "webpack"; "wixpress"].

Definition ENRICH_CAP : nat := 200.

Definition SUFFIXES : list string :=
  ["/contact"; "/contact-us"; "/about"; "/about-us"; "/contactus"].

(** The email a response hands to [scrape_website_for_email]: the first
    extracted address of a page answered with status 200. *)
Definition yields (o : outcome) : option string :=
  match o with
  | Response code text _ =>
      if code =? 200 then hd_error (extract_emails text) else None
  | Raised => None
  end.

Section Network.

(** The outside world: the state of the network, what a GET does to it,
    and the two library calls the enrichers make on a response. *)
Variable World : Type.
(** [requests.get(url, ...)] / [session.get(url, ...)] *)
Variable http_get : World -> string -> World * outcome.
(** [BeautifulSoup(text, "lxml")], [None] when it raises. *)
Variable Soup : Type.
Variable BeautifulSoup : string -> option Soup.
(** [soup.find("meta", {"name": "description"})] and, when the tag is
    there, [meta_desc.get("content", "") or ""]. *)
Variable find_meta_description : Soup -> option string.
(** [urlparse(url)] as [scheme] and [netloc], [None] when it raises. *)
Variable urlparse : string -> option (string * string).

(** *** [scraper.py], [enrich_from_websites] *)

Record enrich_state : Type := EnrichState {
  world : World;
  enriched : nat;
  requests : request_log
}.

(** The body of the [try] after a response with status 200 has been
    parsed. *)
Definition enrich_record (text : string) (soup : Soup)
  (company : InsuranceCompany) : InsuranceCompany :=
  let company :=
    if is_empty (email company) then
      let email_matches := findall EMAIL_RE text in
      match find (fun em => negb (is_junk ENRICH_JUNK em)) email_matches with
      | Some em => set_email company em
      | None => company
      end
    else company in
  if is_empty (description company) then
    match find_meta_description soup with
    | Some content => set_description company (slice_to 500 content)
    | None => company
    end
  else company.

Fixpoint enrich_loop (st : enrich_state) (companies : list InsuranceCompany)
  : enrich_state * list InsuranceCompany :=
  match companies with
  | [] => (st, [])
  | company :: more =>
      if negb (has_website (website company)) then
        let '(st', out) := enrich_loop st more in (st', company :: out)
      else if ENRICH_CAP <=? enriched st then (st, companies)
      else
        let '(w, o) := http_get (world st) (website company) in
        let log := list_append (requests st) (website company, o) in
        let skip := EnrichState w (enriched st) log in
        match o with
        | Response code text _ =>
            if code =? 200 then
              match BeautifulSoup text with
              | Some soup =>
                  let '(st', out) :=
                    enrich_loop (EnrichState w (S (enriched st)) log) more in
                  (st', enrich_record text soup company :: out)
              | None =>
                  let '(st', out) := enrich_loop skip more in (st', company :: out)
              end
            else
              let '(st', out) := enrich_loop skip more in (st', company :: out)
        | Raised =>
            let '(st', out) := enrich_loop skip more in (st', company :: out)
        end
  end.

(** The records after the call, and the state the loop ends in. *)
Definition enrich_from_websites (w : World) (companies : list InsuranceCompany)
  : enrich_state * list InsuranceCompany :=
  enrich_loop (EnrichState w 0 []) companies.

(** *** [enrich_sf.py], [scrape_website_for_email] *)

Fixpoint try_suffixes (w : World) (log : request_log) (base : string)
  (suffixes : list string) : World * request_log * string :=
  match suffixes with
  | [] => (w, log, "")
  | suffix :: more =>
      let '(w', o) := http_get w (base ++ suffix) in
      let log' := list_append log (base ++ suffix, o) in
      match o with
      | Response code text _ =>
          if code =? 200 then
            match extract_emails text with
            | em :: _ => (w', log', em)
            | [] => try_suffixes w' log' base more
            end
          else try_suffixes w' log' base more
      | Raised => try_suffixes w' log' base more
      end
  end.

Definition scrape_website_for_email (w : World) (website : string)
  : World * request_log * string :=
  if negb (has_website website) then (w, [], "")
  else
    let '(w1, o) := http_get w website in
    let log := [(website, o)] in
    match o with
    | Raised => (w1, log, "")
    | Response code text url =>
        if negb (code =? 200) then (w1, log, "")
        else
          match extract_emails text with
          | em :: _ => (w1, log, em)
          | [] =>
              match urlparse url with
              | Some (scheme, netloc) =>
                  try_suffixes w1 log (scheme ++ "://" ++ netloc) SUFFIXES
              | None => (w1, log, "")
              end
          end
    end.

End Network.

Arguments world {World} _.
Arguments enriched {World} _.
Arguments requests {World} _.
Arguments EnrichState {World} _ _ _.

(** ** Auxiliary notions for the statements about [deduplicate] *)

(** The four fields [deduplicate] never writes. *)
Definition frame (c : InsuranceCompany) : string * string * string * string :=
  (name c, city c, state c, source_url c).

(** The value a mergeable field ends with: the retained one unless it is
    empty. *)
Definition pick (a b : string) : string := if is_empty a then b else a.

(** The loop over the field names alone. *)
Definition merge_fields (company existing : InsuranceCompany) : InsuranceCompany :=
  fold_left (fun ex fld => merge_field company ex fld) MERGE_FIELDS existing.

(** The dict after the loop of [deduplicate]. *)
Definition dedup_loop (results : list InsuranceCompany) : dict InsuranceCompany :=
  fold_left dedup_step results [].

(** What holds of [seen] after the records [xs] have been processed: the
    keys are distinct, every record's key is there, and the record kept
    under a key is its group merged in input order. *)
Definition dedup_inv (xs : list InsuranceCompany) (seen : dict InsuranceCompany)
  : Prop :=
  NoDup (map fst seen) /\
  (forall x, In x xs -> In (dedup_key x) (map fst seen)) /\
  (forall k r, In (k, r) seen -> merged (group k xs) = Some r).

(** ** [deduplicate] on the objects themselves

    The same loop with the records as objects of a store: [results] is a
    list of references, which may repeat, [seen] maps a key to the
    reference it retains, and a merge writes to the retained object. *)

Definition heap : Type := list InsuranceCompany.

Definition blank : InsuranceCompany :=
  mkCompany "" "" "" "" "" "" "" "" "" "" "" "" "" "".

Definition read (h : heap) (r : nat) : InsuranceCompany := nth r h blank.

Fixpoint write (h : heap) (r : nat) (v : InsuranceCompany) : heap :=
  match h, r with
  | [], _ => []
  | _ :: h', 0 => v :: h'
  | x :: h', S r' => x :: write h' r' v
  end.

Definition dedup_step_inplace (st : heap * dict nat) (r : nat) : heap * dict nat :=
  let '(h, seen) := st in
  let company := read h r in
  let key := dedup_key company in
  match dict_get key seen with
  | Some e => (write h e (merge_into (read h e) company), seen)
  | None => (h, dict_set key r seen)
  end.

Definition dedup_loop_inplace (h : heap) (results : list nat) : heap * dict nat :=
  fold_left dedup_step_inplace results (h, []).

Definition deduplicate_inplace (h : heap) (results : list nat) : heap * list nat :=
  let '(h', seen) := dedup_loop_inplace h results in
  (h', dict_values seen).

(** The values a dict of references stands for. *)
Definition lift (h : heap) (seen : dict nat) : dict InsuranceCompany :=
  map (fun kr => (fst kr, read h (snd kr))) seen.

(** [e] has taken in all that [x] can give: merging [x] into it changes
    nothing. *)
Definition absorbs (e x : InsuranceCompany) : Prop :=
  (forall f, is_empty (getattr e f) = true -> is_empty (getattr x f) = true) /\
  str_in (source x) (source e) = true.

(** What relates the store and the references in [seen], after the
    references [xs] have been processed from the store [h], to the loop on
    values. *)
Record inplace_inv (h : heap) (xs : list nat) (h' : heap) (seen : dict nat)
  : Prop := InplaceInv {
  inv_seen : dedup_loop (map (read h) xs) = lift h' seen;
  inv_len : List.length h' = List.length h;
  inv_free : forall r, ~ In r (map snd seen) -> read h' r = read h r;
  inv_kept : forall k e, In (k, e) seen ->
      e < List.length h /\ dedup_key (read h e) = k /\
      dedup_key (read h' e) = k /\ absorbs (read h' e) (read h e)
}.

(** ** Auxiliary notions for the statements about enrichment *)

(** The twelve fields enrichment never writes. *)
Definition untouched (c : InsuranceCompany) :=
  (name c, address c, city c, state c, zip_code c, phone c, website c,
   rating c, review_count c, categories c, source c, source_url c).

(** [c'] is [c] as [enrich_from_websites] may leave it: as it was, or
    rewritten from a page its website answered with status 200. *)
Definition enriched_from {World Soup : Type}
  (http_get : World -> string -> World * outcome)
  (BeautifulSoup : string -> option Soup)
  (find_meta_description : Soup -> option string)
  (c c' : InsuranceCompany) : Prop :=
  c' = c \/
  exists w w' text url soup,
    http_get w (website c) = (w', Response 200 text url) /\
    BeautifulSoup text = Some soup /\
    c' = enrich_record Soup find_meta_description text soup c.

(** The records with a usable website. *)
Definition eligible (companies : list InsuranceCompany) : list InsuranceCompany :=
  filter (fun c => has_website (website c)) companies.

(** ** Records and networks of the examples *)

(** The two records of the end-to-end scenario. *)
Definition acme_a : InsuranceCompany :=
  mkCompany "Acme Insurance" "" "Oakland" "CA" "" "555-1111" "" "" "" "" "" "" "A" "".

Definition acme_b : InsuranceCompany :=
  mkCompany "ACME INSURANCE" "" "Oakland" "CA" "" "" "http://acme.test" "" "" "" "" ""
    "B" "".

(** Two sightings of one business whose labels are not entries of one
    another although one is part of the other. *)
Definition maps_a : InsuranceCompany :=
  mkCompany "Acme" "" "Oakland" "CA" "" "" "" "" "" "" "" "" "Google Maps" "".

Definition maps_b : InsuranceCompany :=
  mkCompany "Acme" "" "Oakland" "CA" "" "" "" "" "" "" "" "" "Google" "".

(** An address of exactly 80 characters: 68 letters before "@realbiz.com". *)
Definition email80 : string :=
  "aaaaaaaaaaaaaaaaaaaaaaaaaaaaaaaaaaaaaaaaaaaaaaaaaaaaaaaaaaaaaaaaaaaa@realbiz.com".

(** Every request is answered 404. *)
Definition net_404 (w : unit) (url : string) : unit * outcome :=
  (w, Response 404 "" url).

(** A site whose home page shows no address and whose contact page shows
    one. *)
Definition acme_net (w : unit) (url : string) : unit * outcome :=
  if String.eqb url "http://acme.test"
  then (w, Response 200 "<html>Welcome to Acme</html>" url)
  else if String.eqb url "http://acme.test/contact"
  then (w, Response 200 "write to sales@realbiz.com" url)
  else (w, Response 404 "" url).

(** A parser that keeps the text and finds no meta tag. *)
Definition text_soup (text : string) : option string := Some text.
Definition no_meta (soup : string) : option string := None.

(** [urlparse] on a URL of the form scheme://netloc/path. *)
Definition urlparse_simple (url : string) : option (string * string) :=
  match index 0 "://" url with
  | Some i =>
      let after := drop (i + 3) url in
      let netloc :=
        match index 0 "/" after with
        | Some j => substring 0 j after
        | None => after
        end in
      Some (substring 0 i url, netloc)
  | None => Some ("", "")
  end.

Definition site_record (url old_email : string) : InsuranceCompany :=
  mkCompany "Acme Insurance" "" "Oakland" "CA" "" "" url old_email "" "" "" "" "A" "".

(** ** Further notions for the statements about [deduplicate] *)

(** First occurrences, in order. *)
Fixpoint first_seen (l : list string) : list string :=
  match l with
  | [] => []
  | x :: l' => x :: filter (fun y => negb (String.eqb y x)) (first_seen l')
  end.

(** The characters an identity key is made of. *)
Definition key_char (c : ascii) : bool :=
  is_lower_az c || is_digit c || is_char "_" c.

(** An email address as the pattern reads it: a local part, "@", a domain,
    ".", and at least two letters. *)
Definition email_shaped (e : string) : Prop :=
  exists l d t,
    e = l ++ "@" ++ d ++ "." ++ t /\
    l <> "" /\ all_chars cls_local l = true /\
    d <> "" /\ all_chars cls_domain d = true /\
    2 <= String.length t /\ all_chars is_alpha_az t = true.

(** ** Further notions for the statements about enrichment *)

(** Enrichment has written the email or the description of [c]. *)
Definition written (c c' : InsuranceCompany) : bool :=
  negb (String.eqb (email c) (email c') &&
        String.eqb (description c) (description c')).

(** How many records of a run have been written to. *)
Definition count_written (before after : list InsuranceCompany) : nat :=
  List.length (filter (fun p => written (fst p) (snd p)) (combine before after)).

(** ** The registry document ([scraper.py], [scrape_cdi_pdf])

    The part of [scrape_cdi_pdf] between the text of the pages and the
    records appended to [results]; the download and [pdfplumber] are
    outside. *)

Definition newline : ascii := "010".

Definition is_newline (c : ascii) : bool := is_char newline c.

(** [str.upper] on one code point below 256.  The capital of 223 is "SS";
    the capitals of 181 and 255 lie above 255 and those two code points are
    kept, which no test against a text of lower code points can tell. *)
Definition upper_char (c : ascii) : string :=
  let n := code c in
  if is_lower_az c then String (ascii_of_nat (n - 32)) ""
  else if ((224 <=? n) && (n <=? 246)) || ((248 <=? n) && (n <=? 254))
       then String (ascii_of_nat (n - 32)) ""
  else if n =? 223 then "SS"
  else String c "".

Fixpoint upper (s : string) : string :=
  match s with
  | EmptyString => EmptyString
  | String c s' => upper_char c ++ upper s'
  end.

Definition CDI_SKIP : list string :=
  ["ADMITTED INSURERS"; "COMPANY NAME"; "PAGE "; "STATE OF";
   "SUBJECT TO"; "NAIC NUMBER"; "IRI-"; "SUPPLEMENTAL"].

Definition CDI_SOURCE : string := "CDI Admitted Insurers".

(** Greedy [a{0,k}]. *)
Fixpoint UpTo (k : nat) (a : regex) : regex :=
  match k with
  | 0 => Eps
  | S k' => Opt (Seq a (UpTo k' a))
  end.

(** The pattern [r"^(.+?)\s+(\d{4,6})\s*$"], taken in two parts.  What
    follows the lazy group, [\s+(\d{4,6})\s*], is run by the matcher with
    the second group as its group; [$] is the test it ends with.  This
    is the pattern on strings of code points below 256, where the digits
    [\d] takes are 0 to 9; [Uni.NAIC_TAIL] is the pattern on texts of
    arbitrary code points. *)
Definition NAIC_TAIL : regex :=
  Seq (Plus (Chr isspace))
 (Seq (Group (Seq (Times 4 (Chr is_digit)) (UpTo 2 (Chr is_digit))))
      (Star (Chr isspace))).

(** [$]: the end of the text, or just before a newline that ends it. *)
Definition at_end (st : mstate) : option mstate :=
  match rest st with
  | EmptyString => Some st
  | String c EmptyString => if is_newline c then Some st else None
  | String _ (String _ _) => None
  end.

(** The lazy group [(.+?)] at the start of the text: one character that is
    no newline, then the rest of the pattern; when that fails, one
    character more.  [taken] is what the group holds so far. *)
Fixpoint naic_match_from (taken s : string) : option (string * string) :=
  match s with
  | EmptyString => None
  | String c s' =>
      if is_newline c then None
      else
        let taken := taken ++ String c "" in
        match exec NAIC_TAIL (MState (Some c) s' None) at_end with
        | Some m => Some (taken, group1 m)
        | None => naic_match_from taken s'
        end
  end.

(** [re.match(r"^(.+?)\s+(\d{4,6})\s*$", line)] as its two groups. *)
Definition naic_match (line : string) : option (string * string) :=
  naic_match_from "" line.

(** The body of the loop over the lines: the record a line gives, if it
    gives one. *)
Definition cdi_record (pdf_url line : string) : option InsuranceCompany :=
  let line := strip line in
  if is_empty line || (String.length line <? 5) then None
  else if existsb (fun skip => str_in skip (upper line)) CDI_SKIP then None
  else
    let '(name, naic_code) :=
      match naic_match line with
      | Some (g1, g2) => (strip g1, g2)
      | None => (strip line, "")
      end in
    if is_empty name || (String.length name <? 4) then None
    else
      Some (mkCompany name "" "" "CA" "" "" "" "" "" ""
              (if is_empty naic_code then "" else "NAIC: " ++ naic_code)
              "" CDI_SOURCE pdf_url).

(** [all_text]: the texts of the pages, one after the other
    ([all_text += page.extract_text() or ""]). *)
Definition cdi_text (pages : list (option string)) : string :=
  fold_left (fun all_text page =>
               all_text ++ match page with Some t => t | None => "" end)
            pages "".

(** The records the loop appends to [results]. *)
Definition cdi_records (pdf_url all_text : string) : list InsuranceCompany :=
  fold_left (fun results line =>
               match cdi_record pdf_url line with
               | Some company => list_append results company
               | None => results
               end)
            (split (String newline "") all_text) [].

(** A text without white space at either end. *)
Definition trimmed (s : string) : Prop :=
  (forall c, first_char s = Some c -> isspace c = false) /\
  (forall c, last_char s = Some c -> isspace c = false).

(** A NAIC code: four to six digits. *)
Definition naic_shaped (code : string) : Prop :=
  all_chars is_digit code = true /\ 4 <= String.length code <= 6.

(** The results of [f] that are there, in order. *)
Fixpoint keep_some {A B : Type} (f : A -> option B) (l : list A) : list B :=
  match l with
  | [] => []
  | x :: l' =>
      match f x with
      | Some y => y :: keep_some f l'
      | None => keep_some f l'
      end
  end.

(** ** The list sources ([scraper.py], [scrape_google_maps],
    [scrape_yellowpages])

    The browser, the page and the parsed document are outside: a search
    is what [page.evaluate] or [soup.select] hands to the loop that makes
    the records. *)

(** [d.get(k, "")] *)
Definition py_get (k : string) (d : dict string) : string :=
  match dict_get k d with Some v => v | None => "" end.

(** The names of [GMAPS_REGIONS]. *)
Definition GMAPS_REGION_NAMES : list string :=
  ["SF Downtown"; "SF Mission/Castro"; "SF Sunset/Richmond"; "SF SOMA/FiDi";
   "Oakland Downtown"; "San Jose Downtown"; "Palo Alto"; "San Mateo";
   "Walnut Creek"; "Fremont"; "Berkeley"; "Daly City"; "Sunnyvale";
   "Pleasanton"; "San Rafael"; "Redwood City"; "Concord"; "Hayward"].

(** [queries] of [scrape_google_maps]. *)
Definition GMAPS_QUERIES : list string :=
  ["commercial insurance"; "business insurance broker";
   "commercial insurance agent"; "commercial property insurance";
   "general liability insurance"; "workers compensation insurance"].

Definition GMAPS_SOURCE : string := "Google Maps".

(** [region["name"].split("/")[0].strip()] *)
Definition region_city (region_name : string) : string :=
  strip (hd "" (split "/" region_name)).

(** The record made of one entry of [listings_data]; [None] when
    [data["name"]] raises. *)
Definition gmaps_company (region_name url : string) (data : dict string)
  : option InsuranceCompany :=
  let raw_addr := py_get "address" data in
  match dict_get "name" data with
  | None => None
  | Some nm =>
      Some (mkCompany nm raw_addr
              (pick (extract_city_from_address raw_addr) (region_city region_name))
              "CA" (extract_zip raw_addr) (py_get "phone" data) "" ""
              (py_get "rating" data) (py_get "reviewCount" data)
              (py_get "category" data) "" GMAPS_SOURCE url)
  end.

(** The loop over [listings_data]: an entry without name ends it, the
    records appended before stay. *)
Fixpoint gmaps_listings (region_name url : string)
  (listings_data : list (dict string)) (results : list InsuranceCompany)
  : list InsuranceCompany :=
  match listings_data with
  | [] => results
  | data :: more =>
      match gmaps_company region_name url data with
      | Some company =>
          gmaps_listings region_name url more (list_append results company)
      | None => results
      end
  end.

(** The scroll loop of one search.  [count_after k] is the number of links
    the feed shows after the scroll of attempt [k]; the result is the
    number of scrolls made. *)
Fixpoint scroll_loop (count_after : nat -> nat) (attempts : list nat)
  (prev_count : nat) : nat :=
  match attempts with
  | [] => 0
  | scroll_attempt :: more =>
      let current_count := count_after scroll_attempt in
      if (current_count =? prev_count) && (2 <? scroll_attempt) then 1
      else S (scroll_loop count_after more current_count)
  end.

Definition scrolls (count_after : nat -> nat) : nat :=
  scroll_loop count_after (seq 0 12) 0.

(** What the selectors find in one card of a Yellow Pages result page: the
    stripped texts of the elements that are there, and for the website
    link whether it has an [href]. *)
Record yp_card : Type := YpCard {
  name_el : option string;
  phone_el : option string;
  addr_el : option string;
  website_el : option (option string);
  cats : list string
}.

Definition YP_LOCATIONS : list string :=
  ["San Francisco, CA"; "Oakland, CA"; "San Jose, CA"; "San Mateo, CA";
   "Palo Alto, CA"; "Walnut Creek, CA"; "Fremont, CA"; "Berkeley, CA"].

Definition YP_QUERIES : list string :=
  ["commercial insurance"; "business insurance"; "insurance brokers";
   "commercial insurance agents"; "workers compensation insurance";
   "general liability insurance"].

Definition YP_SOURCE : string := "Yellow Pages".

(** [el.get_text(strip=True) if el else ""] *)
Definition text_of (el : option string) : string :=
  match el with Some t => t | None => "" end.

(** The record made of one card; [None] for a card without name. *)
Definition yp_company (location url : string) (card : yp_card)
  : option InsuranceCompany :=
  let nm := text_of (name_el card) in
  if is_empty nm then None
  else
    let raw_addr := text_of (addr_el card) in
    Some (mkCompany nm raw_addr
            (pick (extract_city_from_address raw_addr)
                  (hd "" (split "," location)))
            "CA" (extract_zip raw_addr) (text_of (phone_el card))
            (match website_el card with
             | Some (Some href) => href
             | _ => ""
             end)
            "" "" ""
            (String.concat ", " (cats card)) "" YP_SOURCE url).

Definition yp_cards (location url : string) (cards : list yp_card)
  (results : list InsuranceCompany) : list InsuranceCompany :=
  fold_left (fun results card =>
               match yp_company location url card with
               | Some company => list_append results company
               | None => results
               end)
            cards results.

(** A field of a Yelp record as the JSON of the page gives it: a string,
    or a value of another type (null, a number, a list, an object). *)
Inductive yelp_field : Type := YelpStr (s : string) | YelpOther.

(** A record as [_parse_yelp_html] makes it.  The name, the city, the
    state, the ZIP, the phone and the website are values of the JSON,
    stored as they come; the address, the rating, the review count and the
    categories are made by an f-string, [str] or [join] and are strings;
    the email and the description stay empty and the source is "Yelp". *)
Record yelp_listing : Type := YelpListing {
  yelp_name : yelp_field;
  yelp_address : string;
  yelp_city : yelp_field;
  yelp_state : yelp_field;
  yelp_zip_code : yelp_field;
  yelp_phone : yelp_field;
  yelp_website : yelp_field;
  yelp_rating : string;
  yelp_review_count : string;
  yelp_categories : string;
  yelp_source_url : string
}.

Definition YELP_SOURCE : string := "Yelp".

Definition is_str (field : yelp_field) : bool :=
  match field with
  | YelpStr _ => true
  | YelpOther => false
  end.

(** The name and the city are strings: [dedup_key], which calls [lower] on
    both, can be taken of the record. *)
Definition yelp_keyed (listing : yelp_listing) : bool :=
  is_str (yelp_name listing) && is_str (yelp_city listing).

(** The record, when every field of it is a string. *)
Definition yelp_company (listing : yelp_listing) : option InsuranceCompany :=
  match yelp_name listing, yelp_city listing, yelp_state listing,
        yelp_zip_code listing, yelp_phone listing, yelp_website listing with
  | YelpStr name, YelpStr city, YelpStr state,
    YelpStr zip_code, YelpStr phone, YelpStr website =>
      Some (mkCompany name (yelp_address listing) city state zip_code phone
              website "" (yelp_rating listing) (yelp_review_count listing)
              (yelp_categories listing) "" YELP_SOURCE (yelp_source_url listing))
  | _, _, _, _, _, _ => None
  end.

(** The records, when every field of each is a string. *)
Fixpoint yelp_companies (found : list yelp_listing)
  : option (list InsuranceCompany) :=
  match found with
  | [] => Some []
  | listing :: found =>
      match yelp_company listing, yelp_companies found with
      | Some company, Some companies => Some (company :: companies)
      | _, _ => None
      end
  end.

(** The list [main] collects: its records while every field of each is a
    string.  Once Yelp has appended a record with a field that is not one,
    the list is no longer followed record by record, only whether a name
    or a city is not a string ([BadKey]: [deduplicate] will raise in
    [dedup_key]) or the names and the cities all are ([BadField]). *)
Inductive collected : Type :=
| Records (results : list InsuranceCompany)
| BadKey
| BadField.

(** A source that only appends or raises, run on the list [main]
    collects. *)
Definition appending
  (source : list InsuranceCompany -> option (list InsuranceCompany))
  (all_results : collected) : option collected :=
  match all_results with
  | Records results => option_map Records (source results)
  | BadKey => option_map (fun _ => BadKey) (source [])
  | BadField => option_map (fun _ => BadField) (source [])
  end.

(** How a run ends: it saves rows, having made the requests of the log; it
    raises; or it goes on after [deduplicate] with a record one of whose
    fields is not a string, where it is not followed ([enrich_from_websites]
    raises on a website that is a number, and otherwise such a record is
    saved). *)
Inductive run : Type :=
| Saved (rows : list InsuranceCompany) (log : request_log)
| Raises
| NotFollowed.

(** How the start of a browser source goes: the import fails and the
    source is skipped, launching raises, or the browser runs. *)
Inductive setup : Type := NotInstalled | LaunchFails | Started.

(** What the sources meet in one run. *)
Record sources_world : Type := SourcesWorld {
  gmaps_setup : setup;
  (** the URL of a search, by region name and query *)
  gmaps_url : string -> string -> string;
  (** [listings_data] of a search; [None] when the page fails or shows
      no feed *)
  gmaps_feed : string -> string -> option (list (dict string));
  (** the records of all the pages of [scrape_yelp], as [_parse_yelp_html]
      makes them (none when the import fails and the source is skipped);
      [None] when launching the browser raises *)
  yelp_found : option (list yelp_listing);
  yp_setup : setup;
  yp_url : string -> string -> nat -> string;
  (** the cards of a result page; [None] when loading it fails *)
  yp_page : string -> string -> nat -> option (list yp_card);
  (** the texts of the pages of the registry document; [None] when the
      download or the reading fails *)
  cdi_pages : option (list (option string))
}.

Definition gmaps_search (sw : sources_world) (results : list InsuranceCompany)
  (region_name query : string) : list InsuranceCompany :=
  match gmaps_feed sw region_name query with
  | Some listings_data =>
      gmaps_listings region_name (gmaps_url sw region_name query)
        listings_data results
  | None => results
  end.

Definition scrape_google_maps (sw : sources_world)
  (results : list InsuranceCompany) : option (list InsuranceCompany) :=
  match gmaps_setup sw with
  | NotInstalled => Some results
  | LaunchFails => None
  | Started =>
      Some (fold_left
              (fun results region_name =>
                 fold_left (fun results query =>
                              gmaps_search sw results region_name query)
                           GMAPS_QUERIES results)
              GMAPS_REGION_NAMES results)
  end.

Definition yp_search (sw : sources_world) (results : list InsuranceCompany)
  (location query : string) (page_num : nat) : list InsuranceCompany :=
  match yp_page sw location query page_num with
  | Some cards => yp_cards location (yp_url sw location query page_num) cards results
  | None => results
  end.

Definition scrape_yellowpages (sw : sources_world)
  (results : list InsuranceCompany) : option (list InsuranceCompany) :=
  match yp_setup sw with
  | NotInstalled => Some results
  | LaunchFails => None
  | Started =>
      Some (fold_left
              (fun results location =>
                 fold_left
                   (fun results query =>
                      fold_left (fun results page_num =>
                                   yp_search sw results location query page_num)
                                (seq 1 3) results)
                   YP_QUERIES results)
              YP_LOCATIONS results)
  end.

(** [scrape_yelp] extends the list by what the pages give, whatever the
    types of the fields: nothing in it looks at them. *)
Definition scrape_yelp (sw : sources_world) (results : list InsuranceCompany)
  : option collected :=
  match yelp_found sw with
  | Some found =>
      if forallb yelp_keyed found then
        match yelp_companies found with
        | Some companies => Some (Records (results ++ companies)%list)
        | None => Some BadField
        end
      else Some BadKey
  | None => None
  end.

Definition CDI_PDF_URL : string :=
  "https://www.insurance.ca.gov/0250-insurers/0300-insurers/0100-applications/upload/AdmittedInsurers.pdf".

(** [scrape_cdi_pdf] never raises: when anything before the loop over the
    lines fails, nothing has been appended. *)
Definition scrape_cdi_pdf (sw : sources_world) (results : list InsuranceCompany)
  : list InsuranceCompany :=
  match cdi_pages sw with
  | Some pages => (results ++ cdi_records CDI_PDF_URL (cdi_text pages))%list
  | None => results
  end.

(** ** Output ([scraper.py], [save_results]) *)

(** [list.sort(key=...)]: the stable sort by [<] on the keys, here by
    insertion from the right. *)
Fixpoint insert_by {A K : Type} (lt : K -> K -> bool) (key : A -> K)
  (x : A) (l : list A) : list A :=
  match l with
  | [] => [x]
  | y :: l' =>
      if lt (key y) (key x) then y :: insert_by lt key x l' else x :: l
  end.

Fixpoint sort_by {A K : Type} (lt : K -> K -> bool) (key : A -> K)
  (l : list A) : list A :=
  match l with
  | [] => []
  | x :: l' => insert_by lt key x (sort_by lt key l')
  end.

(** The [<] of a three-way comparison. *)
Definition lt_of {K : Type} (cmp : K -> K -> comparison) (a b : K) : bool :=
  match cmp a b with Lt => true | _ => false end.

(** The comparison of two pairs of strings, three-way. *)
Definition key_compare (k1 k2 : string * string) : comparison :=
  match String.compare (fst k1) (fst k2) with
  | Eq => String.compare (snd k1) (snd k2)
  | c => c
  end.

(** [<] on pairs of strings, as Python compares tuples. *)
Definition key_lt (k1 k2 : string * string) : bool :=
  match String.compare (fst k1) (fst k2) with
  | Lt => true
  | Gt => false
  | Eq => String.ltb (snd k1) (snd k2)
  end.

(** [lambda c: (c.city.lower(), c.name.lower())] *)
Definition sort_key (c : InsuranceCompany) : string * string :=
  (lower (city c), lower (name c)).

(** The rows in the order in which the CSV and the JSON file have them. *)
Definition save_order (companies : list InsuranceCompany) : list InsuranceCompany :=
  sort_by key_lt sort_key companies.

(** [d.get(k, 0)] once looked up. *)
Definition or_zero (o : option nat) : nat :=
  match o with Some n => n | None => 0 end.

(** [asdict(c)]: the row written for a record, by column. *)
Definition asdict (c : InsuranceCompany) : dict string :=
  [("name", name c); ("address", address c); ("city", city c);
   ("state", state c); ("zip_code", zip_code c); ("phone", phone c);
   ("website", website c); ("email", email c); ("rating", rating c);
   ("review_count", review_count c); ("categories", categories c);
   ("description", description c); ("source", source c);
   ("source_url", source_url c)].

(** [d[k] = d.get(k, 0) + 1] *)
Definition count_up (d : dict nat) (k : string) : dict nat :=
  dict_set k (or_zero (dict_get k d) + 1) d.

Definition city_label (c : InsuranceCompany) : string := pick (city c) "Unknown".

Definition summary_cities (companies : list InsuranceCompany) : dict nat :=
  fold_left (fun cities c => count_up cities (city_label c)) companies [].

Definition summary_sources (companies : list InsuranceCompany) : dict nat :=
  fold_left (fun sources c => fold_left count_up (split ", " (source c)) sources)
            companies [].

(** [sorted(d.items(), key=lambda x: -x[1])] *)
Definition by_count (d : dict nat) : list (string * nat) :=
  sort_by (fun a b => b <? a) snd d.

(** Two keys that [lt] does not tell apart. *)
Definition same_key {K : Type} (lt : K -> K -> bool) (a b : K) : bool :=
  negb (lt a b || lt b a).

(** Ascending by [lt] on the keys. *)
Definition ascending {A K : Type} (lt : K -> K -> bool) (key : A -> K)
  (l : list A) : Prop :=
  StronglySorted (fun a b => lt (key b) (key a) = false) l.

(** The entries of [l] whose key [lt] does not tell from [k], in order. *)
Definition with_key {A K : Type} (lt : K -> K -> bool) (key : A -> K)
  (k : K) (l : list A) : list A :=
  filter (fun x => same_key lt (key x) k) l.

(** How often [k] is among [ks]. *)
Definition occurrences (k : string) (ks : list string) : nat :=
  List.length (filter (String.eqb k) ks).

(** ** The run ([scraper.py], [main]) *)

(** [x in l] on a list of strings. *)
Definition py_in (x : string) (l : list string) : bool :=
  existsb (String.eqb x) l.

Section Pipeline.

Variable World : Type.
Variable http_get : World -> string -> World * outcome.
Variable Soup : Type.
Variable BeautifulSoup : string -> option Soup.
Variable find_meta_description : Soup -> option string.

(** What [main] hands to [save_results], in the order of the files, and
    the requests of the enrichment.  The run raises when a source raises,
    and in [deduplicate] when a name or a city in the list is not a
    string. *)
Definition main (sw : sources_world) (w : World) (argv : list string) : run :=
  let all_results : list InsuranceCompany := [] in
  let sources := if 1 <? List.length argv then tl argv else ["gmaps"; "cdi"] in
  match (if py_in "gmaps" sources then scrape_google_maps sw all_results
         else Some all_results) with
  | None => Raises
  | Some all_results =>
  match (if py_in "yelp" sources then scrape_yelp sw all_results
         else Some (Records all_results)) with
  | None => Raises
  | Some all_results =>
  match (if py_in "yellowpages" sources
         then appending (scrape_yellowpages sw) all_results
         else Some all_results) with
  | None => Raises
  | Some BadKey => Raises
  | Some BadField => NotFollowed
  | Some (Records all_results) =>
      let all_results :=
        if py_in "cdi" sources then scrape_cdi_pdf sw all_results
        else all_results in
      let unique := deduplicate all_results in
      let '(log, unique) :=
        if py_in "enrich" sources || (List.length argv <=? 1) then
          let '(st, unique) :=
            enrich_from_websites World http_get Soup BeautifulSoup
              find_meta_description w unique in
          (requests st, unique)
        else ([], unique) in
      Saved (save_order unique) log
  end end end.

End Pipeline.

(** ** The second enricher ([enrich_sf.py], [main])

    A row is what [csv.DictReader] gives for a line that has as many
    fields as the header: a dict from the column names to strings. *)

(** [row.get(k)] read as a condition. *)
Definition truthy (k : string) (row : dict string) : bool :=
  negb (is_empty (py_get k row)).

(** The condition under which a row is taken for enrichment. *)
Definition is_sf_row (row : dict string) : bool :=
  let city := py_get "city" row in
  (startswith "SF " city || String.eqb city "San Francisco") &&
  str_in "Google Maps" (py_get "source" row).

Fixpoint sf_indices_from (i : nat) (rows : list (dict string))
  (sf_indices : list nat) : list nat :=
  match rows with
  | [] => sf_indices
  | row :: more =>
      sf_indices_from (S i) more
        (if is_sf_row row then list_append sf_indices i else sf_indices)
  end.

Definition sf_indices (all_rows : list (dict string)) : list nat :=
  sf_indices_from 0 all_rows [].

(** [all_rows[idx]] and [all_rows[idx][k] = v] for an index in range. *)
Definition row_at (all_rows : list (dict string)) (idx : nat) : dict string :=
  nth idx all_rows [].

Fixpoint set_row (all_rows : list (dict string)) (idx : nat) (row : dict string)
  : list (dict string) :=
  match all_rows, idx with
  | [], _ => []
  | _ :: more, 0 => row :: more
  | r :: more, S idx' => r :: set_row more idx' row
  end.

(** The rows that phase 2 looks at. *)
Definition sites_to_check (all_rows : list (dict string)) (sf_indices : list nat)
  : list nat :=
  filter (fun idx => truthy "website" (row_at all_rows idx)) sf_indices.

Section SecondEnricher.

Variable World : Type.
Variable http_get : World -> string -> World * outcome.
Variable urlparse : string -> option (string * string).

Record phase2_state : Type := Phase2State {
  p2_world : World;
  all_rows_now : list (dict string);
  p2_requests : request_log;
  found_emails : nat
}.

(** One turn of the loop of phase 2; [None] when [row["website"]] or
    [row['name']] raises. *)
Definition phase2_step (st : phase2_state) (idx : nat) : option phase2_state :=
  let row := row_at (all_rows_now st) idx in
  if truthy "email" row then
    Some (Phase2State (p2_world st) (all_rows_now st) (p2_requests st)
            (S (found_emails st)))
  else
    match dict_get "website" row, dict_get "name" row with
    | Some website, Some _ =>
        let '(w, log, email) :=
          scrape_website_for_email World http_get urlparse (p2_world st) website in
        if is_empty email then
          Some (Phase2State w (all_rows_now st) (p2_requests st ++ log)%list
                  (found_emails st))
        else
          Some (Phase2State w
                  (set_row (all_rows_now st) idx (dict_set "email" email row))
                  (p2_requests st ++ log)%list (S (found_emails st)))
    | _, _ => None
    end.

Fixpoint phase2_loop (st : phase2_state) (sites_to_check : list nat)
  : option phase2_state :=
  match sites_to_check with
  | [] => Some st
  | idx :: more =>
      match phase2_step st idx with
      | Some st' => phase2_loop st' more
      | None => None
      end
  end.

(** Phase 2 on the rows as phase 1 has left them, [sf_indices] being the
    indices taken when the rows were read. *)
Definition phase2 (w : World) (all_rows : list (dict string))
  (sf_indices : list nat) : option phase2_state :=
  phase2_loop (Phase2State w all_rows [] 0) (sites_to_check all_rows sf_indices).

End SecondEnricher.

(** A row as phase 2 may leave it: as it was, or with the email found for
    it where it had none. *)
Definition emailed (row row' : dict string) : Prop :=
  row' = row \/
  truthy "email" row = false /\
  exists e, e <> "" /\ row' = dict_set "email" e row.

Arguments p2_world {World} _.
Arguments all_rows_now {World} _.
Arguments p2_requests {World} _.
Arguments found_emails {World} _.
Arguments Phase2State {World} _ _ _ _.

(** ** Where a record comes from *)

(** A record made of a Google Maps listing of a configured region. *)
Definition from_gmaps (c : InsuranceCompany) : Prop :=
  exists region_name url data,
    In region_name GMAPS_REGION_NAMES /\
    gmaps_company region_name url data = Some c.

(** A record made of a line of the registry document. *)
Definition from_cdi (c : InsuranceCompany) : Prop :=
  exists pdf_url line, cdi_record pdf_url line = Some c.

(** A record as a default run saves it. *)
Definition plain_record (c : InsuranceCompany) : Prop :=
  website c = "" /\ email c = "" /\ description c = "" /\ state c = "CA" /\
  (source c = GMAPS_SOURCE \/ source c = CDI_SOURCE).

(** What holds between the rows read and the rows of a state of the loop
    of phase 2 over [sites]. *)
Definition phase2_inv {World : Type} (all_rows : list (dict string))
  (sites : list nat) (st : phase2_state World) : Prop :=
  List.length (all_rows_now st) = List.length all_rows /\
  forall i, row_at (all_rows_now st) i = row_at all_rows i \/
            In i sites /\ emailed (row_at all_rows i) (row_at (all_rows_now st) i).

(** A record made of a Yellow Pages card of a configured location. *)
Definition from_yp (c : InsuranceCompany) : Prop :=
  exists location url card,
    In location YP_LOCATIONS /\ yp_company location url card = Some c.

(** ** Texts of arbitrary code points

    The two field extractors and the reading of one line of the registry
    document once more, on texts whose characters are arbitrary code
    points.  The classes [\d], [\s] and [\w] of a [str] pattern,
    [str.strip] and [str.upper] follow the Unicode database of the
    interpreter: below 256 they are the tables above, from 256 on they are
    a parameter. *)

Module Uni.

(** A text: its code points. *)
Definition text : Type := list N.

(** The text of a string of code points below 256. *)
Fixpoint of_string (s : string) : text :=
  match s with
  | EmptyString => []
  | String c s' => N_of_ascii c :: of_string s'
  end.

(** What the Unicode database says of the code points from 256 on. *)
Record unicode : Type := Unicode {
  (** [\d]: the decimal digits *)
  wide_decimal : N -> bool;
  (** [\s] and [str.isspace] *)
  wide_space : N -> bool;
  (** [\w] *)
  wide_word : N -> bool;
  (** [str.upper] of one code point *)
  wide_upper : N -> text
}.

(** A class given below 256 by a table and from 256 on by the database. *)
Definition class (table : ascii -> bool) (wide : N -> bool) (n : N) : bool :=
  if (n <? 256)%N then table (ascii_of_N n) else wide n.

(** The class [[A-Za-z]]. *)
Definition is_alpha_az : N -> bool := class PyStr.is_alpha_az (fun _ => false).

(** One given character of a pattern. *)
Definition is_char (a : ascii) (n : N) : bool := N.eqb (N_of_ascii a) n.

Definition is_empty (s : text) : bool :=
  match s with [] => true | _ => false end.

Definition all_chars (p : N -> bool) (s : text) : bool := forallb p s.

Definition first_char (s : text) : option N := hd_error s.

Fixpoint last_char (s : text) : option N :=
  match s with
  | [] => None
  | [c] => Some c
  | _ :: s' => last_char s'
  end.

(** [x] occurs in [s] as a run of consecutive characters. *)
Definition occurs_in (x s : text) : Prop := exists a b, s = (a ++ x ++ b)%list.

Fixpoint startswith (p s : text) : bool :=
  match p, s with
  | [], _ => true
  | a :: p', b :: s' => N.eqb a b && startswith p' s'
  | _ :: _, [] => false
  end.

(** [needle in hay] *)
Fixpoint str_in (needle hay : text) : bool :=
  startswith needle hay ||
  match hay with
  | [] => false
  | _ :: hay' => str_in needle hay'
  end.

(** A pattern; [Chr p] is one character of the class [p]. *)
Inductive regex : Type :=
| Eps
| Chr (p : N -> bool)
| Seq (a b : regex)
| Opt (a : regex)
| Star (a : regex)
| Group (a : regex)
| WordB.

Definition Plus (a : regex) : regex := Seq a (Star a).

Fixpoint Times (n : nat) (a : regex) : regex :=
  match n with
  | 0 => Eps
  | S n' => Seq a (Times n' a)
  end.

(** [a{0,k}] *)
Fixpoint UpTo (k : nat) (a : regex) : regex :=
  match k with
  | 0 => Eps
  | S k' => Opt (Seq a (UpTo k' a))
  end.

Fixpoint Lit (s : string) : regex :=
  match s with
  | EmptyString => Eps
  | String c s' => Seq (Chr (is_char c)) (Lit s')
  end.

Fixpoint has_group (r : regex) : bool :=
  match r with
  | Group _ => true
  | Seq a b => has_group a || has_group b
  | Opt a | Star a => has_group a
  | _ => false
  end.

Record mstate : Type := MState {
  before : option N;
  rest : text;
  grp : option text
}.

Definition advance (c : N) (s' : text) (st : mstate) : mstate :=
  MState (Some c) s' (grp st).

(** The text consumed between two positions of one scan. *)
Definition consumed (st st' : mstate) : text :=
  firstn (List.length (rest st) - List.length (rest st')) (rest st).

Definition close_group (st st' : mstate) : mstate :=
  MState (before st') (rest st') (Some (consumed st st')).

Fixpoint star_loop (body : mstate -> (mstate -> option mstate) -> option mstate)
  (k : mstate -> option mstate) (fuel : nat) (st : mstate) {struct fuel}
  : option mstate :=
  match fuel with
  | 0 => k st
  | S fuel' =>
      match body st (fun st' =>
              if List.length (rest st') <? List.length (rest st)
              then star_loop body k fuel' st' else None) with
      | Some m => Some m
      | None => k st
      end
  end.

(** [m.group(1)] *)
Definition group1 (m : mstate) : text :=
  match grp m with Some g => g | None => [] end.

Section Database.

Variable db : unicode.

(** [\d], [\s] and [\w] *)
Definition isdecimal : N -> bool := class PyStr.is_digit (wide_decimal db).
Definition isspace : N -> bool := class PyStr.isspace (wide_space db).
Definition isword : N -> bool := class PyStr.isword (wide_word db).

Fixpoint lstrip (s : text) : text :=
  match s with
  | [] => []
  | c :: s' => if isspace c then lstrip s' else s
  end.

Fixpoint rstrip (s : text) : text :=
  match s with
  | [] => []
  | c :: s' =>
      match rstrip s' with
      | [] => if isspace c then [] else [c]
      | t => c :: t
      end
  end.

(** [s.strip()] *)
Definition strip (s : text) : text := rstrip (lstrip s).

(** [str.upper] of one code point: below 256 the table above, but for the
    two code points whose capitals lie beyond 255. *)
Definition upper_char (n : N) : text :=
  if (n =? 181)%N then [924%N]
  else if (n =? 255)%N then [376%N]
  else if (n <? 256)%N then of_string (upper_char (ascii_of_N n))
  else wide_upper db n.

Definition upper (s : text) : text := flat_map upper_char s.

Definition word_opt (o : option N) : bool :=
  match o with Some c => isword c | None => false end.

Definition at_boundary (st : mstate) : bool :=
  xorb (word_opt (before st)) (word_opt (first_char (rest st))).

Fixpoint exec (r : regex) (st : mstate) (k : mstate -> option mstate)
  {struct r} : option mstate :=
  match r with
  | Eps => k st
  | Chr p =>
      match rest st with
      | c :: s' => if p c then k (advance c s' st) else None
      | [] => None
      end
  | Seq a b => exec a st (fun st' => exec b st' k)
  | Opt a =>
      match exec a st k with
      | Some m => Some m
      | None => k st
      end
  | Star a => star_loop (exec a) k (List.length (rest st)) st
  | Group a => exec a st (fun st' => k (close_group st st'))
  | WordB => if at_boundary st then k st else None
  end.

Definition match_at (r : regex) (prev : option N) (s : text) : option mstate :=
  exec r (MState prev s None) Some.

(** [re.search(r, s)] *)
Fixpoint search_from (r : regex) (prev : option N) (s : text) : option mstate :=
  match match_at r prev s with
  | Some m => Some m
  | None =>
      match s with
      | [] => None
      | c :: s' => search_from r (Some c) s'
      end
  end.

Definition search (r : regex) (s : text) : option mstate :=
  search_from r None s.

(** *** [scraper.py], the field extractors *)

Definition cls_city (c : N) : bool := is_alpha_az c || isspace c.

(** [r",\s*([A-Za-z\s]+),\s*CA"] *)
Definition CITY_RE_1 : regex :=
  Seq (Chr (is_char ","))
 (Seq (Star (Chr isspace))
 (Seq (Group (Plus (Chr cls_city)))
 (Seq (Chr (is_char ","))
 (Seq (Star (Chr isspace)) (Lit "CA"))))).

(** [r",\s*([A-Za-z\s]+)\s+CA"] *)
Definition CITY_RE_2 : regex :=
  Seq (Chr (is_char ","))
 (Seq (Star (Chr isspace))
 (Seq (Group (Plus (Chr cls_city)))
 (Seq (Plus (Chr isspace)) (Lit "CA")))).

Definition extract_city_from_address (address : text) : text :=
  if is_empty address then []
  else
    match search CITY_RE_1 address with
    | Some m => strip (group1 m)
    | None =>
        match search CITY_RE_2 address with
        | Some m => strip (group1 m)
        | None => []
        end
    end.

(** [r"\b(\d{5}(?:-\d{4})?)\b"] *)
Definition ZIP_RE : regex :=
  Seq WordB
 (Seq (Group (Seq (Times 5 (Chr isdecimal))
                  (Opt (Seq (Chr (is_char "-")) (Times 4 (Chr isdecimal))))))
      WordB).

Definition extract_zip (address : text) : text :=
  match search ZIP_RE address with
  | Some m => group1 m
  | None => []
  end.

(** *** [scraper.py], [scrape_cdi_pdf]: one line *)

Definition is_newline (c : N) : bool := N.eqb 10 c.

(** [\s+(\d{4,6})\s*] *)
Definition NAIC_TAIL : regex :=
  Seq (Plus (Chr isspace))
 (Seq (Group (Seq (Times 4 (Chr isdecimal)) (UpTo 2 (Chr isdecimal))))
      (Star (Chr isspace))).

(** [$]: the end of the text, or the line break before it. *)
Definition at_end (st : mstate) : option mstate :=
  match rest st with
  | [] => Some st
  | [c] => if is_newline c then Some st else None
  | _ => None
  end.

(** [(.+?)] before the rest of the pattern: one character more at each
    turn, none of them a line break. *)
Fixpoint naic_match_from (taken s : text) : option (text * text) :=
  match s with
  | [] => None
  | c :: s' =>
      if is_newline c then None
      else
        let taken := (taken ++ [c])%list in
        match exec NAIC_TAIL (MState (Some c) s' None) at_end with
        | Some m => Some (taken, group1 m)
        | None => naic_match_from taken s'
        end
  end.

(** [re.match(r"^(.+?)\s+(\d{4,6})\s*$", line)] as its two groups. *)
Definition naic_match (line : text) : option (text * text) :=
  naic_match_from [] line.

(** The body of the loop over the lines as far as the name and the code:
    what a line gives for them, if it gives a record. *)
Definition cdi_line (line : text) : option (text * text) :=
  let line := strip line in
  if is_empty line || (List.length line <? 5) then None
  else if existsb (fun skip => str_in (of_string skip) (upper line)) CDI_SKIP
  then None
  else
    let '(name, naic_code) :=
      match naic_match line with
      | Some (g1, g2) => (strip g1, g2)
      | None => (strip line, [])
      end in
    if is_empty name || (List.length name <? 4) then None
    else Some (name, naic_code).

(** *** Declarative reading of the matcher *)

Inductive Matches : regex -> mstate -> mstate -> Prop :=
| M_Eps st : Matches Eps st st
| M_Chr p c s' st :
    rest st = c :: s' -> p c = true ->
    Matches (Chr p) st (advance c s' st)
| M_Seq a b st st1 st2 :
    Matches a st st1 -> Matches b st1 st2 -> Matches (Seq a b) st st2
| M_Opt_some a st st1 : Matches a st st1 -> Matches (Opt a) st st1
| M_Opt_none a st : Matches (Opt a) st st
| M_Star_nil a st : Matches (Star a) st st
| M_Star_cons a st st1 st2 :
    Matches a st st1 ->
    List.length (rest st1) < List.length (rest st) ->
    Matches (Star a) st1 st2 -> Matches (Star a) st st2
| M_Group a st st1 :
    Matches a st st1 -> Matches (Group a) st (close_group st st1)
| M_WordB st : at_boundary st = true -> Matches WordB st st.

(** *** Shape of what the extractors and a line give *)

(** [n] decimal digits. *)
Definition digits (n : nat) (w : text) : Prop :=
  List.length w = n /\ all_chars isdecimal w = true.

(** A ZIP code: five decimal digits, or five, a dash and four. *)
Definition zip_shaped (w : text) : Prop :=
  digits 5 w \/
  exists a b, digits 5 a /\ digits 4 b /\ w = (a ++ of_string "-" ++ b)%list.

(** A text without white space at either end. *)
Definition trimmed (s : text) : Prop :=
  (forall c, first_char s = Some c -> isspace c = false) /\
  (forall c, last_char s = Some c -> isspace c = false).

(** A city: letters A-Z, a-z and white space only, trimmed. *)
Definition city_shaped (w : text) : Prop :=
  all_chars cls_city w = true /\ trimmed w.

(** A NAIC code: four to six decimal digits. *)
Definition naic_shaped (code : text) : Prop :=
  all_chars isdecimal code = true /\ 4 <= List.length code <= 6.

End Database.

(** The words of a pattern, positions and groups forgotten. *)
Inductive lang : regex -> text -> Prop :=
| L_Eps : lang Eps []
| L_Chr p c : p c = true -> lang (Chr p) [c]
| L_Seq a b w1 w2 : lang a w1 -> lang b w2 -> lang (Seq a b) (w1 ++ w2)%list
| L_Opt_some a w : lang a w -> lang (Opt a) w
| L_Opt_none a : lang (Opt a) []
| L_Star_nil a : lang (Star a) []
| L_Star_cons a w1 w2 : lang a w1 -> lang (Star a) w2 -> lang (Star a) (w1 ++ w2)%list
| L_Group a w : lang a w -> lang (Group a) w
| L_WordB : lang WordB [].

End Uni.

(** ** The texts of code points below 256 among all texts

    What relates the matcher on strings to the matcher on texts: the same
    pattern on both sides, the classes of the one being those of the other
    on the code points below 256. *)

Definition emb (st : Re.mstate) : Uni.mstate :=
  Uni.MState (option_map N_of_ascii (Re.before st))
             (Uni.of_string (Re.rest st))
             (option_map Uni.of_string (Re.grp st)).

Inductive same_pattern : Re.regex -> Uni.regex -> Prop :=
| SP_Eps : same_pattern Re.Eps Uni.Eps
| SP_Chr p q :
    (forall c, q (N_of_ascii c) = p c) -> same_pattern (Re.Chr p) (Uni.Chr q)
| SP_Seq a a' b b' :
    same_pattern a a' -> same_pattern b b' ->
    same_pattern (Re.Seq a b) (Uni.Seq a' b')
| SP_Opt a a' : same_pattern a a' -> same_pattern (Re.Opt a) (Uni.Opt a')
| SP_Star a a' : same_pattern a a' -> same_pattern (Re.Star a) (Uni.Star a')
| SP_Group a a' : same_pattern a a' -> same_pattern (Re.Group a) (Uni.Group a')
| SP_WordB : same_pattern Re.WordB Uni.WordB.

(** A database for the examples: beyond 255 the Arabic-Indic digits
    (1632 to 1641) are decimal digits and word characters, the ideographic
    space (12288) is white space, and no code point has a capital of its
    own. *)
Definition arabic_indic : Uni.unicode :=
  Uni.Unicode (fun n => (1632 <=? n)%N && (n <=? 1641)%N)
              (fun n => (n =? 12288)%N)
              (fun n => (1632 <=? n)%N && (n <=? 1641)%N)
              (fun n => [n]).

(** [str.upper] on the code points below 256 as a text: the two capitals
    that lie beyond 255 are put in for the code points [upper_char] keeps
    in their place. *)
Definition wide_capital (n : N) : N :=
  if (n =? 181)%N then 924%N else if (n =? 255)%N then 376%N else n.

(** * Proofs *)

Section StringFacts.

Lemma append_nil_r (s : string) : s ++ "" = s.
Proof. induction s as [|c s IH]; simpl; [reflexivity | now rewrite IH]. Qed.

Lemma append_assoc (a b c : string) : (a ++ b) ++ c = a ++ (b ++ c).
Proof. induction a as [|x a IH]; simpl; [reflexivity | now rewrite IH]. Qed.

Lemma length_append (a b : string) :
  String.length (a ++ b) = String.length a + String.length b.
Proof. induction a as [|x a IH]; simpl; [reflexivity | now rewrite IH]. Qed.

Lemma substring_0_length (s : string) : substring 0 (String.length s) s = s.
Proof. induction s as [|c s IH]; simpl; [reflexivity | now rewrite IH]. Qed.

Lemma substring_0_append (w r : string) :
  substring 0 (String.length w) (w ++ r) = w.
Proof.
  induction w as [|c w IH]; simpl.
  - destruct r; reflexivity.
  - now rewrite IH.
Qed.

Lemma substring_0_le (n : nat) (s : string) :
  String.length (substring 0 n s) <= n.
Proof.
  revert s; induction n as [|n IH]; intros [|c s]; simpl; try lia.
  specialize (IH s); lia.
Qed.

Lemma all_chars_append p (a b : string) :
  all_chars p (a ++ b) = all_chars p a && all_chars p b.
Proof.
  induction a as [|x a IH]; simpl; [reflexivity|].
  now rewrite IH, andb_assoc.
Qed.

End StringFacts.

Section MatcherSound.

Lemma exec_sound (r : regex) :
  forall st k m, exec r st k = Some m ->
  exists st', Matches r st st' /\ k st' = Some m.
Proof.
  induction r as [|p|a IHa b IHb|a IHa|a IHa|a IHa|]; intros st k m H; simpl in H.
  - exists st; split; [constructor | exact H].
  - destruct (rest st) as [|c s'] eqn:E; [discriminate|].
    destruct (p c) eqn:Ep; [|discriminate].
    exists (advance c s' st); split; [now constructor | exact H].
  - apply IHa in H as (st1 & M1 & H).
    apply IHb in H as (st2 & M2 & H).
    exists st2; split; [econstructor; eassumption | exact H].
  - destruct (exec a st k) as [m'|] eqn:E.
    + apply IHa in E as (st1 & M1 & E).
      exists st1; split; [now apply M_Opt_some | congruence].
    + exists st; split; [apply M_Opt_none | exact H].
  - revert H. generalize (String.length (rest st)). intros fuel.
    revert st. induction fuel as [|fuel IHf]; intros st H; cbn [star_loop] in H.
    + exists st; split; [apply M_Star_nil | exact H].
    + destruct (exec a st _) as [m'|] eqn:E.
      * injection H as ->.
        apply IHa in E as (st1 & M1 & E).
        destruct (String.length (rest st1) <? String.length (rest st)) eqn:Lt;
          [|discriminate].
        apply Nat.ltb_lt in Lt.
        apply IHf in E as (st2 & M2 & E).
        exists st2; split; [eapply M_Star_cons; eassumption | exact E].
      * exists st; split; [apply M_Star_nil | exact H].
  - apply IHa in H as (st1 & M1 & H).
    exists (close_group st st1); split; [now constructor | exact H].
  - destruct (at_boundary st) eqn:E; [|discriminate].
    exists st; split; [now constructor | exact H].
Qed.

Lemma Matches_lang r st st' :
  Matches r st st' -> exists w, rest st = w ++ rest st' /\ lang r w.
Proof.
  induction 1 as [st|p c s' st E Hp|a b st st1 st2 _ IH1 _ IH2|a st st1 _ IH
                  |a st|a st|a st st1 st2 _ IH1 _ _ IH2|a st st1 _ IH|st Hb].
  - exists ""; split; [reflexivity | constructor].
  - exists (String c ""); split; [exact E | now constructor].
  - destruct IH1 as (w1 & E1 & L1), IH2 as (w2 & E2 & L2).
    exists (w1 ++ w2); split; [|now constructor].
    now rewrite E1, E2, append_assoc.
  - destruct IH as (w & E & L). exists w; split; [exact E | now apply L_Opt_some].
  - exists ""; split; [reflexivity | apply L_Opt_none].
  - exists ""; split; [reflexivity | apply L_Star_nil].
  - destruct IH1 as (w1 & E1 & L1), IH2 as (w2 & E2 & L2).
    exists (w1 ++ w2); split; [|now apply L_Star_cons].
    now rewrite E1, E2, append_assoc.
  - destruct IH as (w & E & L). exists w; split; [exact E | now constructor].
  - exists ""; split; [reflexivity | constructor].
Qed.

Lemma Matches_keeps_group r st st' :
  Matches r st st' -> has_group r = false -> grp st' = grp st.
Proof.
  induction 1; simpl; intros G; try reflexivity; try discriminate.
  - apply orb_false_iff in G as [G1 G2].
    now rewrite IHMatches2, IHMatches1.
  - auto.
  - now rewrite IHMatches2, IHMatches1.
Qed.

Lemma Matches_group a st st' :
  Matches (Group a) st st' -> exists w, grp st' = Some w /\ lang a w.
Proof.
  inversion 1 as [| | | | | | |a' st0 st1 M| ]; subst.
  destruct (Matches_lang _ _ _ M) as (w & E & L).
  exists w; split; [|exact L].
  unfold close_group, consumed; simpl. rewrite E, length_append.
  replace (String.length w + String.length (rest st1) - String.length (rest st1))
    with (String.length w) by lia.
  now rewrite substring_0_append.
Qed.

(** The continuation is all the matcher looks at after [r]. *)
Lemma star_loop_ext body k1 k2 :
  (forall st k k', (forall st', k st' = k' st') -> body st k = body st k') ->
  (forall st', k1 st' = k2 st') ->
  forall fuel st, star_loop body k1 fuel st = star_loop body k2 fuel st.
Proof.
  intros Hbody Hk. induction fuel as [|fuel IH]; intros st; cbn [star_loop].
  - apply Hk.
  - rewrite (Hbody st _ (fun st' =>
               if String.length (rest st') <? String.length (rest st)
               then star_loop body k2 fuel st' else None)).
    + now rewrite Hk.
    + intros st'. destruct (_ <? _); [apply IH | reflexivity].
Qed.

Lemma exec_ext r : forall st k k',
  (forall st', k st' = k' st') -> exec r st k = exec r st k'.
Proof.
  induction r as [|p|a IHa b IHb|a IHa|a IHa|a IHa|]; intros st k k' H; cbn [exec].
  - apply H.
  - destruct (rest st) as [|c s']; [reflexivity|]. destruct (p c); [apply H | reflexivity].
  - apply IHa. intros st'. now apply IHb.
  - now rewrite (IHa st k k' H), H.
  - now apply star_loop_ext.
  - apply IHa. intros st'. apply H.
  - now rewrite H.
Qed.

Lemma exec_none r : forall st, exec r st (fun _ => None) = None.
Proof.
  induction r as [|p|a IHa b IHb|a IHa|a IHa|a IHa|]; intros st; cbn [exec].
  - reflexivity.
  - destruct (rest st) as [|c s']; [reflexivity|]. now destruct (p c).
  - rewrite (exec_ext a st _ (fun _ => None)); [apply IHa | intros st'; apply IHb].
  - now rewrite IHa.
  - generalize (String.length (rest st)). intros fuel. revert st.
    induction fuel as [|fuel IH]; intros st; cbn [star_loop]; [reflexivity|].
    rewrite (exec_ext a st _ (fun _ => None)); [now rewrite IHa|].
    intros st'. destruct (_ <? _); [apply IH | reflexivity].
  - apply IHa.
  - now destruct (at_boundary st).
Qed.

(** The fuel of the loop is never what stops it. *)
Lemma star_loop_fuel a k : forall f1 f2 st,
  String.length (rest st) <= f1 -> String.length (rest st) <= f2 ->
  star_loop (exec a) k f1 st = star_loop (exec a) k f2 st.
Proof.
  assert (Z : forall f st, String.length (rest st) = 0 ->
                           star_loop (exec a) k f st = k st).
  { intros [|f] st E; cbn [star_loop]; [reflexivity|].
    rewrite (exec_ext a st _ (fun _ => None)); [now rewrite exec_none|].
    intros st'. rewrite E. reflexivity. }
  induction f1 as [|f1 IH]; intros f2 st L1 L2.
  - rewrite (Z f2) by lia. reflexivity.
  - destruct f2 as [|f2]; [rewrite (Z (S f1)) by lia; reflexivity|].
    cbn [star_loop].
    rewrite (exec_ext a st _ (fun st' =>
               if String.length (rest st') <? String.length (rest st)
               then star_loop (exec a) k f2 st' else None)); [reflexivity|].
    intros st'. destruct (_ <? _) eqn:Lt; [|reflexivity].
    apply Nat.ltb_lt in Lt. apply IH; lia.
Qed.

(** [a*] as [re] runs it: the body first, with the rest of the loop as
    what follows, and the empty iteration when that fails. *)
Lemma exec_Star_unfold a st k :
  exec (Star a) st k =
  match exec a st (fun st' =>
          if String.length (rest st') <? String.length (rest st)
          then exec (Star a) st' k else None) with
  | Some m => Some m
  | None => k st
  end.
Proof.
  cbn [exec]. destruct (String.length (rest st)) as [|n] eqn:E; cbn [star_loop].
  - rewrite (exec_ext a st _ (fun _ => None)); [now rewrite exec_none|].
    intros st'. reflexivity.
  - rewrite E.
    rewrite (exec_ext a st _ (fun st' =>
               if String.length (rest st') <? S n
               then star_loop (exec a) k (String.length (rest st')) st'
               else None)); [reflexivity|].
    intros st'. destruct (_ <? _) eqn:Lt; [|reflexivity].
    apply Nat.ltb_lt in Lt. apply star_loop_fuel; lia.
Qed.

(** The matcher finds a match whenever there is one. *)
Lemma exec_complete r st st' :
  Matches r st st' ->
  forall k m, k st' = Some m -> exists m', exec r st k = Some m'.
Proof.
  induction 1 as [st|p c s' st E Hp|a b st st1 st2 _ IH1 _ IH2|a st st1 _ IH
                  |a st|a st|a st st1 st2 _ IH1 Lt _ IH2|a st st1 _ IH|st Hb];
    intros k m Hk.
  - cbn. eauto.
  - cbn. rewrite E, Hp. eauto.
  - cbn [exec]. destruct (IH2 k m Hk) as (m2 & E2). eapply IH1. exact E2.
  - cbn [exec]. destruct (IH k m Hk) as (m1 & ->). eauto.
  - cbn [exec]. destruct (exec a st k); eauto.
  - rewrite exec_Star_unfold. destruct (exec a st _); eauto.
  - rewrite exec_Star_unfold.
    destruct (IH2 k m Hk) as (m2 & E2).
    destruct (IH1 (fun st' =>
                     if String.length (rest st') <? String.length (rest st)
                     then exec (Star a) st' k else None) m2) as (m1 & ->).
    + apply Nat.ltb_lt in Lt. now rewrite Lt.
    + eauto.
  - cbn [exec]. eapply IH. exact Hk.
  - cbn [exec]. rewrite Hb. eauto.
Qed.

Lemma match_at_iff r prev s :
  (exists m, match_at r prev s = Some m) <->
  (exists st', Matches r (MState prev s None) st').
Proof.
  unfold match_at. split.
  - intros (m & H). apply exec_sound in H as (st' & M & _). eauto.
  - intros (st' & M). eapply exec_complete; [exact M | reflexivity].
Qed.

Lemma search_from_sound r : forall s prev m,
  search_from r prev s = Some m ->
  exists prev' s', match_at r prev' s' = Some m.
Proof.
  induction s as [|c s IH]; intros prev m H; simpl in H.
  - destruct (match_at r prev "") eqn:E; [|discriminate].
    exists prev, ""; congruence.
  - destruct (match_at r prev (String c s)) eqn:E.
    + exists prev, (String c s); congruence.
    + eapply IH; eassumption.
Qed.

Lemma search_sound r s m :
  search r s = Some m -> exists st, Matches r st m.
Proof.
  intros H. apply search_from_sound in H as (prev & s' & H).
  apply exec_sound in H as (st' & M & E).
  injection E as <-. eauto.
Qed.

End MatcherSound.

Section Inversions.

Lemma Matches_Seq_inv a b st st2 :
  Matches (Seq a b) st st2 ->
  exists st1, Matches a st st1 /\ Matches b st1 st2.
Proof. inversion 1; subst; eauto. Qed.

Lemma Matches_WordB_inv st st' : Matches WordB st st' -> st' = st.
Proof. inversion 1; subst; reflexivity. Qed.

Lemma Matches_group_then a post st m :
  Matches (Seq (Group a) post) st m -> has_group post = false ->
  exists w, grp m = Some w /\ lang a w.
Proof.
  intros M G. apply Matches_Seq_inv in M as (st1 & M1 & M2).
  apply Matches_group in M1 as (w & E & L).
  exists w; split; [|exact L].
  now rewrite (Matches_keeps_group _ _ _ M2 G).
Qed.

Lemma lang_Seq_inv a b w :
  lang (Seq a b) w -> exists w1 w2, w = w1 ++ w2 /\ lang a w1 /\ lang b w2.
Proof. inversion 1; subst; eauto. Qed.

Lemma lang_Chr_inv p w :
  lang (Chr p) w -> exists c, w = String c "" /\ p c = true.
Proof. inversion 1; subst; eauto. Qed.

Lemma lang_Opt_inv a w : lang (Opt a) w -> w = "" \/ lang a w.
Proof. inversion 1; subst; auto. Qed.

Lemma lang_Eps_inv w : lang Eps w -> w = "".
Proof. inversion 1; reflexivity. Qed.

Lemma lang_Times_Chr p n : forall w,
  lang (Times n (Chr p)) w -> String.length w = n /\ all_chars p w = true.
Proof.
  induction n as [|n IH]; intros w L; simpl in L.
  - apply lang_Eps_inv in L as ->. now split.
  - apply lang_Seq_inv in L as (w1 & w2 & -> & L1 & L2).
    apply lang_Chr_inv in L1 as (c & -> & Hc).
    apply IH in L2 as [E A]. simpl. now rewrite E, Hc, A.
Qed.

Lemma lang_Star_Chr p w : lang (Star (Chr p)) w -> all_chars p w = true.
Proof.
  intros L. remember (Star (Chr p)) as r eqn:Er.
  induction L; try discriminate; [reflexivity|].
  injection Er as ->.
  apply lang_Chr_inv in L1 as (c & -> & Hc).
  simpl. rewrite Hc. now apply IHL2.
Qed.

Lemma lang_Plus_Chr p w :
  lang (Plus (Chr p)) w -> all_chars p w = true /\ w <> "".
Proof.
  intros L. apply lang_Seq_inv in L as (w1 & w2 & -> & L1 & L2).
  apply lang_Chr_inv in L1 as (c & -> & Hc).
  apply lang_Star_Chr in L2. simpl. rewrite Hc, L2. now split.
Qed.

End Inversions.

Section StripFacts.

Lemma all_chars_lstrip p s : all_chars p s = true -> all_chars p (lstrip s) = true.
Proof.
  induction s as [|c s IH]; simpl; [auto|].
  intros H. apply andb_true_iff in H as [Hc Hs].
  destruct (isspace c); [auto | simpl; now rewrite Hc, Hs].
Qed.

Lemma all_chars_rstrip p s : all_chars p s = true -> all_chars p (rstrip s) = true.
Proof.
  induction s as [|c s IH]; simpl; [auto|].
  intros H. apply andb_true_iff in H as [Hc Hs]. specialize (IH Hs).
  destruct (rstrip s) as [|d t].
  - destruct (isspace c); simpl; [reflexivity | now rewrite Hc].
  - change (all_chars p (String c (String d t))) with (p c && all_chars p (String d t)).
    now rewrite Hc, IH.
Qed.

Lemma first_char_lstrip s c : first_char (lstrip s) = Some c -> isspace c = false.
Proof.
  induction s as [|d s IH]; simpl; [discriminate|].
  destruct (isspace d) eqn:E; [exact IH|].
  simpl. intros [= <-]. exact E.
Qed.

Lemma first_char_rstrip s c :
  first_char (rstrip s) = Some c -> first_char s = Some c.
Proof.
  destruct s as [|d s]; simpl; [discriminate|].
  destruct (rstrip s); [destruct (isspace d)|]; simpl; intros H;
    congruence || discriminate.
Qed.

Lemma last_char_rstrip s c : last_char (rstrip s) = Some c -> isspace c = false.
Proof.
  induction s as [|d s IH]; simpl; [discriminate|].
  destruct (rstrip s) as [|e t].
  - destruct (isspace d) eqn:E; simpl; [discriminate|].
    intros [= <-]. exact E.
  - intros H. apply IH. exact H.
Qed.

End StripFacts.

Lemma zip_group_shaped m st : Matches ZIP_RE st m -> zip_shaped (group1 m).
Proof.
  unfold ZIP_RE. intros M.
  apply Matches_Seq_inv in M as (st1 & _ & M).
  apply Matches_group_then in M as (w & E & L); [|reflexivity].
  unfold group1; rewrite E.
  apply lang_Seq_inv in L as (a & t & -> & La & Lt).
  apply lang_Times_Chr in La.
  apply lang_Opt_inv in Lt as [->|Lt].
  - left. now rewrite append_nil_r.
  - right. apply lang_Seq_inv in Lt as (d & b & -> & Ld & Lb).
    apply lang_Chr_inv in Ld as (c & -> & Hc).
    apply lang_Times_Chr in Lb.
    unfold is_char in Hc. apply Ascii.eqb_eq in Hc as <-.
    exists a, b. now repeat split.
Qed.

Lemma zip_shaped_nonempty w : zip_shaped w -> w <> "".
Proof.
  intros [[L _]|(a & b & [L _] & _ & ->)]; intros E.
  - now rewrite E in L.
  - destruct a; [discriminate L | discriminate E].
Qed.

Lemma strip_city_shaped w : all_chars cls_city w = true -> city_shaped (strip w).
Proof.
  intros A. unfold strip. repeat split.
  - now apply all_chars_rstrip, all_chars_lstrip.
  - intros c H. apply first_char_rstrip in H. now apply first_char_lstrip in H.
  - intros c H. now apply last_char_rstrip in H.
Qed.

Lemma city1_group m st : Matches CITY_RE_1 st m -> all_chars cls_city (group1 m) = true.
Proof.
  unfold CITY_RE_1. intros M.
  apply Matches_Seq_inv in M as (st1 & _ & M).
  apply Matches_Seq_inv in M as (st2 & _ & M).
  apply Matches_group_then in M as (w & E & L); [|reflexivity].
  unfold group1; rewrite E. now apply lang_Plus_Chr in L.
Qed.

Lemma city2_group m st : Matches CITY_RE_2 st m -> all_chars cls_city (group1 m) = true.
Proof.
  unfold CITY_RE_2. intros M.
  apply Matches_Seq_inv in M as (st1 & _ & M).
  apply Matches_Seq_inv in M as (st2 & _ & M).
  apply Matches_group_then in M as (w & E & L); [|reflexivity].
  unfold group1; rewrite E. now apply lang_Plus_Chr in L.
Qed.

Lemma city_shaped_empty : city_shaped "".
Proof. repeat split; intros c H; discriminate. Qed.

Lemma extract_zip_shaped s : extract_zip s = "" \/ zip_shaped (extract_zip s).
Proof.
  unfold extract_zip. destruct (search ZIP_RE s) as [m|] eqn:E; [right | now left].
  apply search_sound in E as (st & M). eapply zip_group_shaped; eassumption.
Qed.

Lemma extract_city_shaped s : city_shaped (extract_city_from_address s).
Proof.
  unfold extract_city_from_address.
  destruct (is_empty s); [apply city_shaped_empty|].
  destruct (search CITY_RE_1 s) as [m|] eqn:E1.
  - apply search_sound in E1 as (st & M).
    apply strip_city_shaped. eapply city1_group; eassumption.
  - destruct (search CITY_RE_2 s) as [m|] eqn:E2; [|apply city_shaped_empty].
    apply search_sound in E2 as (st & M).
    apply strip_city_shaped. eapply city2_group; eassumption.
Qed.


(** ** The matcher on texts of arbitrary code points *)

Section WideMatcher.

Import Uni.

Variable db : unicode.

Local Abbreviation exec := (exec db).
Local Abbreviation Matches := (Matches db).
Local Abbreviation search := (search db).
Local Abbreviation search_from := (search_from db).
Local Abbreviation match_at := (match_at db).

Lemma firstn_app_length {A} (w r : list A) : firstn (List.length w) (w ++ r)%list = w.
Proof.
  induction w as [|c w IH]; cbn; [reflexivity | now rewrite IH].
Qed.

Lemma exec_sound_u (r : regex) :
  forall st k m, exec r st k = Some m ->
  exists st', Matches r st st' /\ k st' = Some m.
Proof.
  induction r as [|p|a IHa b IHb|a IHa|a IHa|a IHa|]; intros st k m H; simpl in H.
  - exists st; split; [constructor | exact H].
  - destruct (rest st) as [|c s'] eqn:E; [discriminate|].
    destruct (p c) eqn:Ep; [|discriminate].
    exists (advance c s' st); split; [now constructor | exact H].
  - apply IHa in H as (st1 & M1 & H).
    apply IHb in H as (st2 & M2 & H).
    exists st2; split; [econstructor; eassumption | exact H].
  - destruct (exec a st k) as [m'|] eqn:E.
    + apply IHa in E as (st1 & M1 & E).
      exists st1; split; [now apply M_Opt_some | congruence].
    + exists st; split; [apply M_Opt_none | exact H].
  - revert H. generalize (List.length (rest st)). intros fuel.
    revert st. induction fuel as [|fuel IHf]; intros st H; cbn [star_loop] in H.
    + exists st; split; [apply M_Star_nil | exact H].
    + destruct (exec a st _) as [m'|] eqn:E.
      * injection H as ->.
        apply IHa in E as (st1 & M1 & E).
        destruct (List.length (rest st1) <? List.length (rest st)) eqn:Lt;
          [|discriminate].
        apply Nat.ltb_lt in Lt.
        apply IHf in E as (st2 & M2 & E).
        exists st2; split; [eapply M_Star_cons; eassumption | exact E].
      * exists st; split; [apply M_Star_nil | exact H].
  - apply IHa in H as (st1 & M1 & H).
    exists (close_group st st1); split; [now constructor | exact H].
  - destruct (at_boundary db st) eqn:E; [|discriminate].
    exists st; split; [now constructor | exact H].
Qed.

Lemma Matches_lang_u r st st' :
  Matches r st st' -> exists w, rest st = (w ++ rest st')%list /\ lang r w.
Proof.
  induction 1 as [st|p c s' st E Hp|a b st st1 st2 _ IH1 _ IH2|a st st1 _ IH
                  |a st|a st|a st st1 st2 _ IH1 _ _ IH2|a st st1 _ IH|st Hb].
  - exists []; split; [reflexivity | constructor].
  - exists [c]; split; [exact E | now constructor].
  - destruct IH1 as (w1 & E1 & L1), IH2 as (w2 & E2 & L2).
    exists (w1 ++ w2)%list; split; [|now constructor].
    now rewrite E1, E2, app_assoc.
  - destruct IH as (w & E & L). exists w; split; [exact E | now apply L_Opt_some].
  - exists []; split; [reflexivity | apply L_Opt_none].
  - exists []; split; [reflexivity | apply L_Star_nil].
  - destruct IH1 as (w1 & E1 & L1), IH2 as (w2 & E2 & L2).
    exists (w1 ++ w2)%list; split; [|now apply L_Star_cons].
    now rewrite E1, E2, app_assoc.
  - destruct IH as (w & E & L). exists w; split; [exact E | now constructor].
  - exists []; split; [reflexivity | constructor].
Qed.

Lemma Matches_keeps_group_u r st st' :
  Matches r st st' -> has_group r = false -> grp st' = grp st.
Proof.
  induction 1; simpl; intros G; try reflexivity; try discriminate.
  - apply orb_false_iff in G as [G1 G2].
    now rewrite IHMatches2, IHMatches1.
  - auto.
  - now rewrite IHMatches2, IHMatches1.
Qed.

(** What a group has read is what it gives. *)
Lemma Matches_group_text_u a st st' :
  Matches (Group a) st st' ->
  exists g, grp st' = Some g /\ rest st = (g ++ rest st')%list /\ lang a g.
Proof.
  inversion 1 as [| | | | | | |a' st0 st1 M| ]; subst.
  destruct (Matches_lang_u _ _ _ M) as (w & E & L).
  exists w. split; [|split; [exact E | exact L]].
  unfold close_group, consumed; cbn. rewrite E, length_app.
  replace (List.length w + List.length (rest st1) - List.length (rest st1))
    with (List.length w) by lia.
  now rewrite firstn_app_length.
Qed.

Lemma search_from_sound_u r : forall s prev m,
  search_from r prev s = Some m ->
  exists prev' s', match_at r prev' s' = Some m.
Proof.
  induction s as [|c s IH]; intros prev m H; simpl in H.
  - destruct (match_at r prev []) eqn:E; [|discriminate].
    exists prev, []; congruence.
  - destruct (match_at r prev (c :: s)) eqn:E.
    + exists prev, (c :: s); congruence.
    + eapply IH; eassumption.
Qed.

Lemma search_sound_u r s m :
  search r s = Some m -> exists st, Matches r st m.
Proof.
  intros H. apply search_from_sound_u in H as (prev & s' & H).
  apply exec_sound_u in H as (st' & M & E).
  injection E as <-. eauto.
Qed.

Lemma Matches_Seq_inv_u a b st st2 :
  Matches (Seq a b) st st2 ->
  exists st1, Matches a st st1 /\ Matches b st1 st2.
Proof. inversion 1; subst; eauto. Qed.

Lemma Matches_group_then_u a post st m :
  Matches (Seq (Group a) post) st m -> has_group post = false ->
  exists w, grp m = Some w /\ lang a w.
Proof.
  intros M G. apply Matches_Seq_inv_u in M as (st1 & M1 & M2).
  apply Matches_group_text_u in M1 as (w & E & _ & L).
  exists w; split; [|exact L].
  now rewrite (Matches_keeps_group_u _ _ _ M2 G).
Qed.

Lemma lang_Seq_inv_u a b w :
  lang (Seq a b) w -> exists w1 w2, w = (w1 ++ w2)%list /\ lang a w1 /\ lang b w2.
Proof. inversion 1; subst; eauto. Qed.

Lemma lang_Chr_inv_u p w : lang (Chr p) w -> exists c, w = [c] /\ p c = true.
Proof. inversion 1; subst; eauto. Qed.

Lemma lang_Opt_inv_u a w : lang (Opt a) w -> w = [] \/ lang a w.
Proof. inversion 1; subst; auto. Qed.

Lemma lang_Eps_inv_u w : lang Eps w -> w = [].
Proof. inversion 1; reflexivity. Qed.

Lemma all_chars_app_u p (a b : text) :
  all_chars p (a ++ b)%list = all_chars p a && all_chars p b.
Proof. apply forallb_app. Qed.

Lemma lang_Times_Chr_u p n : forall w,
  lang (Times n (Chr p)) w -> List.length w = n /\ all_chars p w = true.
Proof.
  induction n as [|n IH]; intros w L; simpl in L.
  - apply lang_Eps_inv_u in L as ->. now split.
  - apply lang_Seq_inv_u in L as (w1 & w2 & -> & L1 & L2).
    apply lang_Chr_inv_u in L1 as (c & -> & Hc).
    apply IH in L2 as [E A]. unfold all_chars in *. cbn. now rewrite E, Hc, A.
Qed.

Lemma lang_UpTo_Chr_u p k : forall w,
  lang (UpTo k (Chr p)) w -> List.length w <= k /\ all_chars p w = true.
Proof.
  induction k as [|k IH]; intros w L; cbn [UpTo] in L.
  - apply lang_Eps_inv_u in L as ->. cbn. split; [lia | reflexivity].
  - apply lang_Opt_inv_u in L as [->|L]; [cbn; split; [lia | reflexivity]|].
    apply lang_Seq_inv_u in L as (w1 & w2 & -> & L1 & L2).
    apply lang_Chr_inv_u in L1 as (c & -> & Hc). apply IH in L2 as [Len A].
    unfold all_chars in *. cbn. rewrite Hc. cbn. split; [lia | exact A].
Qed.

Lemma lang_Star_Chr_u p w : lang (Star (Chr p)) w -> all_chars p w = true.
Proof.
  intros L. remember (Star (Chr p)) as r eqn:Er.
  induction L; try discriminate; [reflexivity|].
  injection Er as ->.
  apply lang_Chr_inv_u in L1 as (c & -> & Hc).
  unfold all_chars in *. cbn. rewrite Hc. now apply IHL2.
Qed.

Lemma lang_Plus_Chr_u p w :
  lang (Plus (Chr p)) w -> all_chars p w = true /\ w <> [].
Proof.
  intros L. apply lang_Seq_inv_u in L as (w1 & w2 & -> & L1 & L2).
  apply lang_Chr_inv_u in L1 as (c & -> & Hc).
  apply lang_Star_Chr_u in L2. unfold all_chars in *. cbn. rewrite Hc, L2. now split.
Qed.

Lemma all_chars_lstrip_u p s :
  all_chars p s = true -> all_chars p (lstrip db s) = true.
Proof.
  unfold all_chars. induction s as [|c s IH]; cbn; [auto|].
  intros H. apply andb_true_iff in H as [Hc Hs].
  destruct (isspace db c); [auto | cbn; now rewrite Hc, Hs].
Qed.

Lemma all_chars_rstrip_u p s :
  all_chars p s = true -> all_chars p (rstrip db s) = true.
Proof.
  unfold all_chars. induction s as [|c s IH]; cbn [rstrip]; [auto|].
  intros H. cbn in H. apply andb_true_iff in H as [Hc Hs]. specialize (IH Hs).
  destruct (rstrip db s) as [|d t].
  - destruct (isspace db c); cbn; [reflexivity | now rewrite Hc].
  - change (forallb p (c :: d :: t)) with (p c && forallb p (d :: t)).
    now rewrite Hc, IH.
Qed.

Lemma first_char_lstrip_u s c :
  first_char (lstrip db s) = Some c -> isspace db c = false.
Proof.
  induction s as [|d s IH]; cbn; [discriminate|].
  destruct (isspace db d) eqn:E; [exact IH|].
  cbn. intros [= <-]. exact E.
Qed.

Lemma first_char_rstrip_u s c :
  first_char (rstrip db s) = Some c -> first_char s = Some c.
Proof.
  destruct s as [|d s]; cbn [rstrip]; [discriminate|].
  destruct (rstrip db s); [destruct (isspace db d)|]; cbn; intros H;
    congruence || discriminate.
Qed.

Lemma last_char_rstrip_u s c :
  last_char (rstrip db s) = Some c -> isspace db c = false.
Proof.
  induction s as [|d s IH]; cbn [rstrip]; [discriminate|].
  destruct (rstrip db s) as [|e t].
  - destruct (isspace db d) eqn:E; cbn; [discriminate|].
    intros [= <-]. exact E.
  - intros H. apply IH. exact H.
Qed.

Lemma strip_trimmed_u s : trimmed db (strip db s).
Proof.
  unfold strip. split; intros c H.
  - apply first_char_rstrip_u in H. now apply first_char_lstrip_u in H.
  - now apply last_char_rstrip_u in H.
Qed.

Lemma zip_group_shaped_u m st :
  Matches (ZIP_RE db) st m -> zip_shaped db (group1 m).
Proof.
  unfold ZIP_RE. intros M.
  apply Matches_Seq_inv_u in M as (st1 & _ & M).
  apply Matches_group_then_u in M as (w & E & L); [|reflexivity].
  unfold group1; rewrite E.
  apply lang_Seq_inv_u in L as (a & t & -> & La & Lt).
  apply lang_Times_Chr_u in La.
  apply lang_Opt_inv_u in Lt as [->|Lt].
  - left. now rewrite app_nil_r.
  - right. apply lang_Seq_inv_u in Lt as (d & b & -> & Ld & Lb).
    apply lang_Chr_inv_u in Ld as (c & -> & Hc).
    apply lang_Times_Chr_u in Lb.
    unfold is_char in Hc. apply N.eqb_eq in Hc as <-.
    exists a, b. now repeat split.
Qed.

Lemma zip_shaped_nonempty_u w : zip_shaped db w -> w <> [].
Proof.
  intros [[L _]|(a & b & [L _] & _ & ->)]; intros E.
  - now rewrite E in L.
  - destruct a; [discriminate L | discriminate E].
Qed.

Lemma strip_city_shaped_u w :
  all_chars (cls_city db) w = true -> city_shaped db (strip db w).
Proof.
  intros A. split; [|apply strip_trimmed_u].
  unfold strip. now apply all_chars_rstrip_u, all_chars_lstrip_u.
Qed.

Lemma city1_group_u m st :
  Matches (CITY_RE_1 db) st m -> all_chars (cls_city db) (group1 m) = true.
Proof.
  unfold CITY_RE_1. intros M.
  apply Matches_Seq_inv_u in M as (st1 & _ & M).
  apply Matches_Seq_inv_u in M as (st2 & _ & M).
  apply Matches_group_then_u in M as (w & E & L); [|reflexivity].
  unfold group1; rewrite E. now apply lang_Plus_Chr_u in L.
Qed.

Lemma city2_group_u m st :
  Matches (CITY_RE_2 db) st m -> all_chars (cls_city db) (group1 m) = true.
Proof.
  unfold CITY_RE_2. intros M.
  apply Matches_Seq_inv_u in M as (st1 & _ & M).
  apply Matches_Seq_inv_u in M as (st2 & _ & M).
  apply Matches_group_then_u in M as (w & E & L); [|reflexivity].
  unfold group1; rewrite E. now apply lang_Plus_Chr_u in L.
Qed.

Lemma city_shaped_empty_u : city_shaped db [].
Proof. split; [reflexivity|]. split; intros c H; discriminate. Qed.

Lemma extract_zip_shaped_u s :
  extract_zip db s = [] \/ zip_shaped db (extract_zip db s).
Proof.
  unfold extract_zip. destruct (search (ZIP_RE db) s) as [m|] eqn:E; [right | now left].
  apply search_sound_u in E as (st & M). eapply zip_group_shaped_u; eassumption.
Qed.

Lemma extract_zip_empty_u s :
  search (ZIP_RE db) s = None <-> extract_zip db s = [].
Proof.
  unfold extract_zip. destruct (search (ZIP_RE db) s) as [m|] eqn:E; [|tauto].
  split; [discriminate|]. intros H. exfalso.
  apply search_sound_u in E as (st & M).
  apply zip_group_shaped_u in M. rewrite H in M.
  now apply zip_shaped_nonempty_u in M.
Qed.

Lemma extract_city_shaped_u s : city_shaped db (extract_city_from_address db s).
Proof.
  unfold extract_city_from_address.
  destruct (is_empty s); [apply city_shaped_empty_u|].
  destruct (search (CITY_RE_1 db) s) as [m|] eqn:E1.
  - apply search_sound_u in E1 as (st & M).
    apply strip_city_shaped_u. eapply city1_group_u; eassumption.
  - destruct (search (CITY_RE_2 db) s) as [m|] eqn:E2; [|apply city_shaped_empty_u].
    apply search_sound_u in E2 as (st & M).
    apply strip_city_shaped_u. eapply city2_group_u; eassumption.
Qed.

End WideMatcher.

(** ** The matcher on strings is the matcher on texts, below 256 *)

Section BelowTwoFiveSix.

Variable db : Uni.unicode.

Lemma N_of_ascii_below c : (N_of_ascii c <? 256)%N = true.
Proof. apply N.ltb_lt. apply N_ascii_bounded. Qed.

Lemma class_below table wide c : Uni.class table wide (N_of_ascii c) = table c.
Proof. unfold Uni.class. now rewrite N_of_ascii_below, ascii_N_embedding. Qed.

Lemma is_char_below a c : Uni.is_char a (N_of_ascii c) = is_char a c.
Proof.
  unfold Uni.is_char, is_char.
  destruct (Ascii.eqb_spec a c) as [->|N]; [apply N.eqb_refl|].
  apply N.eqb_neq. intros E. apply N.
  now rewrite <- (ascii_N_embedding a), <- (ascii_N_embedding c), E.
Qed.

Lemma of_string_length s : List.length (Uni.of_string s) = String.length s.
Proof. induction s as [|c s IH]; cbn; [reflexivity | now rewrite IH]. Qed.

Lemma of_string_append a b :
  Uni.of_string (a ++ b) = (Uni.of_string a ++ Uni.of_string b)%list.
Proof. induction a as [|c a IH]; cbn; [reflexivity | now rewrite IH]. Qed.

Lemma of_string_substring n : forall s,
  Uni.of_string (substring 0 n s) = firstn n (Uni.of_string s).
Proof.
  induction n as [|n IH]; intros [|c s]; cbn; try reflexivity.
  now rewrite IH.
Qed.

Lemma of_string_inj : forall a b, Uni.of_string a = Uni.of_string b -> a = b.
Proof.
  induction a as [|x a IH]; intros [|y b] E; cbn in E; try discriminate;
    [reflexivity|].
  injection E as Ex E. f_equal; [|now apply IH].
  now rewrite <- (ascii_N_embedding x), <- (ascii_N_embedding y), Ex.
Qed.

Lemma emb_advance c s' st :
  Uni.advance (N_of_ascii c) (Uni.of_string s') (emb st) = emb (advance c s' st).
Proof. reflexivity. Qed.

Lemma emb_close_group st st' :
  Uni.close_group (emb st) (emb st') = emb (close_group st st').
Proof.
  unfold Uni.close_group, close_group, emb, Uni.consumed, consumed. cbn.
  now rewrite !of_string_length, of_string_substring.
Qed.

Lemma emb_at_boundary st : Uni.at_boundary db (emb st) = at_boundary st.
Proof.
  unfold Uni.at_boundary, at_boundary, emb. cbn. f_equal.
  - destruct (before st); cbn; [apply class_below | reflexivity].
  - destruct (rest st); cbn; [reflexivity | apply class_below].
Qed.

Lemma star_loop_below body body' k k' :
  (forall st k k',
      (forall st0, k' (emb st0) = option_map emb (k st0)) ->
      body' (emb st) k' = option_map emb (body st k)) ->
  (forall st0, k' (emb st0) = option_map emb (k st0)) ->
  forall fuel st,
    Uni.star_loop body' k' fuel (emb st) = option_map emb (star_loop body k fuel st).
Proof.
  intros Hbody Hk. induction fuel as [|fuel IH]; intros st;
    cbn [Uni.star_loop star_loop]; [apply Hk|].
  rewrite (Hbody st
             (fun st' => if String.length (rest st') <? String.length (rest st)
                         then star_loop body k fuel st' else None)).
  - destruct (body st _); cbn; [reflexivity | apply Hk].
  - intros st0. cbn [emb Uni.rest]. rewrite !of_string_length.
    destruct (_ <? _); [apply IH | reflexivity].
Qed.

(** The two matchers go the same way on a text of code points below 256. *)
Lemma exec_below r r' :
  same_pattern r r' ->
  forall st k k',
    (forall st0, k' (emb st0) = option_map emb (k st0)) ->
    Uni.exec db r' (emb st) k' = option_map emb (exec r st k).
Proof.
  induction 1 as [|p q Hq|a a' b b' _ IHa _ IHb|a a' _ IHa|a a' _ IHa|a a' _ IHa|];
    intros st k k' Hk; cbn [Uni.exec exec].
  - apply Hk.
  - cbn [emb Uni.rest]. destruct (rest st) as [|c s'] eqn:E; cbn [Uni.of_string];
      [reflexivity|].
    rewrite Hq. destruct (p c); [|reflexivity].
    rewrite emb_advance. apply Hk.
  - apply IHa. intros st0. now apply IHb.
  - rewrite (IHa st k k' Hk). destruct (exec a st k); cbn; [reflexivity | apply Hk].
  - cbn [emb Uni.rest]. rewrite of_string_length.
    apply (star_loop_below (exec a) (Uni.exec db a')); [|exact Hk].
    intros st1 k1 k1' H1. now apply IHa.
  - apply IHa. intros st0. rewrite emb_close_group. apply Hk.
  - rewrite emb_at_boundary. destruct (at_boundary st); [apply Hk | reflexivity].
Qed.

Lemma search_from_below r r' :
  same_pattern r r' ->
  forall s prev,
    Uni.search_from db r' (option_map N_of_ascii prev) (Uni.of_string s) =
    option_map emb (search_from r prev s).
Proof.
  intros S. induction s as [|c s IH]; intros prev;
    cbn [Uni.search_from search_from Uni.of_string];
    unfold Uni.match_at, match_at.
  - change (Uni.MState (option_map N_of_ascii prev) [] None)
      with (emb (MState prev "" None)).
    rewrite (exec_below r r' S _ Some Some) by reflexivity.
    now destruct (exec r _ Some).
  - change (Uni.MState (option_map N_of_ascii prev)
              (N_of_ascii c :: Uni.of_string s) None)
      with (emb (MState prev (String c s) None)).
    rewrite (exec_below r r' S _ Some Some) by reflexivity.
    destruct (exec r _ Some); [reflexivity|]. apply (IH (Some c)).
Qed.

Lemma same_pattern_Lit s : same_pattern (Lit s) (Uni.Lit s).
Proof.
  induction s as [|c s IH]; cbn; [constructor|].
  constructor; [|exact IH]. constructor. intros d. apply is_char_below.
Qed.

Lemma same_pattern_ZIP : same_pattern ZIP_RE (Uni.ZIP_RE db).
Proof.
  unfold ZIP_RE, Uni.ZIP_RE. repeat constructor;
    intros c; first [apply is_char_below | apply class_below].
Qed.

Lemma cls_city_below c : Uni.cls_city db (N_of_ascii c) = cls_city c.
Proof.
  unfold Uni.cls_city, cls_city, Uni.is_alpha_az, Uni.isspace.
  now rewrite !class_below.
Qed.

Lemma same_pattern_CITY_1 : same_pattern CITY_RE_1 (Uni.CITY_RE_1 db).
Proof.
  unfold CITY_RE_1, Uni.CITY_RE_1, Plus, Uni.Plus.
  repeat first [apply same_pattern_Lit | constructor];
    intros c; first [apply is_char_below | apply cls_city_below | apply class_below].
Qed.

Lemma same_pattern_CITY_2 : same_pattern CITY_RE_2 (Uni.CITY_RE_2 db).
Proof.
  unfold CITY_RE_2, Uni.CITY_RE_2, Plus, Uni.Plus.
  repeat first [apply same_pattern_Lit | constructor];
    intros c; first [apply is_char_below | apply cls_city_below | apply class_below].
Qed.

Lemma lstrip_below s :
  Uni.lstrip db (Uni.of_string s) = Uni.of_string (lstrip s).
Proof.
  induction s as [|c s IH]; cbn [Uni.lstrip lstrip Uni.of_string]; [reflexivity|].
  unfold Uni.isspace. rewrite class_below. now destruct (isspace c).
Qed.

Lemma rstrip_below s :
  Uni.rstrip db (Uni.of_string s) = Uni.of_string (rstrip s).
Proof.
  induction s as [|c s IH]; cbn [Uni.rstrip rstrip Uni.of_string]; [reflexivity|].
  rewrite IH. unfold Uni.isspace. rewrite class_below.
  destruct (rstrip s); cbn [Uni.of_string]; [now destruct (isspace c) | reflexivity].
Qed.

Lemma strip_below s : Uni.strip db (Uni.of_string s) = Uni.of_string (strip s).
Proof. unfold Uni.strip, strip. now rewrite lstrip_below, rstrip_below. Qed.

Lemma group1_below m : Uni.group1 (emb m) = Uni.of_string (group1 m).
Proof. unfold Uni.group1, group1, emb. cbn. now destruct (grp m). Qed.

(** On an address of code points below 256 the extractors on texts give
    what the extractors on strings give. *)
Lemma extract_zip_below s :
  Uni.extract_zip db (Uni.of_string s) = Uni.of_string (extract_zip s).
Proof.
  unfold Uni.extract_zip, extract_zip, Uni.search, search.
  pose proof (search_from_below _ _ same_pattern_ZIP s None) as H.
  cbn [option_map] in H. rewrite H.
  destruct (search_from ZIP_RE None s); cbn; [apply group1_below | reflexivity].
Qed.

Lemma extract_city_below s :
  Uni.extract_city_from_address db (Uni.of_string s) =
  Uni.of_string (extract_city_from_address s).
Proof.
  unfold Uni.extract_city_from_address, extract_city_from_address,
    Uni.search, search.
  destruct s as [|c s]; [reflexivity|].
  cbn [Uni.is_empty Uni.of_string is_empty].
  change (N_of_ascii c :: Uni.of_string s) with (Uni.of_string (String c s)).
  pose proof (search_from_below _ _ same_pattern_CITY_1 (String c s) None) as H1.
  pose proof (search_from_below _ _ same_pattern_CITY_2 (String c s) None) as H2.
  cbn [option_map] in H1, H2. rewrite H1.
  destruct (search_from CITY_RE_1 None (String c s)); cbn [option_map].
  - now rewrite group1_below, strip_below.
  - rewrite H2.
    destruct (search_from CITY_RE_2 None (String c s)); cbn [option_map];
      [now rewrite group1_below, strip_below | reflexivity].
Qed.

End BelowTwoFiveSix.

(** C9: [extract_city_from_address] and [extract_zip] are total functions
    on texts of arbitrary code points, whatever the Unicode database says
    of the code points from 256 on (no input makes them fail).  When no
    pattern matches, the result is the empty text; whatever they return is
    a whole capture, stripped in the case of the city: the ZIP is empty,
    and then only for want of a match, or is five decimal digits, or five,
    a dash and four, a decimal digit being what [\d] takes for one; the
    city is made of the letters A-Z, a-z and white space and is trimmed at
    both ends.  On an address of code points below 256 they give what the
    extractors on strings give, and on "123 Main St, Oakland, CA 94607"
    they return "Oakland" and "94607". *)
Theorem C9_extractors_never_fail :
  forall db : Uni.unicode,
    (forall s : Uni.text,
        (Uni.search db (Uni.ZIP_RE db) s = None <-> Uni.extract_zip db s = []) /\
        (Uni.extract_zip db s = [] \/ Uni.zip_shaped db (Uni.extract_zip db s))) /\
    (forall s : Uni.text,
        (Uni.search db (Uni.CITY_RE_1 db) s = None ->
         Uni.search db (Uni.CITY_RE_2 db) s = None ->
         Uni.extract_city_from_address db s = []) /\
        Uni.city_shaped db (Uni.extract_city_from_address db s)) /\
    (forall s : string,
        Uni.extract_zip db (Uni.of_string s) = Uni.of_string (extract_zip s) /\
        Uni.extract_city_from_address db (Uni.of_string s) =
        Uni.of_string (extract_city_from_address s)) /\
    (extract_city_from_address "123 Main St, Oakland, CA 94607" = "Oakland" /\
     extract_zip "123 Main St, Oakland, CA 94607" = "94607") /\
    Uni.extract_city_from_address db (Uni.of_string "123 Main St, Oakland, CA 94607")
      = Uni.of_string "Oakland" /\
    Uni.extract_zip db (Uni.of_string "123 Main St, Oakland, CA 94607")
      = Uni.of_string "94607".
Proof.
  intros db. split; [|split; [|split; [|split; [|split]]]].
  - intros s. split; [apply extract_zip_empty_u | apply extract_zip_shaped_u].
  - intros s. split; [|apply extract_city_shaped_u].
    intros H1 H2. unfold Uni.extract_city_from_address.
    rewrite H1, H2. now destruct (Uni.is_empty s).
  - intros s. split; [apply extract_zip_below | apply extract_city_below].
  - split; vm_compute; reflexivity.
  - rewrite extract_city_below. vm_compute. reflexivity.
  - rewrite extract_zip_below. vm_compute. reflexivity.
Qed.

Lemma C9_extractors_never_fail_witness :
  Uni.extract_zip arabic_indic (Uni.of_string "PO Box 12, Oakland") = [] /\
  Uni.zip_shaped arabic_indic
    (Uni.extract_zip arabic_indic
       (Uni.of_string "Oakland, CA " ++ [1641; 1636; 1638; 1632; 1639])%N%list).
Proof.
  destruct (C9_extractors_never_fail arabic_indic) as (Hz & _).
  split.
  - apply (proj1 (Hz (Uni.of_string "PO Box 12, Oakland"))). vm_compute. reflexivity.
  - destruct (proj2 (Hz (Uni.of_string "Oakland, CA " ++ [1641; 1636; 1638; 1632; 1639])%N%list))
      as [E|Z]; [|exact Z].
    vm_compute in E. discriminate E.
Defined.

(** ** The identity key *)

Section IdentityKey.

Lemma succ_minus_self (n : nat) : S n - n = 1.
Proof. lia. Qed.

Lemma sub_from_Chr p : forall s prev,
  sub_from (Chr p) "" prev s 0 = filter_chars (fun c => negb (p c)) s.
Proof.
  induction s as [|c s IH]; intros prev; [reflexivity|].
  cbn [sub_from match_at exec rest filter_chars].
  destruct (p c) eqn:Ep; cbn [negb].
  - cbn [advance rest String.length]. rewrite succ_minus_self.
    cbn [append]. apply IH.
  - now rewrite IH.
Qed.

Lemma normalize_filter s :
  normalize s = filter_chars (fun c => is_lower_az c || is_digit c) (lower s).
Proof.
  unfold normalize, sub. rewrite sub_from_Chr.
  induction (lower s) as [|c t IH]; [reflexivity|].
  cbn [filter_chars]. unfold not_az09 at 1. rewrite negb_involutive, IH.
  reflexivity.
Qed.

Lemma agree_refl s : agree s s.
Proof. induction s; [constructor | now apply agree_char]. Qed.

Lemma agree_sym s t : agree s t -> agree t s.
Proof.
  induction 1 as [|c s t Hc _ IH|c s t Hc _ IH|c d s t Hcd _ IH].
  - constructor.
  - now apply agree_skip_r.
  - now apply agree_skip_l.
  - now apply agree_char.
Qed.

Lemma agree_normalize s t : agree s t -> normalize s = normalize t.
Proof.
  rewrite !normalize_filter.
  induction 1 as [|c s t Hc _ IH|c s t Hc _ IH|c d s t Hcd _ IH];
    cbn [lower filter_chars].
  - reflexivity.
  - unfold not_az09 in Hc. apply negb_true_iff in Hc. now rewrite Hc.
  - unfold not_az09 in Hc. apply negb_true_iff in Hc. now rewrite Hc.
  - now rewrite Hcd, IH.
Qed.

Lemma no_underscore_filter s :
  all_chars (fun c => negb (is_char "_" c))
    (filter_chars (fun c => is_lower_az c || is_digit c) s) = true.
Proof.
  induction s as [|c s IH]; [reflexivity|].
  cbn [filter_chars]. destruct (is_lower_az c || is_digit c) eqn:E; [|exact IH].
  cbn [all_chars]. rewrite IH, andb_true_r.
  unfold is_char. destruct (Ascii.eqb_spec "_" c) as [<-|]; [discriminate E | reflexivity].
Qed.

Lemma split_at_underscore a : forall a' b b',
  all_chars (fun c => negb (is_char "_" c)) a = true ->
  all_chars (fun c => negb (is_char "_" c)) a' = true ->
  a ++ "_" ++ b = a' ++ "_" ++ b' -> a = a' /\ b = b'.
Proof.
  induction a as [|x a IH]; intros [|x' a'] b b' Ha Ha' E; cbn in *.
  - injection E as ->. now split.
  - injection E as <- _. discriminate Ha'.
  - injection E as -> _. discriminate Ha.
  - injection E as -> E.
    apply andb_true_iff in Ha as [_ Ha]. apply andb_true_iff in Ha' as [_ Ha'].
    destruct (IH _ _ _ Ha Ha' E) as [-> ->]. now split.
Qed.

(** Equal keys mean equal normal forms of both the name and the city. *)
Lemma dedup_key_eq_iff r1 r2 :
  dedup_key r1 = dedup_key r2 <->
  normalize (name r1) = normalize (name r2) /\
  normalize (city r1) = normalize (city r2).
Proof.
  unfold dedup_key. split.
  - intros E. apply split_at_underscore in E; [exact E| |];
      rewrite normalize_filter; apply no_underscore_filter.
  - intros [-> ->]. reflexivity.
Qed.

End IdentityKey.

(** C1: the identity key is a function of [name] and [city] only: it is
    the lowercased name with every character outside a-z, 0-9 removed, an
    underscore, and the city treated the same way.  Changing any of the
    other twelve fields leaves the key as it is, and two records whose
    names and whose cities agree up to case and non-alphanumeric characters
    have the same key. *)
Theorem C1_dedup_key_name_city_only :
  (forall n ci ad st zi ph we em ra rc ca de so su
          ad' st' zi' ph' we' em' ra' rc' ca' de' so' su',
      dedup_key (mkCompany n ad ci st zi ph we em ra rc ca de so su) =
      dedup_key (mkCompany n ad' ci st' zi' ph' we' em' ra' rc' ca' de' so' su')) /\
  (forall r,
      dedup_key r =
      filter_chars (fun c => is_lower_az c || is_digit c) (lower (name r))
      ++ "_" ++
      filter_chars (fun c => is_lower_az c || is_digit c) (lower (city r))) /\
  (forall r1 r2,
      agree (name r1) (name r2) -> agree (city r1) (city r2) ->
      dedup_key r1 = dedup_key r2).
Proof.
  split; [|split].
  - reflexivity.
  - intros r. unfold dedup_key. now rewrite !normalize_filter.
  - intros r1 r2 Hn Hc. apply dedup_key_eq_iff.
    split; now apply agree_normalize.
Qed.

Lemma C1_dedup_key_name_city_only_witness :
  dedup_key (mkCompany "Acme Insurance" "" "Oakland" "CA" "" "555-1111" "" ""
               "" "" "" "" "A" "") =
  dedup_key (mkCompany "ACME INSURANCE." "1 Main St" "oakland " "CA" ""
               "" "http://acme.test" "" "" "" "" "" "B" "http://b.test").
Proof.
  apply (proj2 (proj2 C1_dedup_key_name_city_only)); cbn [name city].
  - repeat (apply agree_char; [reflexivity|]).
    repeat first [apply agree_nil | apply agree_skip_r; [reflexivity|]].
  - repeat first [apply agree_nil
                 | apply agree_char; [reflexivity|]
                 | apply agree_skip_r; [reflexivity|]].
Defined.

(** ** The dict [seen] *)

Section DictFacts.

Context {V : Type}.
Implicit Types (d : dict V) (v : V).

Lemma dict_get_None k d : dict_get k d = None <-> ~ In k (map fst d).
Proof.
  induction d as [|[k' v'] d IH]; cbn; [tauto|].
  destruct (String.eqb_spec k k') as [->|N].
  - split; [discriminate | intros H; exfalso; apply H; now left].
  - rewrite IH. split; [intros H [E|I]; [congruence | tauto] | tauto].
Qed.

Lemma dict_get_In k v d : dict_get k d = Some v -> In (k, v) d.
Proof.
  induction d as [|[k' v'] d IH]; cbn; [discriminate|].
  destruct (String.eqb_spec k k') as [->|N].
  - intros [= ->]. now left.
  - intros H. right. now apply IH.
Qed.

Lemma In_dict_get k v d : NoDup (map fst d) -> In (k, v) d -> dict_get k d = Some v.
Proof.
  induction d as [|[k' v'] d IH]; cbn; [tauto|].
  intros ND [E|I].
  - injection E as -> ->. now rewrite String.eqb_refl.
  - inversion ND as [|? ? NI ND']; subst.
    destruct (String.eqb_spec k k') as [->|N]; [|now apply IH].
    exfalso. apply NI. change k' with (fst (k', v)). now apply in_map.
Qed.

Lemma dict_set_absent k v d : dict_get k d = None -> dict_set k v d = (d ++ [(k, v)])%list.
Proof.
  induction d as [|[k' v'] d IH]; cbn; [reflexivity|].
  destruct (String.eqb k k'); [discriminate|].
  intros H. now rewrite IH.
Qed.

Lemma dict_set_keys k v v0 d :
  dict_get k d = Some v0 -> map fst (dict_set k v d) = map fst d.
Proof.
  induction d as [|[k' v'] d IH]; cbn; [discriminate|].
  destruct (String.eqb k k'); [reflexivity|].
  intros H. cbn. now rewrite IH.
Qed.

Lemma dict_get_set k v d : dict_get k (dict_set k v d) = Some v.
Proof.
  induction d as [|[k' v'] d IH]; cbn.
  - now rewrite String.eqb_refl.
  - destruct (String.eqb_spec k k') as [->|N]; cbn.
    + now rewrite String.eqb_refl.
    + destruct (String.eqb_spec k k'); [contradiction | exact IH].
Qed.

Lemma In_dict_set k v d k' v' :
  NoDup (map fst d) -> In (k', v') (dict_set k v d) ->
  (k' = k /\ v' = v) \/ (k' <> k /\ In (k', v') d).
Proof.
  induction d as [|[k0 v0] d IH]; cbn.
  - intros _ [[= <- <-]|[]]. now left.
  - intros ND. inversion ND as [|? ? NI ND']; subst.
    destruct (String.eqb_spec k k0) as [->|N]; cbn.
    + intros [[= <- <-]|I]; [now left|].
      right. split; [|now right].
      intros ->. apply NI. change k0 with (fst (k0, v')). now apply in_map.
    + intros [[= <- <-]|I].
      * right. split; [congruence | now left].
      * destruct (IH ND' I) as [?|[? ?]]; [now left | right; split; auto].
Qed.

End DictFacts.

(** ** Merging one record into another *)

Section MergeFacts.

Lemma frame_setattr c f v : frame (setattr c f v) = frame c.
Proof. destruct c, f; reflexivity. Qed.

Lemma source_setattr c f v : source (setattr c f v) = source c.
Proof. destruct c, f; reflexivity. Qed.

Lemma frame_set_source c v : frame (set_source c v) = frame c.
Proof. destruct c; reflexivity. Qed.

Lemma source_set_source c v : source (set_source c v) = v.
Proof. destruct c; reflexivity. Qed.

Lemma getattr_set_source c v f : getattr (set_source c v) f = getattr c f.
Proof. destruct c, f; reflexivity. Qed.

Lemma getattr_setattr_same c f v : getattr (setattr c f v) f = v.
Proof. destruct c, f; reflexivity. Qed.

Lemma getattr_setattr_other c f g v :
  f <> g -> getattr (setattr c g v) f = getattr c f.
Proof. destruct c, f, g; intros N; reflexivity || contradiction. Qed.

Lemma is_empty_true s : is_empty s = true -> s = "".
Proof. destruct s; [reflexivity | discriminate]. Qed.

Lemma is_empty_false s : is_empty s = false <-> s <> "".
Proof. destruct s; cbn; split; congruence. Qed.

Lemma frame_merge_field c ex f : frame (merge_field c ex f) = frame ex.
Proof.
  unfold merge_field. destruct (_ && _); [apply frame_setattr | reflexivity].
Qed.

Lemma source_merge_field c ex f : source (merge_field c ex f) = source ex.
Proof.
  unfold merge_field. destruct (_ && _); [apply source_setattr | reflexivity].
Qed.

Lemma getattr_merge_field_same c ex f :
  getattr (merge_field c ex f) f = pick (getattr ex f) (getattr c f).
Proof.
  unfold merge_field, pick.
  destruct (is_empty (getattr ex f)) eqn:E1; cbn [andb].
  - destruct (is_empty (getattr c f)) eqn:E2; cbn [negb].
    + apply is_empty_true in E1, E2. congruence.
    + apply getattr_setattr_same.
  - reflexivity.
Qed.

Lemma getattr_merge_field_other c ex f g :
  f <> g -> getattr (merge_field c ex g) f = getattr ex f.
Proof.
  intros N. unfold merge_field.
  destruct (_ && _); [now apply getattr_setattr_other | reflexivity].
Qed.

Lemma frame_fold_merge c fs : forall ex,
  frame (fold_left (fun ex fld => merge_field c ex fld) fs ex) = frame ex.
Proof.
  induction fs as [|f fs IH]; intros ex; cbn [fold_left]; [reflexivity|].
  now rewrite IH, frame_merge_field.
Qed.

Lemma source_fold_merge c fs : forall ex,
  source (fold_left (fun ex fld => merge_field c ex fld) fs ex) = source ex.
Proof.
  induction fs as [|f fs IH]; intros ex; cbn [fold_left]; [reflexivity|].
  now rewrite IH, source_merge_field.
Qed.

Lemma getattr_merge_fields c ex f :
  getattr (merge_fields c ex) f = pick (getattr ex f) (getattr c f).
Proof.
  unfold merge_fields, MERGE_FIELDS. cbn [fold_left].
  destruct f;
    repeat first
      [ rewrite getattr_merge_field_same
      | rewrite getattr_merge_field_other by discriminate ];
    reflexivity.
Qed.

Lemma frame_merge_into ex c : frame (merge_into ex c) = frame ex.
Proof.
  unfold merge_into. destruct (negb _).
  - now rewrite frame_set_source, frame_fold_merge.
  - apply frame_fold_merge.
Qed.

Lemma getattr_merge_into ex c f :
  getattr (merge_into ex c) f = pick (getattr ex f) (getattr c f).
Proof.
  unfold merge_into. fold (merge_fields c ex).
  destruct (negb _); [rewrite getattr_set_source|]; apply getattr_merge_fields.
Qed.

Lemma source_merge_into ex c :
  source (merge_into ex c) =
  if str_in (source c) (source ex) then source ex
  else source ex ++ ", " ++ source c.
Proof.
  unfold merge_into. rewrite source_fold_merge.
  destruct (str_in (source c) (source ex)); cbn [negb].
  - apply source_fold_merge.
  - apply source_set_source.
Qed.

Lemma quad_eq {A B C D : Type} (a a' : A) (b b' : B) (c c' : C) (d d' : D) :
  (a, b, c, d) = (a', b', c', d') -> a = a' /\ b = b' /\ c = c' /\ d = d'.
Proof. intros [= -> -> -> ->]. auto. Qed.

Lemma frame_eq a b :
  frame a = frame b ->
  name a = name b /\ city a = city b /\ state a = state b /\
  source_url a = source_url b.
Proof. unfold frame. apply quad_eq. Qed.

Lemma frame_key a b : frame a = frame b -> dedup_key a = dedup_key b.
Proof. unfold frame, dedup_key. intros [= -> -> _ _]. reflexivity. Qed.

Lemma dedup_key_merge_into ex c : dedup_key (merge_into ex c) = dedup_key ex.
Proof. apply frame_key, frame_merge_into. Qed.

Lemma frame_fold_merge_into g : forall x,
  frame (fold_left merge_into g x) = frame x.
Proof.
  induction g as [|y g IH]; intros x; cbn [fold_left]; [reflexivity|].
  now rewrite IH, frame_merge_into.
Qed.

Lemma first_nonempty_pick a b vs :
  first_nonempty (pick a b :: vs) = first_nonempty (a :: b :: vs).
Proof.
  unfold pick. cbn [first_nonempty].
  destruct (is_empty a) eqn:E; [reflexivity | now rewrite E].
Qed.

Lemma first_nonempty_single a : first_nonempty [a] = a.
Proof. cbn. destruct a; reflexivity. Qed.

Lemma getattr_fold_merge_into f g : forall x,
  getattr (fold_left merge_into g x) f =
  first_nonempty (map (fun y => getattr y f) (x :: g)).
Proof.
  induction g as [|y g IH]; intros x; cbn [fold_left map].
  - now rewrite first_nonempty_single.
  - rewrite IH. cbn [map]. rewrite getattr_merge_into.
    apply first_nonempty_pick.
Qed.

Lemma first_nonempty_In vs : first_nonempty vs = "" \/ In (first_nonempty vs) vs.
Proof.
  induction vs as [|v vs IH]; cbn; [now left|].
  destruct (is_empty v); [destruct IH; auto | auto].
Qed.

Lemma first_nonempty_some vs v :
  In v vs -> v <> "" -> first_nonempty vs <> "".
Proof.
  induction vs as [|w vs IH]; cbn; [tauto|].
  intros [->|I] N.
  - pose proof (proj2 (is_empty_false v) N) as E. now rewrite E.
  - destruct (is_empty w) eqn:E; [now apply IH | now apply is_empty_false].
Qed.

End MergeFacts.

(** ** The loop of [deduplicate] *)

Section DedupLoop.

Lemma NoDup_snoc {A} (l : list A) (a : A) :
  NoDup l -> ~ In a l -> NoDup (l ++ [a])%list.
Proof.
  induction l as [|b l IH]; cbn; intros ND NI.
  - constructor; [tauto | constructor].
  - inversion ND as [|? ? NB ND']; subst. constructor.
    + rewrite in_app_iff. cbn. intros [I|[E|[]]]; [tauto | subst; tauto].
    + apply IH; tauto.
Qed.

Lemma group_snoc k xs x :
  group k (xs ++ [x])%list =
  (group k xs ++ (if String.eqb (dedup_key x) k then [x] else []))%list.
Proof. unfold group. rewrite filter_app. reflexivity. Qed.

Lemma group_nil k xs :
  (forall x, In x xs -> dedup_key x <> k) -> group k xs = [].
Proof.
  induction xs as [|y xs IH]; cbn; intros H; [reflexivity|].
  destruct (String.eqb_spec (dedup_key y) k) as [E|N].
  - exfalso. apply (H y); auto.
  - apply IH. intros x I. apply H. now right.
Qed.

Lemma group_In k xs x : In x (group k xs) -> In x xs /\ dedup_key x = k.
Proof.
  unfold group. rewrite filter_In. intros [I E].
  split; [exact I | now apply String.eqb_eq].
Qed.

Lemma merged_snoc g x r :
  merged g = Some r -> merged (g ++ [x])%list = Some (merge_into r x).
Proof.
  destruct g as [|y g]; cbn; [discriminate|].
  intros [= <-]. now rewrite fold_left_app.
Qed.

Lemma dedup_loop_inv xs : dedup_inv xs (dedup_loop xs).
Proof.
  unfold dedup_loop.
  induction xs as [|x xs IH] using rev_ind.
  - repeat split; cbn; [constructor | tauto | tauto].
  - rewrite fold_left_app. cbn [fold_left].
    set (seen := fold_left dedup_step xs []) in *.
    destruct IH as (ND & Hcov & Hgrp).
    unfold dedup_step.
    destruct (dict_get (dedup_key x) seen) as [e|] eqn:E.
    + pose proof (dict_set_keys _ (merge_into e x) _ _ E) as K.
      repeat split.
      * now rewrite K.
      * intros y Hy. rewrite K. apply in_app_iff in Hy as [Hy|[<-|[]]].
        -- now apply Hcov.
        -- apply dict_get_In in E. change (dedup_key x) with (fst (dedup_key x, e)).
           now apply in_map.
      * intros k r I. apply In_dict_set in I as [[-> ->]|[N I]]; [| |exact ND].
        -- rewrite group_snoc, String.eqb_refl. apply merged_snoc.
           apply Hgrp. now apply dict_get_In.
        -- rewrite group_snoc.
           destruct (String.eqb_spec (dedup_key x) k) as [Ek|_]; [congruence|].
           rewrite app_nil_r. now apply Hgrp.
    + rewrite (dict_set_absent _ _ _ E).
      pose proof (proj1 (dict_get_None _ _) E) as NI.
      repeat split.
      * rewrite map_app. cbn. now apply NoDup_snoc.
      * intros y Hy. rewrite map_app, in_app_iff. cbn.
        apply in_app_iff in Hy as [Hy|[<-|[]]]; [left; now apply Hcov | right; now left].
      * intros k r I. apply in_app_iff in I as [I|[[= <- <-]|[]]].
        -- rewrite group_snoc.
           destruct (String.eqb_spec (dedup_key x) k) as [Ek|_].
           ++ exfalso. apply NI. rewrite Ek.
              change k with (fst (k, r)). now apply in_map.
           ++ rewrite app_nil_r. now apply Hgrp.
        -- rewrite group_snoc, String.eqb_refl.
           rewrite group_nil; [reflexivity|].
           intros y Hy Ey. apply NI. rewrite <- Ey. now apply Hcov.
Qed.

Lemma merged_head g r :
  merged g = Some r -> exists x g', g = x :: g' /\ r = fold_left merge_into g' x.
Proof. destruct g as [|x g]; cbn; [discriminate|]. intros [= <-]. eauto. Qed.

Lemma filter_head_find {A} (p : A -> bool) xs : forall x g,
  filter p xs = x :: g -> find p xs = Some x.
Proof.
  induction xs as [|y xs IH]; cbn; intros x g; [discriminate|].
  destruct (p y); [now intros [= ->] | apply IH].
Qed.

(** The record kept under key [k]: its group starts with the first record
    of that key, whose untouched fields it still has. *)
Lemma entry_spec xs k r :
  In (k, r) (dedup_loop xs) ->
  exists x g, group k xs = x :: g /\ r = fold_left merge_into g x /\
              dedup_key x = k /\ dedup_key r = k /\ frame r = frame x /\
              find (fun y => String.eqb (dedup_key y) k) xs = Some x.
Proof.
  intros I. destruct (dedup_loop_inv xs) as (_ & _ & Hgrp).
  apply Hgrp, merged_head in I as (x & g & Eg & ->).
  exists x, g.
  assert (Kx : dedup_key x = k).
  { apply (group_In k xs x). rewrite Eg. now left. }
  assert (F : frame (fold_left merge_into g x) = frame x)
    by apply frame_fold_merge_into.
  repeat split; auto.
  - rewrite <- Kx. now apply frame_key.
  - eapply filter_head_find. exact Eg.
Qed.

Lemma In_deduplicate xs r :
  In r (deduplicate xs) <-> In (dedup_key r, r) (dedup_loop xs).
Proof.
  unfold deduplicate, dict_values. fold (dedup_loop xs). split.
  - intros I. apply in_map_iff in I as ([k r'] & E & I). cbn in E. subst r'.
    destruct (entry_spec _ _ _ I) as (_ & _ & _ & _ & _ & K & _).
    now rewrite K.
  - intros I. change r with (snd (dedup_key r, r)). now apply in_map.
Qed.

Lemma deduplicate_keys xs :
  map dedup_key (deduplicate xs) = map fst (dedup_loop xs).
Proof.
  unfold deduplicate, dict_values. fold (dedup_loop xs).
  rewrite map_map. apply map_ext_in. intros [k r] I. cbn.
  now destruct (entry_spec _ _ _ I) as (_ & _ & _ & _ & _ & K & _).
Qed.

Lemma deduplicate_NoDup xs : NoDup (map dedup_key (deduplicate xs)).
Proof. rewrite deduplicate_keys. apply dedup_loop_inv. Qed.

Lemma dedup_loop_distinct ys : forall seen,
  NoDup (map dedup_key ys) ->
  (forall y, In y ys -> ~ In (dedup_key y) (map fst seen)) ->
  fold_left dedup_step ys seen =
  (seen ++ map (fun y => (dedup_key y, y)) ys)%list.
Proof.
  induction ys as [|y ys IH]; intros seen ND Hfresh; cbn [fold_left map].
  - now rewrite app_nil_r.
  - inversion ND as [|? ? NI ND']; subst.
    assert (E : dict_get (dedup_key y) seen = None).
    { apply dict_get_None, Hfresh. now left. }
    unfold dedup_step at 2. rewrite E, (dict_set_absent _ _ _ E).
    rewrite IH; [now rewrite <- app_assoc | exact ND' |].
    intros z Hz. rewrite map_app, in_app_iff. cbn.
    intros [I|[Ez|[]]].
    + apply (Hfresh z); [now right | exact I].
    + apply NI. rewrite Ez. now apply in_map.
Qed.

Lemma deduplicate_distinct ys :
  NoDup (map dedup_key ys) -> deduplicate ys = ys.
Proof.
  intros ND. unfold deduplicate, dict_values.
  rewrite dedup_loop_distinct; [|exact ND|cbn; tauto].
  cbn [app]. rewrite map_map. cbn. apply map_id.
Qed.

Lemma deduplicate_pair a b :
  dedup_key a = dedup_key b -> deduplicate [a; b] = [merge_into a b].
Proof.
  intros K. unfold deduplicate, dict_values. cbn [fold_left].
  assert (E : dedup_step [] a = [(dedup_key a, a)]) by reflexivity.
  rewrite E. unfold dedup_step. rewrite <- K. cbn [dict_get].
  rewrite String.eqb_refl. cbn [dict_set]. rewrite String.eqb_refl.
  reflexivity.
Qed.

End DedupLoop.

(** C3: for every input, every record [x] of it and every mergeable field
    [f], the output has exactly one record with the key of [x]; its value
    of [f] is the first non-empty value of [f] among the records with that
    key, in input order, so it is non-empty as soon as one of them has a
    non-empty value.  In particular, of two records with the same key and
    both with an address, the first one's address is kept. *)
Theorem C3_first_populated_wins :
  (forall (xs : list InsuranceCompany) (x : InsuranceCompany) (f : field),
      In x xs ->
      exists r,
        In r (deduplicate xs) /\
        dedup_key r = dedup_key x /\
        (forall r', In r' (deduplicate xs) -> dedup_key r' = dedup_key x -> r' = r) /\
        getattr r f =
          first_nonempty (map (fun y => getattr y f) (group (dedup_key x) xs)) /\
        ((exists y, In y xs /\ dedup_key y = dedup_key x /\ getattr y f <> "") ->
         getattr r f <> "")) /\
  (forall a b : InsuranceCompany,
      dedup_key a = dedup_key b -> address a <> "" -> address b <> "" ->
      map address (deduplicate [a; b]) = [address a]).
Proof.
  split.
  - intros xs x f Hx.
    destruct (dedup_loop_inv xs) as (ND & Hcov & Hgrp).
    apply Hcov, in_map_iff in Hx as ([k r] & Ek & I). cbn in Ek. subst k.
    destruct (entry_spec _ _ _ I) as (x0 & g & Eg & Er & _ & Kr & _ & _).
    exists r. split; [|split; [|split; [|split]]].
    + apply In_deduplicate. now rewrite Kr.
    + exact Kr.
    + intros r' I' K'. apply In_deduplicate in I'. rewrite K' in I'.
      apply In_dict_get in I, I'; auto. congruence.
    + rewrite Eg, Er. apply getattr_fold_merge_into.
    + intros (y & Hy & Ky & Ny).
      rewrite Er, getattr_fold_merge_into, <- Eg.
      apply first_nonempty_some with (v := getattr y f); [|exact Ny].
      apply in_map_iff. exists y. split; [reflexivity|].
      unfold group. apply filter_In. split; [exact Hy | now apply String.eqb_eq].
  - intros a b K Na Nb. rewrite (deduplicate_pair a b K). cbn [map].
    change (address (merge_into a b)) with (getattr (merge_into a b) f_address).
    rewrite getattr_merge_into. unfold pick. cbn [getattr].
    apply is_empty_false in Na. now rewrite Na.
Qed.

Lemma C3_first_populated_wins_witness :
  let a := mkCompany "Acme" "1 Main St" "Oakland" "CA" "" "" "" "" "" "" "" "" "A" "" in
  let b := mkCompany "ACME" "9 Side Rd" "Oakland" "CA" "" "555-1111" "" "" "" "" "" "" "B" "" in
  (exists r, In r (deduplicate [a; b]) /\ dedup_key r = dedup_key b /\
             getattr r f_phone = "555-1111") /\
  map address (deduplicate [a; b]) = ["1 Main St"].
Proof.
  intros a b. split.
  - destruct (proj1 C3_first_populated_wins [a; b] b f_phone)
      as (r & I & K & _ & G & _); [right; left; reflexivity|].
    exists r. split; [exact I | split; [exact K | exact G]].
  - apply (proj2 C3_first_populated_wins a b); [reflexivity | discriminate | discriminate].
Defined.

(** C10: the name, city, state and source_url of every output record are
    those of the first input record with its identity key; [deduplicate]
    writes the nine mergeable fields and [source] only.  In particular a
    merge leaves [source_url] at the first record's URL. *)
Theorem C10_deduplicate_frame :
  (forall (xs : list InsuranceCompany) (r : InsuranceCompany),
      In r (deduplicate xs) ->
      exists x,
        find (fun y => String.eqb (dedup_key y) (dedup_key r)) xs = Some x /\
        name r = name x /\ city r = city x /\ state r = state x /\
        source_url r = source_url x) /\
  (forall existing company : InsuranceCompany,
      name (merge_into existing company) = name existing /\
      city (merge_into existing company) = city existing /\
      state (merge_into existing company) = state existing /\
      source_url (merge_into existing company) = source_url existing).
Proof.
  split.
  - intros xs r I. apply In_deduplicate in I.
    destruct (entry_spec _ _ _ I) as (x & g & _ & _ & _ & _ & F & Hfind).
    exists x. split; [exact Hfind | now apply frame_eq].
  - intros ex c. apply frame_eq, frame_merge_into.
Qed.

Lemma C10_deduplicate_frame_witness :
  let a := mkCompany "Acme" "" "Oakland" "CA" "" "" "" "" "" "" "" "" "A" "http://a.test/1" in
  let b := mkCompany "ACME" "9 Side Rd" "Oakland" "XX" "" "" "" "" "" "" "" "" "B" "http://b.test/2" in
  exists r x,
    In r (deduplicate [a; b]) /\
    find (fun y => String.eqb (dedup_key y) (dedup_key r)) [a; b] = Some x /\
    source_url r = source_url x.
Proof.
  intros a b.
  assert (I : In (merge_into a b) (deduplicate [a; b])) by (left; reflexivity).
  destruct (proj1 C10_deduplicate_frame [a; b] _ I) as (x & Hf & _ & _ & _ & Hu).
  exists (merge_into a b), x. split; [exact I | split; [exact Hf | exact Hu]].
Defined.

(** ** Entries of a comma-joined field and the substring test *)

Section SourceEntries.

Lemma startswith_append x b : startswith x (x ++ b) = true.
Proof.
  induction x as [|c x IH]; cbn; [reflexivity|].
  now rewrite Ascii.eqb_refl, IH.
Qed.

Lemma str_in_unfold n h :
  str_in n h = startswith n h ||
               match h with EmptyString => false | String _ h' => str_in n h' end.
Proof. destruct h; reflexivity. Qed.

Lemma occurs_in_str_in x s : occurs_in x s -> str_in x s = true.
Proof.
  intros (a & b & ->). induction a as [|c a IH].
  - cbn [append]. rewrite str_in_unfold, startswith_append. reflexivity.
  - cbn [append]. rewrite str_in_unfold. cbn. rewrite IH. apply orb_true_r.
Qed.

Lemma occurs_in_cons x c s : occurs_in x s -> occurs_in x (String c s).
Proof. intros (a & b & ->). now exists (String c a), b. Qed.

Lemma drop_suffix n : forall s, exists a, s = a ++ drop n s.
Proof.
  induction n as [|n IH]; intros s.
  - now exists "".
  - destruct s as [|c s]; [now exists ""|].
    destruct (IH s) as (a & E). exists (String c a). cbn. now rewrite <- E.
Qed.

Lemma split_from_occurs sep : forall s skip cur x,
  In x (split_from sep s skip cur) ->
  (exists t b, x = cur ++ t /\ drop skip s = t ++ b) \/ occurs_in x s.
Proof.
  induction s as [|c s IH]; intros skip cur x I.
  - cbn in I. destruct I as [<-|[]]. left. exists "", "".
    split; [now rewrite append_nil_r | now destruct skip].
  - destruct skip as [|n]; cbn [split_from] in I.
    + destruct (startswith sep (String c s)).
      * destruct I as [<-|I].
        -- left. exists "", (String c s). split; [now rewrite append_nil_r | reflexivity].
        -- right. apply occurs_in_cons.
           apply IH in I as [(t & b & -> & E)|O]; [|exact O].
           destruct (drop_suffix (pred (String.length sep)) s) as (a & Ea).
           exists a, b. cbn [append]. now rewrite <- E.
      * apply IH in I as [(t & b & -> & E)|O].
        -- left. exists (String c t), b. split.
           ++ now rewrite append_assoc.
           ++ cbn in *. now rewrite E.
        -- right. now apply occurs_in_cons.
    + apply IH in I as [(t & b & -> & E)|O].
      * left. now exists t, b.
      * right. now apply occurs_in_cons.
Qed.

(** An entry of a separated list occurs in the joined string. *)
Lemma split_entry_str_in sep s x : In x (split sep s) -> str_in x s = true.
Proof.
  intros I. apply occurs_in_str_in.
  apply split_from_occurs in I as [(t & b & -> & E)|O]; [|exact O].
  exists "", b. exact E.
Qed.

End SourceEntries.

(** C4 (amended): when [deduplicate] merges an incoming record into the
    record retained under its key, the incoming source label is appended
    to the retained [source] after ", " unless the label already occurs
    somewhere inside the retained [source] string; a label that is one of
    the entries of the list is therefore never added twice.  The two Acme
    records deduplicate into one record with source "A, B", phone
    "555-1111" and website "http://acme.test". *)
Theorem C4_source_appended_unless_substring :
  (forall (seen : dict InsuranceCompany) (company existing : InsuranceCompany),
      dict_get (dedup_key company) seen = Some existing ->
      exists kept,
        dict_get (dedup_key company) (dedup_step seen company) = Some kept /\
        source kept =
          (if str_in (source company) (source existing)
           then source existing
           else source existing ++ ", " ++ source company) /\
        (In (source company) (source_entries (source existing)) ->
         source kept = source existing)) /\
  deduplicate [acme_a; acme_b] =
  [mkCompany "Acme Insurance" "" "Oakland" "CA" "" "555-1111" "http://acme.test"
     "" "" "" "" "" "A, B" ""].
Proof.
  split; [|vm_compute; reflexivity].
  intros seen company existing E.
  exists (merge_into existing company).
  unfold dedup_step. rewrite E. split; [apply dict_get_set|].
  split; [apply source_merge_into|].
  intros I. rewrite source_merge_into.
  now rewrite (split_entry_str_in _ _ _ I).
Qed.

Lemma C4_source_appended_unless_substring_witness :
  exists kept,
    dict_get (dedup_key acme_b) (dedup_step [(dedup_key acme_a, acme_a)] acme_b)
      = Some kept /\
    source kept = "A, B".
Proof.
  destruct (proj1 C4_source_appended_unless_substring
              [(dedup_key acme_a, acme_a)] acme_b acme_a) as (kept & G & S & _).
  - vm_compute. reflexivity.
  - exists kept. split; [exact G | exact S].
Defined.

(** With "entry of the list" in place of "part of the string" the
    property fails: "Google" is not an entry of the retained list
    "Google Maps", and yet the merge does not append it. *)
Lemma C4_counterexample :
  dedup_key maps_b = dedup_key maps_a /\
  ~ In (source maps_b) (source_entries (source maps_a)) /\
  map source (deduplicate [maps_a; maps_b]) = ["Google Maps"] /\
  map source (deduplicate [maps_a; maps_b]) <> ["Google Maps, Google"].
Proof.
  split; [reflexivity|]. split; [|split].
  - vm_compute. intros [H|[]]. discriminate H.
  - vm_compute. reflexivity.
  - vm_compute. discriminate.
Qed.

(** ** The loop of [deduplicate] on a store *)

Section InPlace.

Lemma read_write_same h : forall r v,
  r < List.length h -> read (write h r v) r = v.
Proof.
  unfold read. induction h as [|x h IH]; intros [|r] v L; cbn in *; try lia.
  - reflexivity.
  - apply IH. lia.
Qed.

Lemma read_write_other h : forall r r' v,
  r <> r' -> read (write h r v) r' = read h r'.
Proof.
  unfold read. induction h as [|x h IH]; intros [|r] [|r'] v N; cbn;
    try reflexivity; try contradiction.
  apply IH. congruence.
Qed.

Lemma length_write h : forall r v, List.length (write h r v) = List.length h.
Proof.
  induction h as [|x h IH]; intros [|r] v; cbn; try reflexivity.
  now rewrite IH.
Qed.

Lemma startswith_occurs x : forall s,
  startswith x s = true -> exists b, s = x ++ b.
Proof.
  induction x as [|c x IH]; intros s H; cbn in H.
  - now exists s.
  - destruct s as [|d s]; [discriminate|].
    apply andb_true_iff in H as [E H]. apply Ascii.eqb_eq in E as ->.
    destruct (IH s H) as (b & ->). now exists b.
Qed.

Lemma str_in_occurs x s : str_in x s = true -> occurs_in x s.
Proof.
  induction s as [|c s IH]; rewrite str_in_unfold; intros H;
    apply orb_true_iff in H as [H|H].
  - apply startswith_occurs in H as (b & ->). now exists "", b.
  - discriminate.
  - apply startswith_occurs in H as (b & ->). now exists "", b.
  - now apply occurs_in_cons, IH.
Qed.

Lemma str_in_append x s t : str_in x s = true -> str_in x (s ++ t) = true.
Proof.
  intros H. apply str_in_occurs in H as (a & b & ->).
  apply occurs_in_str_in. exists a, (b ++ t).
  now rewrite !append_assoc.
Qed.

Lemma str_in_self s : str_in s s = true.
Proof.
  apply occurs_in_str_in. exists "", "". cbn. now rewrite append_nil_r.
Qed.

Lemma merge_field_noop c ex f :
  (is_empty (getattr ex f) = true -> is_empty (getattr c f) = true) ->
  merge_field c ex f = ex.
Proof.
  intros H. unfold merge_field.
  destruct (is_empty (getattr ex f)); [|reflexivity].
  now rewrite H.
Qed.

Lemma absorbs_merge_noop e x : absorbs e x -> merge_into e x = e.
Proof.
  intros [Hf Hs]. unfold merge_into.
  assert (E : fold_left (fun ex fld => merge_field x ex fld) MERGE_FIELDS e = e).
  { induction MERGE_FIELDS as [|f fs IH]; cbn [fold_left]; [reflexivity|].
    rewrite merge_field_noop; [exact IH | apply Hf]. }
  rewrite E, Hs. reflexivity.
Qed.

Lemma absorbs_self e : absorbs e e.
Proof. split; [auto | apply str_in_self]. Qed.

Lemma absorbs_merge e x c : absorbs e x -> absorbs (merge_into e c) x.
Proof.
  intros [Hf Hs]. split.
  - intros f. rewrite getattr_merge_into. unfold pick.
    destruct (is_empty (getattr e f)) eqn:E; [intros _; now apply Hf | congruence].
  - rewrite source_merge_into.
    destruct (str_in (source c) (source e)); [exact Hs | now apply str_in_append].
Qed.

Lemma lift_keys h seen : map fst (lift h seen) = map fst seen.
Proof. unfold lift. rewrite map_map. reflexivity. Qed.

Lemma lift_values h seen : map snd (lift h seen) = map (read h) (map snd seen).
Proof. unfold lift. rewrite !map_map. reflexivity. Qed.

Lemma dict_get_lift h k seen :
  dict_get k (lift h seen) = option_map (read h) (dict_get k seen).
Proof.
  induction seen as [|[k0 e0] seen IH]; cbn; [reflexivity|].
  destruct (String.eqb k k0); [reflexivity | exact IH].
Qed.

Lemma lift_snoc h seen k r :
  lift h (seen ++ [(k, r)])%list = (lift h seen ++ [(k, read h r)])%list.
Proof. unfold lift. now rewrite map_app. Qed.

Lemma lift_write_other h e v seen :
  (forall k1, ~ In (k1, e) seen) -> lift (write h e v) seen = lift h seen.
Proof.
  intros H. unfold lift. apply map_ext_in. intros [k1 e1] I. cbn.
  rewrite read_write_other; [reflexivity|].
  intros <-. exact (H k1 I).
Qed.

Lemma lift_write h e v k : forall seen,
  NoDup (map fst seen) ->
  (forall k1, In (k1, e) seen -> k1 = k) ->
  In (k, e) seen -> e < List.length h ->
  lift (write h e v) seen = dict_set k v (lift h seen).
Proof.
  induction seen as [|[k0 e0] seen IH]; intros ND U I L; [destruct I|].
  inversion ND as [|? ? NI ND']; subst.
  cbn [lift map fst snd dict_set]. fold (lift (write h e v) seen) (lift h seen).
  destruct (String.eqb_spec k k0) as [<-|N].
  - assert (e0 = e) as ->.
    { destruct I as [[= ->]|I]; [reflexivity|].
      exfalso. apply NI. change k with (fst (k, e)). now apply in_map. }
    rewrite read_write_same by exact L.
    rewrite lift_write_other; [reflexivity|].
    intros k1 I1. apply NI.
    rewrite <- (U k1 (or_intror I1)). change k1 with (fst (k1, e)). now apply in_map.
  - assert (e0 <> e).
    { intros ->. apply N. symmetry. apply U. now left. }
    rewrite read_write_other by congruence.
    rewrite IH; auto.
    + intros k1 I1. apply U. now right.
    + destruct I as [[= -> ->]|I]; [contradiction | exact I].
Qed.

Lemma inplace_inv_NoDup h xs h' seen :
  inplace_inv h xs h' seen -> NoDup (map fst seen).
Proof.
  intros I. rewrite <- (lift_keys h'), <- (inv_seen _ _ _ _ I).
  apply dedup_loop_inv.
Qed.

(** A retained reference is found under the key of its record. *)
Lemma inplace_kept_get h xs h' seen r :
  inplace_inv h xs h' seen -> In r (map snd seen) ->
  dict_get (dedup_key (read h r)) seen = Some r /\
  dedup_key (read h' r) = dedup_key (read h r) /\
  absorbs (read h' r) (read h r).
Proof.
  intros I Hr. apply in_map_iff in Hr as ([k e] & E & Hin). cbn in E. subst e.
  destruct (inv_kept _ _ _ _ I _ _ Hin) as (_ & K & K' & A).
  split; [|split; [congruence | exact A]].
  rewrite K. apply In_dict_get; [eapply inplace_inv_NoDup; eassumption | exact Hin].
Qed.

Lemma inplace_inv_step h xs h' seen r :
  inplace_inv h xs h' seen -> r < List.length h ->
  inplace_inv h (xs ++ [r])
    (fst (dedup_step_inplace (h', seen) r))
    (snd (dedup_step_inplace (h', seen) r)).
Proof.
  intros I L.
  pose proof (inplace_inv_NoDup _ _ _ _ I) as ND.
  destruct (in_dec Nat.eq_dec r (map snd seen)) as [Kept|Free].
  - (* [r] is a retained object: it is merged into itself *)
    destruct (inplace_kept_get _ _ _ _ _ I Kept) as (G & K & A).
    unfold dedup_step_inplace. rewrite K, G. cbn [fst snd].
    rewrite (absorbs_merge_noop _ _ (absorbs_self (read h' r))).
    assert (W : write h' r (read h' r) = h').
    { clear. revert r. induction h' as [|x t IH]; intros [|r]; cbn; try reflexivity.
      unfold read in *. cbn. now rewrite IH. }
    rewrite W. constructor.
    + rewrite map_app. unfold dedup_loop. rewrite fold_left_app.
      fold (dedup_loop (map (read h) xs)). rewrite (inv_seen _ _ _ _ I).
      cbn [map fold_left]. unfold dedup_step.
      rewrite dict_get_lift, G. cbn [option_map].
      rewrite (absorbs_merge_noop _ _ A).
      rewrite <- (lift_write h' r (read h' r)); [now rewrite W | exact ND | | |].
      * intros k1 I1. destruct (inv_kept _ _ _ _ I _ _ I1) as (_ & <- & _). reflexivity.
      * now apply dict_get_In.
      * rewrite (inv_len _ _ _ _ I). exact L.
    + apply (inv_len _ _ _ _ I).
    + apply (inv_free _ _ _ _ I).
    + apply (inv_kept _ _ _ _ I).
  - (* [r] is not retained: its value is the one it came with *)
    pose proof (inv_free _ _ _ _ I r Free) as V.
    unfold dedup_step_inplace. rewrite V.
    destruct (dict_get (dedup_key (read h r)) seen) as [e|] eqn:G; cbn [fst snd].
    + pose proof (dict_get_In _ _ _ G) as He.
      destruct (inv_kept _ _ _ _ I _ _ He) as (Le & Ke & Ke' & Ae).
      assert (U : forall k1, In (k1, e) seen -> k1 = dedup_key (read h r)).
      { intros k1 I1. destruct (inv_kept _ _ _ _ I _ _ I1) as (_ & <- & _).
        now symmetry. }
      constructor.
      * rewrite map_app. unfold dedup_loop. rewrite fold_left_app.
        fold (dedup_loop (map (read h) xs)). rewrite (inv_seen _ _ _ _ I).
        cbn [map fold_left]. unfold dedup_step.
        rewrite dict_get_lift, G. cbn [option_map].
        symmetry. apply lift_write; auto.
        rewrite (inv_len _ _ _ _ I). exact Le.
      * rewrite length_write. apply (inv_len _ _ _ _ I).
      * intros r0 F0. rewrite read_write_other; [now apply (inv_free _ _ _ _ I)|].
        intros <-. apply F0. change e with (snd (dedup_key (read h r), e)).
        now apply in_map.
      * intros k1 e1 I1.
        destruct (inv_kept _ _ _ _ I _ _ I1) as (L1 & K1 & K1' & A1).
        destruct (Nat.eq_dec e e1) as [<-|N].
        -- rewrite read_write_same by (rewrite (inv_len _ _ _ _ I); exact Le).
           split; [exact L1|]. split; [exact K1|].
           split; [now rewrite dedup_key_merge_into | now apply absorbs_merge].
        -- rewrite read_write_other by exact N. auto.
    + rewrite (dict_set_absent _ _ _ G).
      constructor.
      * rewrite map_app. unfold dedup_loop. rewrite fold_left_app.
        fold (dedup_loop (map (read h) xs)). rewrite (inv_seen _ _ _ _ I).
        cbn [map fold_left]. unfold dedup_step.
        rewrite dict_get_lift, G. cbn [option_map].
        rewrite dict_set_absent by (now rewrite dict_get_lift, G).
        now rewrite lift_snoc, V.
      * apply (inv_len _ _ _ _ I).
      * intros r0 F0. apply (inv_free _ _ _ _ I).
        intros I0. apply F0. rewrite map_app, in_app_iff. now left.
      * intros k1 e1 I1. apply in_app_iff in I1 as [I1|[[= <- <-]|[]]].
        -- apply (inv_kept _ _ _ _ I _ _ I1).
        -- rewrite V. split; [exact L|]. split; [reflexivity|].
           split; [reflexivity | apply absorbs_self].
Qed.

Lemma inplace_inv_loop h : forall xs,
  Forall (fun r => r < List.length h) xs ->
  inplace_inv h xs (fst (dedup_loop_inplace h xs)) (snd (dedup_loop_inplace h xs)).
Proof.
  unfold dedup_loop_inplace.
  induction xs as [|r xs IH] using rev_ind; intros WF.
  - cbn. constructor; cbn; auto; tauto.
  - apply Forall_app in WF as [WF Wr]. inversion Wr as [|? ? Lr _]; subst.
    rewrite fold_left_app. cbn [fold_left].
    specialize (IH WF). revert IH.
    destruct (fold_left dedup_step_inplace xs _) as [h' seen].
    cbn [fst snd]. intros IH. now apply inplace_inv_step.
Qed.

(** The loop on values returns what the loop on objects leaves in the
    objects it returns; the other objects are as they were. *)
Lemma deduplicate_inplace_refines (h : heap) (results : list nat) :
  Forall (fun r => r < List.length h) results ->
  map (read (fst (deduplicate_inplace h results)))
      (snd (deduplicate_inplace h results))
    = deduplicate (map (read h) results) /\
  (forall r, ~ In r (snd (deduplicate_inplace h results)) ->
             read (fst (deduplicate_inplace h results)) r = read h r).
Proof.
  intros WF. pose proof (inplace_inv_loop h results WF) as I.
  unfold deduplicate_inplace. revert I.
  destruct (dedup_loop_inplace h results) as [h' seen].
  cbn [fst snd]. intros I. split.
  - unfold deduplicate, dict_values. fold (dedup_loop (map (read h) results)).
    now rewrite (inv_seen _ _ _ _ I), lift_values.
  - apply (inv_free _ _ _ _ I).
Qed.

Lemma dedup_loop_inplace_distinct h : forall rs seen,
  NoDup (map (fun r => dedup_key (read h r)) rs) ->
  (forall r, In r rs -> ~ In (dedup_key (read h r)) (map fst seen)) ->
  fold_left dedup_step_inplace rs (h, seen) =
  (h, (seen ++ map (fun r => (dedup_key (read h r), r)) rs)%list).
Proof.
  induction rs as [|r rs IH]; intros seen ND Hfresh; cbn [fold_left map].
  - now rewrite app_nil_r.
  - inversion ND as [|? ? NI ND']; subst.
    assert (E : dict_get (dedup_key (read h r)) seen = None).
    { apply dict_get_None, Hfresh. now left. }
    unfold dedup_step_inplace at 2. rewrite E, (dict_set_absent _ _ _ E).
    rewrite IH; [now rewrite <- app_assoc | exact ND' |].
    intros z Hz. rewrite map_app, in_app_iff. cbn.
    intros [I|[Ez|[]]].
    + apply (Hfresh z); [now right | exact I].
    + apply NI. rewrite Ez.
      apply (in_map (fun r0 => dedup_key (read h r0))). exact Hz.
Qed.

(** Run on the objects it returned, the loop writes nothing and returns
    the same objects. *)
Lemma deduplicate_inplace_again (h : heap) (results : list nat) :
  Forall (fun r => r < List.length h) results ->
  deduplicate_inplace (fst (deduplicate_inplace h results))
                      (snd (deduplicate_inplace h results))
  = deduplicate_inplace h results.
Proof.
  intros WF. pose proof (inplace_inv_loop h results WF) as I.
  unfold deduplicate_inplace at 2 3 4. revert I.
  destruct (dedup_loop_inplace h results) as [h' seen].
  cbn [fst snd]. intros I.
  assert (K : map (fun r => dedup_key (read h' r)) (dict_values seen) = map fst seen).
  { unfold dict_values. rewrite map_map. apply map_ext_in.
    intros [k e] Hin. cbn. now destruct (inv_kept _ _ _ _ I _ _ Hin) as (_ & _ & ? & _). }
  unfold deduplicate_inplace, dedup_loop_inplace.
  rewrite dedup_loop_inplace_distinct.
  - cbn [app]. unfold dict_values at 1. rewrite map_map. cbn [snd].
    now rewrite map_id.
  - rewrite K. eapply inplace_inv_NoDup. exact I.
  - cbn. tauto.
Qed.

End InPlace.

(** C2: deduplicating the output of [deduplicate] changes nothing: the
    second run returns the same records, in the same order, with the same
    fields.  On the objects themselves, the second run writes to no record
    and returns the same objects. *)
Theorem C2_deduplicate_idempotent :
  (forall xs : list InsuranceCompany,
      deduplicate (deduplicate xs) = deduplicate xs) /\
  (forall (h : heap) (results : list nat),
      Forall (fun r => r < List.length h) results ->
      deduplicate_inplace (fst (deduplicate_inplace h results))
                          (snd (deduplicate_inplace h results))
      = deduplicate_inplace h results).
Proof.
  split.
  - intros xs. apply deduplicate_distinct, deduplicate_NoDup.
  - exact deduplicate_inplace_again.
Qed.

Lemma C2_deduplicate_idempotent_witness :
  deduplicate_inplace (fst (deduplicate_inplace [acme_a; acme_b] [0; 1; 0]))
                      (snd (deduplicate_inplace [acme_a; acme_b] [0; 1; 0]))
  = deduplicate_inplace [acme_a; acme_b] [0; 1; 0].
Proof.
  apply (proj2 C2_deduplicate_idempotent).
  repeat constructor.
Defined.

(** ** [extract_emails] *)

Section ExtractEmails.

Lemma filter_loop {A} (p : A -> bool) l : forall acc,
  fold_left (fun acc x => if p x then list_append acc x else acc) l acc =
  (acc ++ filter p l)%list.
Proof.
  induction l as [|x l IH]; intros acc; cbn [fold_left filter].
  - now rewrite app_nil_r.
  - rewrite IH. destruct (p x); [|reflexivity].
    unfold list_append. now rewrite <- app_assoc.
Qed.

Lemma filter_both {A} (p q : A -> bool) l :
  filter (fun x => p x && q x) l = filter p (filter q l).
Proof.
  induction l as [|x l IH]; cbn; [reflexivity|].
  destruct (q x); cbn.
  - rewrite andb_true_r. destruct (p x); now rewrite IH.
  - now rewrite andb_false_r.
Qed.

Lemma filter_weaker {A} (p q : A -> bool) l :
  (forall x, p x = true -> q x = true) -> filter p (filter q l) = filter p l.
Proof.
  intros H. induction l as [|x l IH]; cbn; [reflexivity|].
  destruct (q x) eqn:Eq; cbn.
  - destruct (p x); now rewrite IH.
  - destruct (p x) eqn:Ep; [|exact IH].
    apply H in Ep. congruence.
Qed.

Lemma filter_all {A} (l : list A) : filter (fun _ => true) l = l.
Proof. induction l as [|x l IH]; cbn; [reflexivity | now rewrite IH]. Qed.

Lemma set_mem_eq x y seen :
  set_mem x seen = true -> String.eqb y x = true -> set_mem y seen = true.
Proof. intros M E. apply String.eqb_eq in E. now subst. Qed.

Lemma seen_loop l : forall seen result,
  snd (fold_left (fun '(seen, result) em =>
                    if negb (set_mem (lower em) seen)
                    then (lower em :: seen, list_append result em)
                    else (seen, result)) l (seen, result)) =
  (result ++ filter (fun y => negb (set_mem (lower y) seen)) (first_seen_ci l))%list.
Proof.
  induction l as [|x l IH]; intros seen result; cbn [fold_left first_seen_ci filter].
  - cbn. now rewrite app_nil_r.
  - destruct (set_mem (lower x) seen) eqn:M; cbn [negb].
    + rewrite IH. f_equal. symmetry. apply filter_weaker.
      intros y Hy. apply negb_true_iff in Hy. apply negb_true_iff.
      destruct (String.eqb (lower y) (lower x)) eqn:E; [|reflexivity].
      now rewrite (set_mem_eq _ _ _ M E) in Hy.
    + rewrite IH. unfold list_append. rewrite <- app_assoc. cbn [app].
      do 2 f_equal. rewrite <- filter_both. apply filter_ext.
      intros y. cbn. rewrite negb_orb. apply andb_comm.
Qed.

Lemma extract_emails_eq html :
  extract_emails html = first_seen_ci (filter survives (findall EMAIL_RE html)).
Proof.
  unfold extract_emails.
  change (fun filtered em =>
            if negb (is_junk JUNK em) && (String.length em <? 80)
            then list_append filtered em else filtered)
    with (fun (acc : list string) em =>
            if survives em then list_append acc em else acc).
  rewrite filter_loop. cbn [app].
  match goal with
  | |- (let '(_, result) := ?e in result) = _ =>
      change (snd e = first_seen_ci (filter survives (findall EMAIL_RE html)))
  end.
  rewrite seen_loop. cbn [app set_mem existsb negb]. apply filter_all.
Qed.

(** [first_seen_ci] keeps one address per lowercased form, the first, in
    the order of the list. *)
Lemma first_seen_ci_In l x : In x (first_seen_ci l) -> In x l.
Proof.
  revert x. induction l as [|y l IH]; cbn; [tauto|].
  intros x [->|I]; [now left|].
  apply filter_In in I as [I _]. right. now apply IH.
Qed.

Lemma first_seen_ci_NoDup l : NoDup (map lower (first_seen_ci l)).
Proof.
  induction l as [|y l IH]; cbn; [constructor|].
  constructor.
  - intros I. apply in_map_iff in I as (z & E & I).
    apply filter_In in I as [_ N]. apply negb_true_iff in N.
    apply String.eqb_neq in N. congruence.
  - clear -IH. induction (first_seen_ci l) as [|z t IHt]; cbn; [constructor|].
    inversion IH as [|? ? NI ND]; subst.
    destruct (negb (String.eqb (lower z) (lower y))); cbn; [|now apply IHt].
    constructor; [|now apply IHt].
    intros I. apply NI. apply in_map_iff in I as (u & E & I).
    apply filter_In in I as [I _]. rewrite <- E. now apply in_map.
Qed.

Lemma first_seen_ci_covers l x :
  In x l -> In (lower x) (map lower (first_seen_ci l)).
Proof.
  induction l as [|y l IH]; cbn; [tauto|].
  intros [->|I]; [now left|].
  destruct (String.eqb_spec (lower x) (lower y)) as [E|N]; [now left|].
  right. apply IH in I. apply in_map_iff in I as (z & E & I).
  apply in_map_iff. exists z. split; [exact E|].
  apply filter_In. split; [exact I|].
  apply negb_true_iff, String.eqb_neq. congruence.
Qed.

End ExtractEmails.

(** C8 (amended): [extract_emails] returns the matches of the email
    pattern that survive the filter, without repetition up to case and in
    first-seen order, where a match survives when its lowercased form
    contains no member of the junk list and it is shorter than 80
    characters: a match of 80 characters or more is dropped.  On
    "contact us at info@example.com or sales@realbiz.com" the result is
    ["sales@realbiz.com"], on the empty string it is []. *)
Theorem C8_extract_emails_filtered :
  (forall html : string,
      extract_emails html =
      first_seen_ci (filter survives (findall EMAIL_RE html))) /\
  (forall em : string,
      survives em = true <->
      (forall j, In j JUNK -> str_in j (lower em) = false) /\
      String.length em < 80) /\
  (forall l : list string,
      NoDup (map lower (first_seen_ci l)) /\
      (forall x, In x (first_seen_ci l) -> In x l) /\
      (forall x, In x l -> In (lower x) (map lower (first_seen_ci l)))) /\
  extract_emails "contact us at info@example.com or sales@realbiz.com"
    = ["sales@realbiz.com"] /\
  extract_emails "" = [].
Proof.
  split; [exact extract_emails_eq|]. split; [|split; [|split]].
  - intros em. unfold survives, is_junk.
    rewrite andb_true_iff, negb_true_iff, Nat.ltb_lt.
    split; intros [H L]; (split; [|exact L]).
    + intros j Hj. destruct (str_in j (lower em)) eqn:E; [|reflexivity].
      assert (X : existsb (fun j => str_in j (lower em)) JUNK = true)
        by (apply existsb_exists; eauto).
      congruence.
    + destruct (existsb _ JUNK) eqn:E; [|reflexivity].
      apply existsb_exists in E as (j & Hj & Ej). rewrite (H j Hj) in Ej.
      discriminate.
  - intros l. split; [apply first_seen_ci_NoDup|].
    split; [apply first_seen_ci_In | apply first_seen_ci_covers].
  - vm_compute. reflexivity.
  - vm_compute. reflexivity.
Qed.

Lemma C8_extract_emails_filtered_witness :
  survives "sales@realbiz.com" = true /\
  In "Sales@RealBiz.com" (findall EMAIL_RE "mail Sales@RealBiz.com or sales@realbiz.com").
Proof.
  destruct C8_extract_emails_filtered as (_ & Hs & Hl & _).
  split.
  - apply Hs. split; [|cbn; lia].
    intros j Hj. cbn in Hj.
    repeat (destruct Hj as [<-|Hj]; [vm_compute; reflexivity|]).
    destruct Hj.
  - apply (proj1 (proj2 (Hl _))). vm_compute. left. reflexivity.
Defined.

(** With "exceeds 80 characters" the property fails at a match of exactly
    80 characters: it does not exceed 80 characters and contains no junk,
    so it survives the filter worded that way, but [extract_emails] drops
    it. *)
Lemma C8_counterexample :
  String.length email80 = 80 /\
  findall EMAIL_RE email80 = [email80] /\
  is_junk JUNK email80 = false /\
  extract_emails_spec email80 = [email80] /\
  extract_emails email80 = [].
Proof. vm_compute. repeat split. Qed.

(** ** Enrichment *)

Section EnrichFacts.

Variable World : Type.
Variable http_get : World -> string -> World * outcome.
Variable Soup : Type.
Variable BeautifulSoup : string -> option Soup.
Variable find_meta_description : Soup -> option string.
Variable urlparse : string -> option (string * string).

Local Abbreviation enrich_record := (enrich_record Soup find_meta_description).
Local Abbreviation enrich_loop :=
  (enrich_loop World http_get Soup BeautifulSoup find_meta_description).
Local Abbreviation enrich_from_websites :=
  (enrich_from_websites World http_get Soup BeautifulSoup find_meta_description).
Local Abbreviation enriched_from :=
  (enriched_from http_get BeautifulSoup find_meta_description).
Local Abbreviation try_suffixes := (try_suffixes World http_get).
Local Abbreviation scrape_website_for_email :=
  (scrape_website_for_email World http_get urlparse).

(** The recursive call of the loop, met in the goal: bring in what is known
    of it and name its result. *)
Local Ltac next_turn IH more :=
  match goal with
  | |- context [enrich_loop ?s more] =>
      specialize (IH s); destruct (enrich_loop s more) as [st' out]
  end.

Lemma untouched_set_email c v : untouched (set_email c v) = untouched c.
Proof. destruct c; reflexivity. Qed.

Lemma untouched_set_description c v : untouched (set_description c v) = untouched c.
Proof. destruct c; reflexivity. Qed.

Lemma email_set_description c v : email (set_description c v) = email c.
Proof. destruct c; reflexivity. Qed.

Lemma description_set_email c v : description (set_email c v) = description c.
Proof. destruct c; reflexivity. Qed.

Lemma description_set_description c v : description (set_description c v) = v.
Proof. destruct c; reflexivity. Qed.

Lemma enrich_record_spec text soup c :
  untouched (enrich_record text soup c) = untouched c /\
  (email c <> "" -> email (enrich_record text soup c) = email c) /\
  (description c <> "" ->
   description (enrich_record text soup c) = description c) /\
  (description (enrich_record text soup c) = description c \/
   exists content,
     find_meta_description soup = Some content /\
     description (enrich_record text soup c) = slice_to 500 content).
Proof.
  unfold enrich_record.
  set (c1 := if is_empty (email c) then _ else c).
  assert (U1 : untouched c1 = untouched c).
  { subst c1. destruct (is_empty (email c)); [|reflexivity].
    destruct (find _ _); [apply untouched_set_email | reflexivity]. }
  assert (D1 : description c1 = description c).
  { subst c1. destruct (is_empty (email c)); [|reflexivity].
    destruct (find _ _); [apply description_set_email | reflexivity]. }
  assert (E1 : email c <> "" -> email c1 = email c).
  { intros N. subst c1. apply is_empty_false in N. now rewrite N. }
  clearbody c1. rewrite D1.
  destruct (is_empty (description c)) eqn:Ed.
  - destruct (find_meta_description soup) as [content|] eqn:Em.
    + repeat split.
      * now rewrite untouched_set_description.
      * intros N. rewrite email_set_description. now apply E1.
      * intros N. apply is_empty_false in N. congruence.
      * right. exists content. split; [reflexivity|].
        apply description_set_description.
    + repeat split; auto.
  - repeat split; auto.
Qed.

Lemma Forall2_same {A} (R : A -> A -> Prop) (l : list A) :
  (forall x, R x x) -> Forall2 R l l.
Proof. intros H. induction l; constructor; auto. Qed.

Lemma Forall2_single {A B} (R : A -> B -> Prop) (a : A) (l : list B) :
  Forall2 R [a] l -> exists b, l = [b] /\ R a b.
Proof.
  intros H. inversion H as [|x y t t' Hxy Ht]; subst.
  inversion Ht; subst. eauto.
Qed.

Lemma enrich_loop_enriched_from : forall companies st,
  Forall2 enriched_from companies (snd (enrich_loop st companies)).
Proof.
  assert (Keep : forall c, enriched_from c c) by (intros c; now left).
  induction companies as [|c more IH]; intros st; cbn [enrich_loop].
  - constructor.
  - destruct (negb (has_website (website c))).
    { specialize (IH st). destruct (enrich_loop st more) as [st' out].
      cbn. constructor; auto. }
    destruct (ENRICH_CAP <=? enriched st).
    { cbn. apply Forall2_same. exact Keep. }
    destruct (http_get (world st) (website c)) as [w o] eqn:G.
    destruct o as [|code text url].
    { next_turn IH more.
      cbn. constructor; auto. }
    destruct (code =? 200) eqn:C.
    + apply Nat.eqb_eq in C. subst code.
      destruct (BeautifulSoup text) as [soup|] eqn:B.
      * next_turn IH more.
        cbn. constructor; [|exact IH].
        right. exists (world st), w, text, url, soup. auto.
      * next_turn IH more.
        cbn. constructor; auto.
    + next_turn IH more.
      cbn. constructor; auto.
Qed.

Lemma slice_to_length n s : String.length (slice_to n s) <= n.
Proof. apply substring_0_le. Qed.

(** Once the counter is at the cap the loop neither fetches nor writes. *)
Lemma enrich_loop_at_cap : forall companies st,
  ENRICH_CAP <= enriched st -> enrich_loop st companies = (st, companies).
Proof.
  induction companies as [|c more IH]; intros st H; cbn [enrich_loop]; [reflexivity|].
  destruct (negb (has_website (website c))).
  - now rewrite (IH st H).
  - apply Nat.leb_le in H. now rewrite H.
Qed.

(** The counter never passes the cap. *)
Lemma enrich_loop_counter : forall companies st,
  enriched st <= ENRICH_CAP ->
  enriched (fst (enrich_loop st companies)) <= ENRICH_CAP.
Proof.
  induction companies as [|c more IH]; intros st H; cbn [enrich_loop]; [exact H|].
  destruct (negb (has_website (website c))).
  { specialize (IH st H). now destruct (enrich_loop st more). }
  destruct (ENRICH_CAP <=? enriched st) eqn:Cap; [exact H|].
  apply Nat.leb_gt in Cap.
  destruct (http_get (world st) (website c)) as [w o].
  destruct o as [|code text url];
    [|destruct (code =? 200); [destruct (BeautifulSoup text)|]];
    next_turn IH more;
    cbn in *; apply IH; lia.
Qed.

(** On a network where every request is answered with status 200 and
    every page can be parsed, the cap does bound the requests: the loop
    makes as many as there are eligible records, up to what the counter
    leaves of the cap. *)
Lemma enrich_loop_all_succeed :
  (forall w url, exists w' text u soup,
      http_get w url = (w', Response 200 text u) /\ BeautifulSoup text = Some soup) ->
  forall companies st,
    List.length (requests (fst (enrich_loop st companies))) =
    List.length (requests st) +
    Nat.min (List.length (eligible companies)) (ENRICH_CAP - enriched st).
Proof.
  intros Ok. induction companies as [|c more IH]; intros st;
    cbn [enrich_loop eligible filter].
  - cbn. lia.
  - fold (eligible more).
    destruct (has_website (website c)) eqn:Hw; cbn [negb].
    + destruct (ENRICH_CAP <=? enriched st) eqn:Cap.
      * apply Nat.leb_le in Cap. cbn [fst].
        replace (ENRICH_CAP - enriched st) with 0 by lia. lia.
      * apply Nat.leb_gt in Cap.
        destruct (Ok (world st) (website c)) as (w' & text & u & soup & G & B).
        rewrite G. cbn [Nat.eqb]. rewrite B.
        next_turn IH more.
        cbn [fst] in *. rewrite IH. cbn [requests enriched].
        unfold list_append. rewrite length_app. cbn [List.length].
        lia.
    + specialize (IH st). destruct (enrich_loop st more) as [st' out].
      cbn [fst] in *. exact IH.
Qed.

(** Every request of the pipeline's enricher goes to the website of one
    of the records. *)
Lemma enrich_loop_requests : forall companies st,
  exists rs,
    requests (fst (enrich_loop st companies)) = (requests st ++ rs)%list /\
    Forall (fun q => exists c, In c companies /\ fst q = website c) rs.
Proof.
  induction companies as [|c more IH]; intros st; cbn [enrich_loop].
  - exists []. split; [now rewrite app_nil_r | constructor].
  - assert (Up : forall rs : request_log,
              Forall (fun q => exists c0, In c0 more /\ fst q = website c0) rs ->
              Forall (fun q => exists c0, In c0 (c :: more) /\ fst q = website c0) rs).
    { intros rs. apply Forall_impl. intros q (c0 & I & E). exists c0.
      split; [now right | exact E]. }
    destruct (negb (has_website (website c))).
    { destruct (IH st) as (rs & E & F). destruct (enrich_loop st more) as [st' out].
      exists rs. split; [exact E | now apply Up]. }
    destruct (ENRICH_CAP <=? enriched st).
    { exists []. split; [now rewrite app_nil_r | constructor]. }
    destruct (http_get (world st) (website c)) as [w o].
    destruct o as [|code text url];
      [|destruct (code =? 200); [destruct (BeautifulSoup text)|]];
      match goal with |- context [enrich_loop ?s more] =>
        destruct (IH s) as (rs & E & F); destruct (enrich_loop s more) as [st' out]
      end;
      cbn in E |- *; unfold list_append in E; rewrite <- app_assoc in E;
      eexists; (split; [exact E|]);
      (constructor; [exists c; split; [now left | reflexivity] | now apply Up]).
Qed.

Lemma try_suffixes_spec base : forall suffixes w log w' log' e,
  try_suffixes w log base suffixes = (w', log', e) ->
  exists rs n,
    log' = (log ++ rs)%list /\
    map fst rs = map (fun suffix => base ++ suffix) (firstn n suffixes) /\
    ((exists rs0 r, rs = (rs0 ++ [r])%list /\
                    Forall (fun q => yields (snd q) = None) rs0 /\
                    yields (snd r) = Some e) \/
     (e = "" /\ n = List.length suffixes /\
      Forall (fun q => yields (snd q) = None) rs)).
Proof.
  induction suffixes as [|suffix more IH]; intros w log w' log' e H;
    cbn [try_suffixes] in H.
  - injection H as <- <- <-. exists [], 0.
    split; [now rewrite app_nil_r|]. split; [reflexivity|].
    right. repeat split. constructor.
  - destruct (http_get w (base ++ suffix)) as [w1 o] eqn:G.
    assert (Next : yields o = None ->
                   try_suffixes w1 (list_append log (base ++ suffix, o)) base more
                     = (w', log', e) ->
                   exists rs n,
                     log' = (log ++ rs)%list /\
                     map fst rs =
                       map (fun s => base ++ s) (firstn n (suffix :: more)) /\
                     ((exists rs0 r, rs = (rs0 ++ [r])%list /\
                                     Forall (fun q => yields (snd q) = None) rs0 /\
                                     yields (snd r) = Some e) \/
                      (e = "" /\ n = List.length (suffix :: more) /\
                       Forall (fun q => yields (snd q) = None) rs))).
    { intros Y T. apply IH in T as (rs & n & -> & M & Hcase).
      exists ((base ++ suffix, o) :: rs), (S n).
      split; [unfold list_append; now rewrite <- app_assoc|].
      split; [cbn; now rewrite M|].
      destruct Hcase as [(rs0 & r & -> & F & Yr)|(-> & -> & F)].
      - left. exists ((base ++ suffix, o) :: rs0), r.
        split; [reflexivity|]. split; [now constructor | exact Yr].
      - right. repeat split. now constructor. }
    destruct o as [|code text url]; [now apply Next|].
    destruct (code =? 200) eqn:C.
    + destruct (extract_emails text) as [|em ems] eqn:X.
      * apply Next; [cbn; now rewrite C, X | exact H].
      * injection H as <- <- <-.
        exists [(base ++ suffix, Response code text url)], 1.
        split; [reflexivity|]. split; [reflexivity|].
        left. exists [], (base ++ suffix, Response code text url).
        split; [reflexivity|]. split; [constructor|].
        cbn. now rewrite C, X.
    + apply Next; [cbn; now rewrite C | exact H].
Qed.

End EnrichFacts.

(** C6: enrichment writes [email] and [description] only, and each only
    when it is empty: every record comes back with its other twelve
    fields as they were, a non-empty email or description is kept, and a
    description that has changed is the meta description of a page the
    record's website answered with status 200, cut to at most 500
    characters. *)
Theorem C6_enrichment_writes_email_description_only :
  forall (World Soup : Type)
         (http_get : World -> string -> World * outcome)
         (BeautifulSoup : string -> option Soup)
         (find_meta_description : Soup -> option string)
         (w : World) (companies : list InsuranceCompany),
    Forall2
      (fun c c' =>
         untouched c' = untouched c /\
         (email c <> "" -> email c' = email c) /\
         (description c <> "" -> description c' = description c) /\
         (description c' <> description c ->
          exists w0 w1 text url soup content,
            http_get w0 (website c) = (w1, Response 200 text url) /\
            BeautifulSoup text = Some soup /\
            find_meta_description soup = Some content /\
            description c' = slice_to 500 content /\
            String.length (description c') <= 500))
      companies
      (snd (enrich_from_websites World http_get Soup BeautifulSoup
              find_meta_description w companies)).
Proof.
  intros World Soup http_get BeautifulSoup find_meta_description w companies.
  unfold enrich_from_websites.
  eapply Forall2_impl; [|apply enrich_loop_enriched_from].
  intros c c' [->|(w0 & w1 & text & url & soup & G & B & ->)].
  - repeat split; auto. intros N. now contradiction N.
  - destruct (enrich_record_spec Soup find_meta_description text soup c)
      as (U & E & D & Dw).
    repeat split; auto.
    intros N. destruct Dw as [Dw|(content & M & Dw)]; [contradiction|].
    exists w0, w1, text, url, soup, content.
    repeat split; auto. rewrite Dw. apply slice_to_length.
Qed.

Lemma C6_enrichment_writes_email_description_only_witness :
  exists c',
    snd (enrich_from_websites unit acme_net string text_soup no_meta tt
           [site_record "http://acme.test/contact" "old@acme.test"]) = [c'] /\
    email c' = "old@acme.test".
Proof.
  pose proof (C6_enrichment_writes_email_description_only
                unit string acme_net text_soup no_meta tt
                [site_record "http://acme.test/contact" "old@acme.test"]) as H.
  apply Forall2_single in H as (c' & Eout & _ & E & _).
  exists c'. split; [exact Eout|].
  apply E. discriminate.
Defined.

(** C5, at a failing input: with 201 eligible records on a network that
    answers every request 404, the loop makes 201 requests although the
    cap is 200: a request that fails is not counted. *)
Theorem C5_failed_fetches_escape_the_cap :
  let companies := repeat (site_record "http://acme.test" "") 201 in
  let '(st, out) :=
    enrich_from_websites unit net_404 string text_soup no_meta tt companies in
  List.length (eligible companies) = 201 /\
  ENRICH_CAP = 200 /\
  List.length (requests st) = 201 /\
  enriched st = 0 /\
  out = companies.
Proof. vm_compute. repeat split. Qed.




(** * Further properties *)

(** ** Identity keys and the order of the output *)

Section DedupMore.

Lemma key_chars_filter s :
  all_chars key_char (filter_chars (fun c => is_lower_az c || is_digit c) s) = true.
Proof.
  induction s as [|c s IH]; [reflexivity|].
  cbn [filter_chars]. destruct (is_lower_az c || is_digit c) eqn:E; [|exact IH].
  cbn [all_chars]. unfold key_char at 1. now rewrite E, IH.
Qed.

Lemma filter_negb_mem_app (seen : list string) (x : string) (l : list string) :
  filter (fun y => negb (existsb (String.eqb y) (seen ++ [x])%list)) l =
  filter (fun y => negb (existsb (String.eqb y) seen))
         (filter (fun y => negb (String.eqb y x)) l).
Proof.
  rewrite <- filter_both. apply filter_ext. intros y.
  rewrite existsb_app. cbn. rewrite orb_false_r, negb_orb. reflexivity.
Qed.

Lemma existsb_eqb_In (k : string) (l : list string) :
  existsb (String.eqb k) l = true <-> In k l.
Proof.
  rewrite existsb_exists. split.
  - intros (y & I & E). apply String.eqb_eq in E. now subst.
  - intros I. exists k. split; [exact I | apply String.eqb_refl].
Qed.

(** The keys of [seen] as the loop goes on: those it had, then the new
    ones in the order of their first record. *)
Lemma dedup_loop_keys xs : forall seen,
  map fst (fold_left dedup_step xs seen) =
  (map fst seen ++
   filter (fun k => negb (existsb (String.eqb k) (map fst seen)))
          (first_seen (map dedup_key xs)))%list.
Proof.
  induction xs as [|x xs IH]; intros seen; cbn [fold_left map first_seen filter].
  - now rewrite app_nil_r.
  - rewrite IH. unfold dedup_step.
    destruct (dict_get (dedup_key x) seen) as [e|] eqn:G.
    + rewrite (dict_set_keys _ _ _ _ G). f_equal.
      assert (M : existsb (String.eqb (dedup_key x)) (map fst seen) = true).
      { apply existsb_eqb_In. apply dict_get_In in G.
        change (dedup_key x) with (fst (dedup_key x, e)). now apply in_map. }
      rewrite M. cbn [negb]. symmetry. apply filter_weaker.
      intros y Hy. apply negb_true_iff.
      destruct (String.eqb_spec y (dedup_key x)) as [->|]; [|reflexivity].
      rewrite M in Hy. discriminate Hy.
    + rewrite (dict_set_absent _ _ _ G), map_app. cbn [map fst].
      assert (M : existsb (String.eqb (dedup_key x)) (map fst seen) = false).
      { destruct (existsb _ _) eqn:E; [|reflexivity].
        apply existsb_eqb_In in E. now apply dict_get_None in G. }
      rewrite M. cbn [negb]. rewrite <- app_assoc. cbn [app].
      do 2 f_equal. apply filter_negb_mem_app.
Qed.

Lemma first_seen_length l : List.length (first_seen l) <= List.length l.
Proof.
  induction l as [|x l IH]; cbn; [lia|].
  pose proof (filter_length_le (fun y => negb (String.eqb y x)) (first_seen l)).
  lia.
Qed.

Lemma dedup_loop_again xs :
  dedup_loop (deduplicate xs) = dedup_loop xs.
Proof.
  unfold dedup_loop at 1.
  rewrite dedup_loop_distinct; [|apply deduplicate_NoDup|cbn; tauto].
  cbn [app]. unfold deduplicate, dict_values. fold (dedup_loop xs).
  rewrite map_map.
  rewrite <- (map_id (dedup_loop xs)) at 2.
  apply map_ext_in. intros [k r] I. cbn.
  destruct (entry_spec _ _ _ I) as (_ & _ & _ & _ & _ & -> & _). reflexivity.
Qed.

(** The label of a record that has been merged stays in the [source] it
    was merged into. *)
Lemma source_kept_by_merges g : forall e y,
  str_in (source y) (source e) = true ->
  str_in (source y) (source (fold_left merge_into g e)) = true.
Proof.
  induction g as [|c g IH]; intros e y H; cbn [fold_left]; [exact H|].
  apply IH. rewrite source_merge_into.
  destruct (str_in (source c) (source e)); [exact H | now apply str_in_append].
Qed.

Lemma source_of_merged g : forall e y,
  In y g -> str_in (source y) (source (fold_left merge_into g e)) = true.
Proof.
  induction g as [|c g IH]; intros e y I; [destruct I|].
  destruct I as [->|I]; cbn [fold_left].
  - apply source_kept_by_merges. rewrite source_merge_into.
    destruct (str_in (source y) (source e)) eqn:E; [exact E|].
    apply occurs_in_str_in. exists (source e ++ ", "), "".
    now rewrite append_nil_r, append_assoc.
  - now apply IH.
Qed.

Lemma startswith_refl s : startswith s s = true.
Proof. rewrite <- (append_nil_r s) at 2. apply startswith_append. Qed.

Lemma startswith_append_r p s t : startswith p s = true -> startswith p (s ++ t) = true.
Proof.
  intros H. apply startswith_occurs in H as (b & ->).
  rewrite append_assoc. apply startswith_append.
Qed.

Lemma source_prefix_kept g : forall e p,
  startswith p (source e) = true ->
  startswith p (source (fold_left merge_into g e)) = true.
Proof.
  induction g as [|c g IH]; intros e p H; cbn [fold_left]; [exact H|].
  apply IH. rewrite source_merge_into.
  destruct (str_in (source c) (source e)); [exact H | now apply startswith_append_r].
Qed.

End DedupMore.

(** X1: two records have the same identity key exactly when their
    normalized names are equal and their normalized cities are equal: the
    underscore between the two parts cannot be mistaken, because a key is
    made of a-z, 0-9 and that one underscore only. *)
Theorem X1_dedup_key_unambiguous :
  (forall r1 r2 : InsuranceCompany,
      dedup_key r1 = dedup_key r2 <->
      normalize (name r1) = normalize (name r2) /\
      normalize (city r1) = normalize (city r2)) /\
  (forall r : InsuranceCompany,
      all_chars key_char (dedup_key r) = true /\
      all_chars (fun c => negb (is_char "_" c)) (normalize (name r)) = true /\
      all_chars (fun c => negb (is_char "_" c)) (normalize (city r)) = true).
Proof.
  split; [exact dedup_key_eq_iff|].
  intros r. unfold dedup_key. rewrite !normalize_filter.
  split; [|split; apply no_underscore_filter].
  rewrite !all_chars_append, !key_chars_filter. reflexivity.
Qed.

(** X2: the output of [deduplicate] has one record per identity key of the
    input, in the order in which the keys are first seen; it is never
    longer than the input, and the empty input gives the empty output. *)
Theorem X2_deduplicate_first_seen_order :
  forall xs : list InsuranceCompany,
    map dedup_key (deduplicate xs) = first_seen (map dedup_key xs) /\
    List.length (deduplicate xs) <= List.length xs /\
    deduplicate [] = [].
Proof.
  intros xs.
  assert (K : map dedup_key (deduplicate xs) = first_seen (map dedup_key xs)).
  { rewrite deduplicate_keys. unfold dedup_loop. rewrite dedup_loop_keys.
    cbn [map app existsb negb]. apply filter_all. }
  split; [exact K|]. split; [|reflexivity].
  rewrite <- (length_map dedup_key (deduplicate xs)), K.
  rewrite <- (length_map dedup_key xs). apply first_seen_length.
Qed.

(** X3: deduplicating in batches gives what deduplicating at once gives:
    the records already deduplicated, followed by new ones, deduplicate to
    the result for the whole input. *)
Theorem X3_deduplicate_in_batches :
  forall xs ys : list InsuranceCompany,
    deduplicate (deduplicate xs ++ ys) = deduplicate (xs ++ ys).
Proof.
  intros xs ys. unfold deduplicate at 1 3.
  rewrite !fold_left_app.
  fold (dedup_loop (deduplicate xs)) (dedup_loop xs).
  now rewrite dedup_loop_again.
Qed.

(** X4: no provenance is lost: for every input record, the output record
    with its key has a [source] in which the record's label occurs, and
    that [source] starts with the label of the first record of the key. *)
Theorem X4_provenance_kept :
  forall (xs : list InsuranceCompany) (x : InsuranceCompany),
    In x xs ->
    exists r first,
      In r (deduplicate xs) /\ dedup_key r = dedup_key x /\
      str_in (source x) (source r) = true /\
      find (fun y => String.eqb (dedup_key y) (dedup_key x)) xs = Some first /\
      startswith (source first) (source r) = true.
Proof.
  intros xs x Hx.
  destruct (dedup_loop_inv xs) as (_ & Hcov & _).
  pose proof (Hcov x Hx) as I. apply in_map_iff in I as ([k r] & Ek & I).
  cbn in Ek. subst k.
  destruct (entry_spec _ _ _ I) as (x0 & g & Eg & Er & _ & Kr & _ & Hf).
  exists r, x0. split; [|split; [exact Kr|split; [|split; [exact Hf|]]]].
  - apply In_deduplicate. now rewrite Kr.
  - assert (Hin : In x (x0 :: g)).
    { rewrite <- Eg. unfold group. apply filter_In.
      split; [exact Hx | apply String.eqb_refl]. }
    rewrite Er. destruct Hin as [->|Hin].
    + apply source_kept_by_merges, str_in_self.
    + now apply source_of_merged.
  - rewrite Er. apply source_prefix_kept, startswith_refl.
Qed.

Lemma X4_provenance_kept_witness :
  exists r first,
    In r (deduplicate [acme_a; acme_b]) /\ dedup_key r = dedup_key acme_b /\
    str_in (source acme_b) (source r) = true /\
    find (fun y => String.eqb (dedup_key y) (dedup_key acme_b)) [acme_a; acme_b]
      = Some first /\
    startswith (source first) (source r) = true.
Proof.
  apply (X4_provenance_kept [acme_a; acme_b] acme_b).
  right. left. reflexivity.
Defined.

(** ** What the extractors return is in their input *)

Section ExtractorsMore.

Lemma occurs_in_trans x y z : occurs_in x y -> occurs_in y z -> occurs_in x z.
Proof.
  intros (a & b & ->) (c & d & ->). exists (c ++ a), (b ++ d).
  now rewrite !append_assoc.
Qed.

Lemma occurs_in_empty s : occurs_in "" s.
Proof. now exists "", s. Qed.

Lemma occurs_in_prefix w t : occurs_in w (w ++ t).
Proof. now exists "", t. Qed.

Lemma occurs_in_append_l a s x : occurs_in x s -> occurs_in x (a ++ s).
Proof.
  intros (b & c & ->). exists (a ++ b), c. now rewrite append_assoc.
Qed.

Lemma lstrip_suffix s : exists a, s = a ++ lstrip s.
Proof.
  induction s as [|c s (a & IH)]; [now exists ""|].
  cbn [lstrip]. destruct (isspace c); [|now exists ""].
  exists (String c a). cbn. now rewrite <- IH.
Qed.

Lemma rstrip_prefix s : exists b, s = rstrip s ++ b.
Proof.
  induction s as [|c s (b & IH)]; [now exists ""|].
  cbn [rstrip]. destruct (rstrip s) as [|d t] eqn:E.
  - destruct (isspace c); [now exists (String c s)|].
    exists s. reflexivity.
  - exists b. cbn [append]. now rewrite IH at 1.
Qed.

Lemma strip_occurs s : occurs_in (strip s) s.
Proof.
  unfold strip. destruct (lstrip_suffix s) as (a & Ea).
  destruct (rstrip_prefix (lstrip s)) as (b & Eb).
  exists a, b. now rewrite <- Eb.
Qed.

(** The text of the group comes from the text the match ran over. *)
Lemma Matches_group_occurs r st m :
  Matches r st m ->
  forall w, grp m = Some w -> grp st = Some w \/ occurs_in w (rest st).
Proof.
  induction 1 as [st|p c s' st E Hp|a b st st1 st2 M1 IH1 M2 IH2|a st st1 _ IH
                  |a st|a st|a st st1 st2 M1 IH1 _ M2 IH2|a st st1 M IH|st Hb];
    intros w Hw; auto.
  - destruct (IH2 w Hw) as [H|H]; [now apply IH1|].
    right. destruct (Matches_lang _ _ _ M1) as (wa & -> & _).
    now apply occurs_in_append_l.
  - destruct (IH2 w Hw) as [H|H]; [now apply IH1|].
    right. destruct (Matches_lang _ _ _ M1) as (wa & -> & _).
    now apply occurs_in_append_l.
  - right. cbn in Hw. injection Hw as <-.
    destruct (Matches_lang _ _ _ M) as (wa & E & _).
    unfold consumed. rewrite E, length_append.
    replace (String.length wa + String.length (rest st1) - String.length (rest st1))
      with (String.length wa) by lia.
    rewrite substring_0_append. apply occurs_in_prefix.
Qed.

Lemma search_from_at r : forall s prev m,
  search_from r prev s = Some m ->
  exists a prev' s', s = a ++ s' /\ match_at r prev' s' = Some m.
Proof.
  induction s as [|c s IH]; intros prev m H; cbn [search_from] in H.
  - destruct (match_at r prev "") eqn:E; [|discriminate].
    exists "", prev, "". split; [reflexivity | congruence].
  - destruct (match_at r prev (String c s)) eqn:E.
    + exists "", prev, (String c s). split; [reflexivity | congruence].
    + apply IH in H as (a & prev' & s' & -> & H).
      exists (String c a), prev', s'. split; [reflexivity | exact H].
Qed.

Lemma search_group_occurs r s m :
  search r s = Some m -> occurs_in (group1 m) s.
Proof.
  intros H. unfold group1. destruct (grp m) as [w|] eqn:G; [|apply occurs_in_empty].
  apply search_from_at in H as (a & prev & s' & -> & H).
  apply exec_sound in H as (st' & M & E). injection E as ->.
  apply occurs_in_append_l.
  destruct (Matches_group_occurs _ _ _ M w G) as [N|O]; [discriminate N | exact O].
Qed.

Lemma findall_from_sound r : forall s prev skip e,
  In e (findall_from r prev s skip) -> lang r e /\ occurs_in e s.
Proof.
  assert (At : forall prev s m, match_at r prev s = Some m ->
            exists w, s = w ++ rest m /\ lang r w).
  { intros prev s m H. apply exec_sound in H as (st' & M & E). injection E as ->.
    apply Matches_lang in M. exact M. }
  induction s as [|c s IH]; intros prev skip e I; cbn [findall_from] in I.
  - destruct skip; [|destruct I].
    destruct (match_at r prev "") as [m|] eqn:E; [|destruct I].
    destruct I as [<-|[]].
    apply At in E as (w & E & L). destruct w; [|discriminate E].
    split; [exact L | apply occurs_in_empty].
  - destruct skip as [|n].
    + destruct (match_at r prev (String c s)) as [m|] eqn:E.
      * destruct I as [<-|I].
        -- apply At in E as (w & E & L). rewrite E at 1 2. rewrite E.
           rewrite length_append.
           replace (String.length w + String.length (rest m) - String.length (rest m))
             with (String.length w) by lia.
           rewrite substring_0_append. split; [exact L | apply occurs_in_prefix].
        -- apply IH in I as [L O]. split; [exact L | now apply occurs_in_cons].
      * apply IH in I as [L O]. split; [exact L | now apply occurs_in_cons].
    + apply IH in I as [L O]. split; [exact L | now apply occurs_in_cons].
Qed.

Lemma lang_Chr_plus_nonempty p w :
  lang (Plus (Chr p)) w -> w <> "" /\ all_chars p w = true.
Proof. intros L. apply lang_Plus_Chr in L. tauto. Qed.

Lemma lang_email e : lang EMAIL_RE e -> email_shaped e.
Proof.
  unfold EMAIL_RE, AtLeast. intros L.
  apply lang_Seq_inv in L as (l & r1 & -> & Ll & L).
  apply lang_Seq_inv in L as (at_ & r2 & -> & La & L).
  apply lang_Seq_inv in L as (d & r3 & -> & Ld & L).
  apply lang_Seq_inv in L as (dot & r4 & -> & Lp & L).
  apply lang_Seq_inv in L as (t1 & t2 & -> & Lt1 & Lt2).
  apply lang_Chr_plus_nonempty in Ll as [Nl Al].
  apply lang_Chr_plus_nonempty in Ld as [Nd Ad].
  apply lang_Chr_inv in La as (c & -> & Hc). apply Ascii.eqb_eq in Hc as <-.
  apply lang_Chr_inv in Lp as (c & -> & Hc). apply Ascii.eqb_eq in Hc as <-.
  apply lang_Times_Chr in Lt1 as [Len1 A1]. apply lang_Star_Chr in Lt2.
  exists l, d, (t1 ++ t2). repeat split; auto.
  - rewrite length_append. lia.
  - now rewrite all_chars_append, A1, Lt2.
Qed.

End ExtractorsMore.

(** X5: the extractors never invent text: the ZIP code and the city they
    return occur in the address they were given. *)
Theorem X5_extracted_text_occurs_in_address :
  forall address : string,
    occurs_in (extract_zip address) address /\
    occurs_in (extract_city_from_address address) address.
Proof.
  intros s. split.
  - unfold extract_zip. destruct (search ZIP_RE s) as [m|] eqn:E;
      [eapply search_group_occurs; exact E | apply occurs_in_empty].
  - unfold extract_city_from_address.
    destruct (is_empty s); [apply occurs_in_empty|].
    destruct (search CITY_RE_1 s) as [m|] eqn:E1.
    + eapply occurs_in_trans; [apply strip_occurs | eapply search_group_occurs; exact E1].
    + destruct (search CITY_RE_2 s) as [m|] eqn:E2; [|apply occurs_in_empty].
      eapply occurs_in_trans; [apply strip_occurs | eapply search_group_occurs; exact E2].
Qed.

(** X6: every address [extract_emails] returns occurs in the text it was
    given and has the shape local@domain.tld, with a non-empty local part
    and domain made of the characters of the pattern and at least two
    letters at the end; it has between 6 and 79 characters. *)
Theorem X6_extracted_emails_shape :
  forall (html e : string),
    In e (extract_emails html) ->
    occurs_in e html /\ email_shaped e /\
    6 <= String.length e < 80.
Proof.
  intros html e I. rewrite extract_emails_eq in I.
  apply first_seen_ci_In in I. apply filter_In in I as [I S].
  apply findall_from_sound in I as [L O].
  apply lang_email in L.
  split; [exact O|]. split; [exact L|].
  unfold survives in S. apply andb_true_iff in S as [_ S]. apply Nat.ltb_lt in S.
  split; [|exact S].
  destruct L as (l & d & t & -> & Nl & _ & Nd & _ & Lt & _).
  rewrite !length_append. cbn [String.length].
  destruct l; [contradiction|]. destruct d; [contradiction|]. cbn [String.length]. lia.
Qed.

Lemma X6_extracted_emails_shape_witness :
  occurs_in "sales@realbiz.com" "contact us at info@example.com or sales@realbiz.com" /\
  email_shaped "sales@realbiz.com" /\
  6 <= String.length "sales@realbiz.com" < 80.
Proof.
  apply (X6_extracted_emails_shape
           "contact us at info@example.com or sales@realbiz.com" "sales@realbiz.com").
  vm_compute. left. reflexivity.
Defined.

(** ** Bounds of the enrichers *)

Section EnrichMore.

Variable World : Type.
Variable http_get : World -> string -> World * outcome.
Variable Soup : Type.
Variable BeautifulSoup : string -> option Soup.
Variable find_meta_description : Soup -> option string.
Variable urlparse : string -> option (string * string).

Local Abbreviation enrich_record := (enrich_record Soup find_meta_description).
Local Abbreviation enrich_loop :=
  (enrich_loop World http_get Soup BeautifulSoup find_meta_description).
Local Abbreviation try_suffixes := (try_suffixes World http_get).
Local Abbreviation scrape_website_for_email :=
  (scrape_website_for_email World http_get urlparse).

Local Ltac next_turn IH more :=
  match goal with
  | |- context [enrich_loop ?s more] =>
      specialize (IH s); destruct (enrich_loop s more) as [st' out]
  end.

Lemma Forall2_map_eq {A B} (R : A -> A -> Prop) (f : A -> B) l l' :
  Forall2 R l l' -> (forall a b, R a b -> f b = f a) -> map f l' = map f l.
Proof.
  intros F H. induction F as [|a b l l' Rab _ IH]; [reflexivity|].
  cbn. now rewrite IH, (H a b Rab).
Qed.

Lemma written_same c : written c c = false.
Proof. unfold written. now rewrite !String.eqb_refl. Qed.

Lemma count_written_cons c c' cs out :
  count_written (c :: cs) (c' :: out) =
  (if written c c' then 1 else 0) + count_written cs out.
Proof. unfold count_written. cbn. now destruct (written c c'). Qed.

Lemma count_written_same cs : count_written cs cs = 0.
Proof.
  induction cs as [|c cs IH]; [reflexivity|].
  now rewrite count_written_cons, written_same, IH.
Qed.

(** Every record written to has been counted. *)
Lemma enrich_loop_written : forall companies st,
  List.length (snd (enrich_loop st companies)) = List.length companies /\
  count_written companies (snd (enrich_loop st companies)) + enriched st
    <= enriched (fst (enrich_loop st companies)).
Proof.
  induction companies as [|c more IH]; intros st; cbn [enrich_loop].
  - cbn. split; [reflexivity | lia].
  - destruct (negb (has_website (website c))).
    { next_turn IH more. cbn [fst snd] in *.
      rewrite count_written_cons, written_same. cbn [List.length]. lia. }
    destruct (ENRICH_CAP <=? enriched st).
    { cbn [fst snd]. rewrite count_written_same. split; [reflexivity | lia]. }
    destruct (http_get (world st) (website c)) as [w o].
    destruct o as [|code text url];
      [|destruct (code =? 200); [destruct (BeautifulSoup text)|]];
      next_turn IH more; cbn [fst snd enriched] in *;
      rewrite count_written_cons; try rewrite written_same;
      cbn [List.length]; try (destruct (written _ _)); lia.
Qed.

(** A record without a usable website comes back as it was. *)
Lemma enrich_loop_no_website : forall companies st,
  Forall2 (fun c c' => has_website (website c) = true \/ c' = c)
    companies (snd (enrich_loop st companies)).
Proof.
  induction companies as [|c more IH]; intros st; cbn [enrich_loop].
  - constructor.
  - destruct (has_website (website c)) eqn:Hw; cbn [negb].
    + destruct (ENRICH_CAP <=? enriched st).
      { cbn [snd]. apply Forall2_same. auto. }
      destruct (http_get (world st) (website c)) as [w o].
      destruct o as [|code text url];
        [|destruct (code =? 200); [destruct (BeautifulSoup text)|]];
        next_turn IH more; cbn [snd] in *; constructor; auto.
    + next_turn IH more. cbn [snd] in *. constructor; auto.
Qed.

(** The requests go to the websites of the eligible records, in their
    order, none left out on the way. *)
Lemma enrich_loop_requests_in_order : forall companies st,
  exists n,
    n <= List.length (eligible companies) /\
    map fst (requests (fst (enrich_loop st companies))) =
    (map fst (requests st) ++ map website (firstn n (eligible companies)))%list.
Proof.
  induction companies as [|c more IH]; intros st; cbn [enrich_loop eligible filter].
  - exists 0. cbn. split; [lia | now rewrite app_nil_r].
  - fold (eligible more).
    destruct (has_website (website c)) eqn:Hw; cbn [negb].
    + destruct (ENRICH_CAP <=? enriched st).
      { exists 0. cbn. split; [lia | now rewrite app_nil_r]. }
      destruct (http_get (world st) (website c)) as [w o].
      destruct o as [|code text url];
        [|destruct (code =? 200); [destruct (BeautifulSoup text)|]];
        next_turn IH more; destruct IH as (n & Ln & E);
        cbn [fst requests] in *; exists (S n);
        (split; [cbn [List.length]; lia|]);
        rewrite E; unfold list_append; rewrite map_app;
        cbn [map fst firstn]; now rewrite <- app_assoc.
    + next_turn IH more. destruct IH as (n & Ln & E). cbn [fst] in *.
      exists n. split; [exact Ln | exact E].
Qed.

Lemma enriched_from_key c c' :
  enriched_from http_get BeautifulSoup find_meta_description c c' ->
  dedup_key c' = dedup_key c.
Proof.
  intros [->|(w0 & w1 & text & url & soup & _ & _ & ->)]; [reflexivity|].
  destruct (enrich_record_spec Soup find_meta_description text soup c) as (U & _).
  unfold untouched in U. unfold dedup_key.
  assert (name (enrich_record text soup c) = name c /\
          city (enrich_record text soup c) = city c) as [-> ->];
    [|reflexivity].
  revert U. generalize (enrich_record text soup c). intros c'.
  destruct c, c'. cbn. intros [= -> _ -> _ _ _ _ _ _ _ _ _]. now split.
Qed.

Lemma try_suffixes_log base : forall suffixes w log,
  List.length (snd (fst (try_suffixes w log base suffixes)))
    <= List.length log + List.length suffixes.
Proof.
  induction suffixes as [|suffix more IH]; intros w log; cbn [try_suffixes].
  - cbn. lia.
  - destruct (http_get w (base ++ suffix)) as [w1 o].
    assert (Next : List.length
                     (snd (fst (try_suffixes w1
                                  (list_append log (base ++ suffix, o)) base more)))
                   <= List.length log + List.length (suffix :: more)).
    { eapply Nat.le_trans; [apply IH|].
      unfold list_append. rewrite length_app. cbn. lia. }
    destruct o as [|code text url]; [exact Next|].
    destruct (code =? 200); [|exact Next].
    destruct (extract_emails text); [exact Next|].
    cbn. unfold list_append. rewrite length_app. cbn. lia.
Qed.

End EnrichMore.

(** X7: however the network behaves, [enrich_from_websites] returns as
    many records as it was given, with the same identity keys, leaves a
    record without a usable website as it was, and writes the email or the
    description of at most 200 records: every record written to has been
    counted by [enriched], which never passes the cap. *)
Theorem X7_enrichment_writes_at_most_cap_records :
  forall (World Soup : Type)
         (http_get : World -> string -> World * outcome)
         (BeautifulSoup : string -> option Soup)
         (find_meta_description : Soup -> option string)
         (w : World) (companies : list InsuranceCompany),
    let run := enrich_from_websites World http_get Soup BeautifulSoup
                 find_meta_description w companies in
    List.length (snd run) = List.length companies /\
    map dedup_key (snd run) = map dedup_key companies /\
    Forall2 (fun c c' => has_website (website c) = true \/ c' = c)
      companies (snd run) /\
    count_written companies (snd run) <= enriched (fst run) /\
    enriched (fst run) <= ENRICH_CAP.
Proof.
  intros World Soup http_get BeautifulSoup find_meta_description w companies run.
  subst run. unfold enrich_from_websites.
  destruct (enrich_loop_written World http_get Soup BeautifulSoup
              find_meta_description companies (EnrichState w 0 [])) as [L C].
  split; [exact L|]. split; [|split; [|split]].
  - pose proof (enrich_loop_enriched_from World http_get Soup BeautifulSoup
                  find_meta_description companies (EnrichState w 0 [])) as F.
    eapply Forall2_map_eq; [exact F|].
    intros c c' R. eapply enriched_from_key. exact R.
  - apply enrich_loop_no_website.
  - cbn [enriched] in C. lia.
  - apply enrich_loop_counter. cbn. unfold ENRICH_CAP. lia.
Qed.

(** X8: the requests of [enrich_from_websites] are one GET for each of the
    first n eligible records, in input order and with none left out on
    the way, for some n: a record without a usable website is never
    requested, and no record is requested twice. *)
Theorem X8_enrichment_requests_in_input_order :
  forall (World Soup : Type)
         (http_get : World -> string -> World * outcome)
         (BeautifulSoup : string -> option Soup)
         (find_meta_description : Soup -> option string)
         (w : World) (companies : list InsuranceCompany),
    exists n,
      n <= List.length (eligible companies) /\
      map fst (requests (fst (enrich_from_websites World http_get Soup
                                BeautifulSoup find_meta_description w companies)))
      = map website (firstn n (eligible companies)).
Proof.
  intros World Soup http_get BeautifulSoup find_meta_description w companies.
  unfold enrich_from_websites.
  destruct (enrich_loop_requests_in_order World http_get Soup BeautifulSoup
              find_meta_description companies (EnrichState w 0 []))
    as (n & L & E).
  exists n. split; [exact L | exact E].
Qed.

(** X9: [scrape_website_for_email] makes no request for a website that is
    empty or does not start with "http", and at most six requests
    otherwise, the first one to the website itself; what it returns is
    empty, or the first address extracted from the last page it requested,
    no page before that one having yielded an address. *)
Theorem X9_scrape_website_for_email_bounds :
  forall (World : Type) (http_get : World -> string -> World * outcome)
         (urlparse : string -> option (string * string))
         (w : World) (website : string),
    let run := scrape_website_for_email World http_get urlparse w website in
    let log := snd (fst run) in
    let found := snd run in
    List.length log <= 6 /\
    (has_website website = false /\ log = [] /\ found = "" /\ fst (fst run) = w \/
     has_website website = true /\ exists o rs, log = (website, o) :: rs) /\
    (found = "" \/
     exists init q, log = (init ++ [q])%list /\ yields (snd q) = Some found /\
                    Forall (fun p => yields (snd p) = None) init).
Proof.
  intros World http_get urlparse w website run log found.
  subst run log found. unfold scrape_website_for_email.
  destruct (has_website website) eqn:Hw; cbn [negb].
  2:{ cbn. split; [lia|]. split; [left; auto | left; reflexivity]. }
  destruct (http_get w website) as [w1 o] eqn:G.
  destruct o as [|code text url].
  { cbn. split; [lia|]. split; [|left; reflexivity].
    right. split; [reflexivity|]. eauto. }
  destruct (code =? 200) eqn:C; cbn [negb].
  2:{ cbn. split; [lia|]. split; [|left; reflexivity].
      right. split; [reflexivity|]. eauto. }
  destruct (extract_emails text) as [|em ems] eqn:X.
  2:{ cbn. split; [lia|]. split; [right; split; [reflexivity|]; eauto|].
      right. exists [], (website, Response code text url).
      split; [reflexivity|]. split; [|constructor].
      cbn. now rewrite C, X. }
  destruct (urlparse url) as [[scheme netloc]|].
  2:{ cbn. split; [lia|]. split; [|left; reflexivity].
      right. split; [reflexivity|]. eauto. }
  pose proof (try_suffixes_log World http_get (scheme ++ "://" ++ netloc)
                SUFFIXES w1 [(website, Response code text url)]) as Len.
  destruct (try_suffixes World http_get w1 [(website, Response code text url)]
              (scheme ++ "://" ++ netloc) SUFFIXES) as [[w' log'] e] eqn:T.
  cbn [fst snd] in *.
  apply try_suffixes_spec in T as (rs & n & -> & M & Hcase).
  split; [cbn in Len |- *; lia|]. split.
  - right. split; [reflexivity|]. cbn [app]. eauto.
  - destruct Hcase as [(rs0 & r & -> & F & Y)|(-> & _)]; [|now left].
    right. exists ((website, Response code text url) :: rs0), r.
    split; [reflexivity|]. split; [exact Y|].
    constructor; [|exact F]. cbn. now rewrite C, X.
Qed.

(** ** The registry document *)

Section Registry.

Lemma keep_some_loop {A B} (f : A -> option B) l : forall acc,
  fold_left (fun acc x => match f x with
                          | Some y => list_append acc y
                          | None => acc
                          end) l acc
  = (acc ++ keep_some f l)%list.
Proof.
  induction l as [|x l IH]; intros acc; cbn [fold_left keep_some].
  - now rewrite app_nil_r.
  - rewrite IH. destruct (f x); [|reflexivity].
    unfold list_append. now rewrite <- app_assoc.
Qed.

Lemma keep_some_In {A B} (f : A -> option B) l y :
  In y (keep_some f l) <-> exists x, In x l /\ f x = Some y.
Proof.
  induction l as [|x l IH]; cbn [keep_some].
  - split; [intros [] | intros (x & [] & _)].
  - destruct (f x) as [z|] eqn:E; cbn [In]; rewrite IH; split.
    + intros [<-|(x' & I & H)]; [exists x; auto | exists x'; auto].
    + intros (x' & [<-|I] & H); [left; congruence | right; eauto].
    + intros (x' & I & H). exists x'; auto.
    + intros (x' & [<-|I] & H); [congruence | eauto].
Qed.

Lemma keep_some_length {A B} (f : A -> option B) l :
  List.length (keep_some f l) <= List.length l.
Proof.
  induction l as [|x l IH]; cbn; [lia|]. destruct (f x); cbn; lia.
Qed.

Lemma cdi_records_eq pdf_url all_text :
  cdi_records pdf_url all_text =
  keep_some (cdi_record pdf_url) (split (String newline "") all_text).
Proof. unfold cdi_records. now rewrite keep_some_loop. Qed.

Lemma strip_trimmed s : trimmed (strip s).
Proof.
  unfold strip. split; intros c H.
  - apply first_char_rstrip in H. now apply first_char_lstrip in H.
  - now apply last_char_rstrip in H.
Qed.

Lemma Matches_group_text a st st' :
  Matches (Group a) st st' ->
  exists g, grp st' = Some g /\ rest st = g ++ rest st' /\ lang a g.
Proof.
  inversion 1 as [| | | | | | |a' st0 st1 M| ]; subst.
  destruct (Matches_lang _ _ _ M) as (w & E & L).
  exists w. split; [|split; [exact E | exact L]].
  unfold close_group, consumed; cbn. rewrite E, length_append.
  replace (String.length w + String.length (rest st1) - String.length (rest st1))
    with (String.length w) by lia.
  now rewrite substring_0_append.
Qed.

Lemma lang_UpTo_Chr p k : forall w,
  lang (UpTo k (Chr p)) w -> String.length w <= k /\ all_chars p w = true.
Proof.
  induction k as [|k IH]; intros w L; cbn [UpTo] in L.
  - apply lang_Eps_inv in L as ->. cbn. split; [lia | reflexivity].
  - apply lang_Opt_inv in L as [->|L]; [cbn; split; [lia | reflexivity]|].
    apply lang_Seq_inv in L as (w1 & w2 & -> & L1 & L2).
    apply lang_Chr_inv in L1 as (c & -> & Hc). apply IH in L2 as [Len A].
    cbn. rewrite Hc, A. split; [lia | reflexivity].
Qed.

Lemma at_end_spec st m :
  at_end st = Some m -> m = st /\ all_chars isspace (rest st) = true.
Proof.
  unfold at_end. destruct (rest st) as [|c [|d t]] eqn:E; try discriminate.
  - intros [= <-]. now split.
  - unfold is_newline, is_char. destruct (Ascii.eqb_spec newline c) as [<-|]; [|discriminate].
    intros [= <-]. now split.
Qed.

(** What the second part of the pattern has read when it succeeds: white
    space, the code, and white space to the end. *)
Lemma naic_tail_sound st m :
  exec NAIC_TAIL st at_end = Some m ->
  exists ws g t,
    rest st = ws ++ g ++ t /\ group1 m = g /\
    ws <> "" /\ all_chars isspace ws = true /\
    naic_shaped g /\ all_chars isspace t = true.
Proof.
  intros H. apply exec_sound in H as (st' & M & E).
  apply at_end_spec in E as [-> Tend].
  unfold NAIC_TAIL in M.
  apply Matches_Seq_inv in M as (st1 & M1 & M).
  apply Matches_Seq_inv in M as (st2 & M2 & M3).
  apply Matches_lang in M1 as (ws & E1 & L1).
  apply Matches_group_text in M2 as (g & G & E2 & L2).
  pose proof (Matches_keeps_group _ _ _ M3 eq_refl) as K.
  apply Matches_lang in M3 as (ws' & E3 & L3).
  apply lang_Plus_Chr in L1 as [A1 N1]. apply lang_Star_Chr in L3.
  apply lang_Seq_inv in L2 as (d4 & d2 & -> & L4 & L5).
  apply lang_Times_Chr in L4 as [Len4 A4]. apply lang_UpTo_Chr in L5 as [Len2 A2].
  exists ws, (d4 ++ d2), (ws' ++ rest st').
  split; [now rewrite E1, E2, E3|].
  split; [unfold group1; now rewrite K, G|].
  split; [exact N1|]. split; [exact A1|]. split.
  - split; [now rewrite all_chars_append, A4, A2 | rewrite length_append; lia].
  - now rewrite all_chars_append, L3, Tend.
Qed.

Lemma naic_match_from_sound : forall s taken g1 g2,
  naic_match_from taken s = Some (g1, g2) ->
  exists p ws t,
    s = p ++ ws ++ g2 ++ t /\ g1 = taken ++ p /\ p <> "" /\
    ws <> "" /\ all_chars isspace ws = true /\
    naic_shaped g2 /\ all_chars isspace t = true.
Proof.
  induction s as [|c s IH]; intros taken g1 g2 H; cbn [naic_match_from] in H;
    [discriminate|].
  destruct (is_newline c); [discriminate|].
  destruct (exec NAIC_TAIL (MState (Some c) s None) at_end) as [m|] eqn:E.
  - injection H as <- <-.
    apply naic_tail_sound in E as (ws & g & t & Es & <- & N & A & S & T).
    cbn [rest] in Es. exists (String c ""), ws, t.
    split; [cbn; now rewrite Es|]. repeat split; auto; try apply S. discriminate.
  - apply IH in H as (p & ws & t & -> & -> & Np & N & A & S & T).
    exists (String c p), ws, t.
    split; [reflexivity|]. split; [now rewrite append_assoc|].
    repeat split; auto; try apply S. discriminate.
Qed.

Lemma split_entry_occurs sep s x : In x (split sep s) -> occurs_in x s.
Proof.
  intros I. apply split_from_occurs in I as [(t & b & -> & E)|O]; [|exact O].
  exists "", b. exact E.
Qed.


Lemma digit_not_space c : is_digit c = true -> isspace c = false.
Proof.
  destruct c as [[] [] [] [] [] [] [] []]; vm_compute; congruence.
Qed.

Lemma last_char_cons c s : s <> "" -> last_char (String c s) = last_char s.
Proof. destruct s; [congruence | reflexivity]. Qed.

Lemma last_char_append a b : b <> "" -> last_char (a ++ b) = last_char b.
Proof.
  intros N. induction a as [|c a IH]; [reflexivity|].
  cbn [append]. rewrite last_char_cons; [exact IH|].
  destruct a; [exact N | discriminate].
Qed.

Lemma last_char_some s : s <> "" -> exists c, last_char s = Some c.
Proof.
  induction s as [|c s IH]; [congruence|]. intros _.
  destruct s as [|d s]; [now exists c|].
  rewrite last_char_cons by discriminate. apply IH. discriminate.
Qed.

Lemma all_chars_last p s c :
  all_chars p s = true -> last_char s = Some c -> p c = true.
Proof.
  induction s as [|d s IH]; [discriminate|]. intros A L.
  cbn [all_chars] in A. apply andb_true_iff in A as [Hd A].
  destruct s as [|e s]; [now injection L as <-|].
  rewrite last_char_cons in L by discriminate. now apply IH.
Qed.

(** A text is cut in one way only into a part that does not end in a
    [p]-character and a run of [p]-characters. *)
Lemma run_at_end_unique p : forall x y u v,
  x ++ u = y ++ v ->
  all_chars p u = true -> all_chars p v = true ->
  (forall c, last_char x = Some c -> p c = false) ->
  (forall c, last_char y = Some c -> p c = false) ->
  x = y /\ u = v.
Proof.
  assert (Base : forall y u v, u = y ++ v -> all_chars p u = true ->
            (forall c, last_char y = Some c -> p c = false) -> y = "").
  { intros y u v -> A Hy. destruct y as [|c y]; [reflexivity|]. exfalso.
    rewrite all_chars_append in A. apply andb_true_iff in A as [A _].
    destruct (last_char_some (String c y)) as (d & L); [discriminate|].
    pose proof (all_chars_last _ _ _ A L). rewrite (Hy _ L) in *. discriminate. }
  induction x as [|a x IH]; intros y u v E Au Av Hx Hy.
  - cbn [append] in E. pose proof (Base _ _ _ E Au Hy) as ->. now split.
  - destruct y as [|b y].
    + cbn [append] in E. symmetry in E.
      pose proof (Base (String a x) v u E Av Hx). discriminate.
    + cbn [append] in E. injection E as <- E.
      destruct (IH y u v E Au Av) as [-> ->]; [| |now split].
      * intros c L. apply Hx. rewrite last_char_cons; [exact L|].
        intros ->. discriminate.
      * intros c L. apply Hy. rewrite last_char_cons; [exact L|].
        intros ->. discriminate.
Qed.

(** The end of a line with a code is read in one way only. *)
Lemma naic_tail_unique x sep code ws g t :
  x ++ sep ++ code = ws ++ g ++ t ->
  sep <> "" -> all_chars isspace sep = true -> naic_shaped code ->
  ws <> "" -> all_chars isspace ws = true -> naic_shaped g ->
  all_chars isspace t = true ->
  t = "" /\ ws = x ++ sep /\ g = code.
Proof.
  intros E Ns As [Ac Lc] Nw Aw [Ag Lg] At.
  assert (Nc : code <> "") by (intros ->; cbn in Lc; lia).
  assert (Ng : g <> "") by (intros ->; cbn in Lg; lia).
  assert (Et : t = "").
  { destruct t as [|c t]; [reflexivity|]. exfalso.
    destruct (last_char_some (String c t)) as (d & L); [discriminate|].
    assert (L' : last_char (x ++ sep ++ code) = Some d).
    { rewrite E, <- append_assoc, last_char_append by discriminate. exact L. }
    rewrite <- append_assoc, last_char_append in L' by exact Nc.
    pose proof (all_chars_last _ _ _ Ac L') as D.
    pose proof (all_chars_last _ _ _ At L) as S.
    rewrite (digit_not_space _ D) in S. discriminate. }
  subst t. rewrite append_nil_r in E. rewrite <- append_assoc in E.
  assert (Sp : forall s c, s <> "" -> all_chars isspace s = true ->
                 forall y, last_char (y ++ s) = Some c -> is_digit c = false).
  { intros s c N A y L. rewrite last_char_append in L by exact N.
    pose proof (all_chars_last _ _ _ A L) as S.
    destruct (is_digit c) eqn:D; [|reflexivity].
    rewrite (digit_not_space _ D) in S. discriminate. }
  destruct (run_at_end_unique is_digit (x ++ sep) ws code g E Ac Ag) as [-> ->].
  - intros c. apply Sp; assumption.
  - intros c L. apply (Sp ws c Nw Aw ""). exact L.
  - now split.
Qed.

Lemma Matches_Star_Chr p : forall w b t g,
  all_chars p w = true ->
  exists b', Matches (Star (Chr p)) (MState b (w ++ t) g) (MState b' t g).
Proof.
  induction w as [|c w IH]; intros b t g A.
  - exists b. apply M_Star_nil.
  - cbn [all_chars] in A. apply andb_true_iff in A as [Hc A].
    destruct (IH (Some c) t g A) as (b' & M). exists b'.
    eapply M_Star_cons; [| |exact M].
    + apply (M_Chr p c (w ++ t) (MState b (String c w ++ t) g)); [reflexivity | exact Hc].
    + cbn. lia.
Qed.

Lemma Matches_UpTo_Chr p : forall k w b t g,
  all_chars p w = true -> String.length w <= k ->
  exists b', Matches (UpTo k (Chr p)) (MState b (w ++ t) g) (MState b' t g).
Proof.
  induction k as [|k IH]; intros w b t g A L.
  - destruct w; [|cbn in L; lia]. exists b. apply M_Eps.
  - destruct w as [|c w]; [exists b; apply M_Opt_none|].
    cbn [all_chars] in A. apply andb_true_iff in A as [Hc A].
    destruct (IH w (Some c) t g A) as (b' & M); [cbn in L; lia|].
    exists b'. cbn [UpTo]. apply M_Opt_some. eapply M_Seq; [|exact M].
    apply (M_Chr p c (w ++ t) (MState b (String c w ++ t) g)); [reflexivity | exact Hc].
Qed.

Lemma Matches_Times_UpTo p k : forall n w b t g,
  all_chars p w = true -> n <= String.length w <= n + k ->
  exists b', Matches (Seq (Times n (Chr p)) (UpTo k (Chr p)))
               (MState b (w ++ t) g) (MState b' t g).
Proof.
  induction n as [|n IH]; intros w b t g A L.
  - destruct (Matches_UpTo_Chr p k w b t g A) as (b' & M); [lia|].
    exists b'. eapply M_Seq; [apply M_Eps | exact M].
  - destruct w as [|c w]; [cbn in L; lia|].
    cbn [all_chars] in A. apply andb_true_iff in A as [Hc A].
    destruct (IH w (Some c) t g A) as (b' & M); [cbn in L; lia|].
    apply Matches_Seq_inv in M as (st1 & M1 & M2).
    exists b'. cbn [Times]. eapply M_Seq; [|exact M2].
    eapply M_Seq; [|exact M1].
    apply (M_Chr p c (w ++ t) (MState b (String c w ++ t) g)); [reflexivity | exact Hc].
Qed.

(** The second part of the pattern reads white space and a code at the
    end of the text, and gives the code as its group. *)
Lemma naic_tail_complete b sep code :
  sep <> "" -> all_chars isspace sep = true -> naic_shaped code ->
  exists m, exec NAIC_TAIL (MState b (sep ++ code) None) at_end = Some m /\
            group1 m = code.
Proof.
  intros Ns As Sc.
  assert (M : exists st', Matches NAIC_TAIL (MState b (sep ++ code) None) st' /\
                          rest st' = "").
  { destruct sep as [|c sep]; [congruence|].
    cbn [all_chars] in As. apply andb_true_iff in As as [Hc As].
    destruct (Matches_Star_Chr isspace sep (Some c) code None As) as (b1 & M1).
    destruct Sc as [Ac Lc].
    destruct (Matches_Times_UpTo is_digit 2 4 code b1 "" None Ac) as (b2 & M2); [lia|].
    rewrite append_nil_r in M2.
    eexists. split.
    - unfold NAIC_TAIL. eapply M_Seq.
      + unfold Plus. eapply M_Seq; [|exact M1].
        apply (M_Chr isspace c (sep ++ code)
                 (MState b (String c sep ++ code) None)); [reflexivity | exact Hc].
      + eapply M_Seq; [apply M_Group; exact M2 | apply M_Star_nil].
    - reflexivity. }
  destruct M as (st' & M & R).
  destruct (exec_complete _ _ _ M at_end st') as (m & E).
  { unfold at_end. now rewrite R. }
  exists m. split; [exact E|].
  apply naic_tail_sound in E as (ws & g & t & Es & Eg & Nw & Aw & Sg & At).
  cbn [rest] in Es. rewrite Eg.
  destruct (naic_tail_unique "" sep code ws g t Es) as (_ & _ & ->); auto.
Qed.

(** The lazy first group stops at the end of a name that is followed by
    white space and a code. *)
Lemma naic_match_from_name sep code :
  sep <> "" -> all_chars isspace sep = true -> naic_shaped code ->
  forall name taken,
    name <> "" ->
    all_chars (fun c => negb (is_newline c)) name = true ->
    (forall c, last_char name = Some c -> isspace c = false) ->
    naic_match_from taken (name ++ sep ++ code) = Some (taken ++ name, code).
Proof.
  intros Ns As Sc nm. induction nm as [|c name IH]; intros taken N A L;
    [congruence|].
  cbn [all_chars] in A. apply andb_true_iff in A as [Hc A].
  apply negb_true_iff in Hc.
  cbn [append naic_match_from]. rewrite Hc.
  destruct name as [|d name].
  - cbn [append].
    destruct (naic_tail_complete (Some c) sep code Ns As Sc) as (m & -> & ->).
    reflexivity.
  - destruct (exec NAIC_TAIL _ at_end) as [m|] eqn:E.
    + exfalso.
      apply naic_tail_sound in E as (ws & g & t & Es & _ & Nw & Aw & Sg & At).
      cbn [rest] in Es.
      destruct (naic_tail_unique _ sep code ws g t Es) as (_ & -> & _); auto.
      rewrite all_chars_append in Aw. apply andb_true_iff in Aw as [Aw _].
      destruct (last_char_some (String d name)) as (e & Le); [discriminate|].
      pose proof (all_chars_last _ _ _ Aw Le) as S.
      rewrite (L e) in S; [discriminate|].
      rewrite last_char_cons by discriminate. exact Le.
    + rewrite IH; [now rewrite append_assoc | discriminate | exact A |].
      intros e Le. apply L. rewrite last_char_cons by discriminate. exact Le.
Qed.

Lemma lstrip_id s :
  (forall c, first_char s = Some c -> isspace c = false) -> lstrip s = s.
Proof.
  destruct s as [|c s]; [reflexivity|]. intros H. cbn [lstrip].
  now rewrite (H c eq_refl).
Qed.

Lemma rstrip_id s :
  (forall c, last_char s = Some c -> isspace c = false) -> rstrip s = s.
Proof.
  induction s as [|c s IH]; [reflexivity|]. intros H. cbn [rstrip].
  destruct s as [|d s].
  - cbn [rstrip]. now rewrite (H c eq_refl).
  - rewrite IH; [reflexivity|].
    intros e L. apply H. rewrite last_char_cons by discriminate. exact L.
Qed.

Lemma strip_id s : trimmed s -> strip s = s.
Proof.
  intros [F L]. unfold strip. rewrite (lstrip_id s F). now apply rstrip_id.
Qed.

Lemma naic_match_none line :
  (forall c, last_char line = Some c -> is_digit c = false /\ isspace c = false) ->
  naic_match line = None.
Proof.
  intros H. unfold naic_match.
  destruct (naic_match_from "" line) as [[g1 g2]|] eqn:M; [exfalso|reflexivity].
  apply naic_match_from_sound in M as (p & ws & t & -> & _ & _ & _ & _ & [Ag Lg] & At).
  assert (Ng : g2 <> "") by (intros ->; cbn in Lg; lia).
  destruct t as [|c t].
  - rewrite append_nil_r, <- append_assoc in H.
    destruct (last_char_some g2 Ng) as (d & L).
    pose proof (all_chars_last _ _ _ Ag L) as D.
    destruct (H d) as [D' _]; [now rewrite last_char_append|].
    rewrite D' in D. discriminate.
  - destruct (last_char_some (String c t)) as (d & L); [discriminate|].
    pose proof (all_chars_last _ _ _ At L) as S.
    destruct (H d) as [_ S'].
    + rewrite <- !append_assoc, last_char_append by discriminate. exact L.
    + rewrite S' in S. discriminate.
Qed.

(** The pages' texts, one after the other. *)
Lemma cdi_text_from pages : forall acc,
  fold_left (fun all_text page =>
               all_text ++ match page with Some t => t | None => "" end)
            pages acc
  = acc ++ cdi_text pages.
Proof.
  unfold cdi_text.
  induction pages as [|p pages IH]; intros acc; cbn [fold_left].
  - now rewrite append_nil_r.
  - rewrite IH. rewrite (IH ("" ++ _)). cbn [append]. now rewrite append_assoc.
Qed.

Lemma cdi_text_app ps qs : cdi_text (ps ++ qs) = cdi_text ps ++ cdi_text qs.
Proof.
  unfold cdi_text at 1. rewrite fold_left_app. fold (cdi_text ps).
  apply cdi_text_from.
Qed.

Lemma split_newline_step c s cur :
  split_from (String newline "") (String c s) 0 cur =
  if is_newline c
  then cur :: split_from (String newline "") s 0 ""
  else split_from (String newline "") s 0 (cur ++ String c "").
Proof.
  cbn [split_from startswith String.length pred].
  unfold is_newline, is_char. destruct (Ascii.eqb newline c); [|reflexivity].
  now destruct s.
Qed.

Lemma split_newline_cur : forall s cur,
  split_from (String newline "") s 0 cur =
  (cur ++ hd "" (split (String newline "") s)) :: tl (split (String newline "") s).
Proof.
  unfold split.
  induction s as [|c s IH]; intros cur.
  - cbn. now rewrite append_nil_r.
  - rewrite !split_newline_step. destruct (is_newline c).
    + cbn [hd tl]. now rewrite append_nil_r.
    + rewrite IH. rewrite (IH ("" ++ _)). cbn [hd tl append].
      now rewrite append_assoc.
Qed.

Lemma split_newline_app : forall a b cur,
  split_from (String newline "") (a ++ b) 0 cur =
  (removelast (split_from (String newline "") a 0 cur) ++
   [(last (split_from (String newline "") a 0 cur) "" ++
     hd "" (split (String newline "") b))%string] ++
   tl (split (String newline "") b))%list.
Proof.
  induction a as [|c a IH]; intros b cur.
  - cbn [append split_from removelast last app]. apply split_newline_cur.
  - cbn [append]. rewrite !split_newline_step. destruct (is_newline c).
    + rewrite IH.
      assert (N : split_from (String newline "") a 0 "" <> []).
      { rewrite split_newline_cur. discriminate. }
      destruct (split_from (String newline "") a 0 "") as [|l ls] eqn:Sa;
        [congruence|].
      reflexivity.
    + apply IH.
Qed.

End Registry.


(** ** The lines of the registry document as texts of arbitrary code
    points *)

Section WideRegistry.

Import Uni.

Variable db : unicode.

Local Abbreviation exec := (exec db).
Local Abbreviation Matches := (Matches db).
Local Abbreviation isspace := (isspace db).
Local Abbreviation isdecimal := (isdecimal db).
Local Abbreviation strip := (strip db).
Local Abbreviation lstrip := (lstrip db).
Local Abbreviation rstrip := (rstrip db).
Local Abbreviation NAIC_TAIL := (NAIC_TAIL db).
Local Abbreviation naic_match_from := (naic_match_from db).
Local Abbreviation naic_match := (naic_match db).
Local Abbreviation naic_shaped := (naic_shaped db).

Lemma occurs_in_trans_u x y z : occurs_in x y -> occurs_in y z -> occurs_in x z.
Proof.
  intros (a & b & ->) (c & d & ->). exists (c ++ a)%list, (b ++ d)%list.
  now rewrite <- !app_assoc.
Qed.

Lemma occurs_in_prefix_u w t : occurs_in w (w ++ t)%list.
Proof. now exists [], t. Qed.

Lemma lstrip_suffix_u s : exists a, s = (a ++ lstrip s)%list.
Proof.
  induction s as [|c s (a & IH)]; [now exists []|].
  cbn [Uni.lstrip]. destruct (isspace c); [|now exists []].
  exists (c :: a). cbn. now rewrite <- IH.
Qed.

Lemma rstrip_prefix_u s : exists b, s = (rstrip s ++ b)%list.
Proof.
  induction s as [|c s (b & IH)]; [now exists []|].
  cbn [Uni.rstrip]. destruct (rstrip s) as [|d t] eqn:E.
  - destruct (isspace c); [now exists (c :: s)|].
    exists s. reflexivity.
  - exists b. cbn [app]. now rewrite IH at 1.
Qed.

Lemma strip_occurs_u s : occurs_in (strip s) s.
Proof.
  unfold Uni.strip. destruct (lstrip_suffix_u s) as (a & Ea).
  destruct (rstrip_prefix_u (lstrip s)) as (b & Eb).
  exists a, b. now rewrite <- Eb.
Qed.

Lemma last_char_cons_u c s : s <> [] -> last_char (c :: s) = last_char s.
Proof. destruct s; [congruence | reflexivity]. Qed.

Lemma last_char_app_u a b : b <> [] -> last_char (a ++ b)%list = last_char b.
Proof.
  intros N. induction a as [|c a IH]; [reflexivity|].
  cbn [app]. rewrite last_char_cons_u; [exact IH|].
  destruct a; [exact N | discriminate].
Qed.

Lemma last_char_some_u s : s <> [] -> exists c, last_char s = Some c.
Proof.
  induction s as [|c s IH]; [congruence|]. intros _.
  destruct s as [|d s]; [now exists c|].
  rewrite last_char_cons_u by discriminate. apply IH. discriminate.
Qed.

Lemma all_chars_last_u p s c :
  all_chars p s = true -> last_char s = Some c -> p c = true.
Proof.
  unfold all_chars. induction s as [|d s IH]; [discriminate|]. intros A L.
  cbn [forallb] in A. apply andb_true_iff in A as [Hd A].
  destruct s as [|e s]; [now injection L as <-|].
  rewrite last_char_cons_u in L by discriminate. now apply IH.
Qed.

Lemma isspace_newline_u : isspace 10%N = true.
Proof. reflexivity. Qed.

Lemma at_end_spec_u st m :
  at_end st = Some m -> m = st /\ all_chars isspace (rest st) = true.
Proof.
  unfold at_end. destruct (rest st) as [|c [|d t]] eqn:E; try discriminate.
  - intros [= <-]. now split.
  - unfold is_newline. destruct (N.eqb_spec 10 c) as [<-|]; [|discriminate].
    intros [= <-]. now split.
Qed.

(** What the second part of the pattern has read when it succeeds: white
    space, the code, and white space to the end. *)
Lemma naic_tail_sound_u st m :
  exec NAIC_TAIL st at_end = Some m ->
  exists ws g t,
    rest st = (ws ++ g ++ t)%list /\ group1 m = g /\
    ws <> [] /\ all_chars isspace ws = true /\
    naic_shaped g /\ all_chars isspace t = true.
Proof.
  intros H. apply exec_sound_u in H as (st' & M & E).
  apply at_end_spec_u in E as [-> Tend].
  unfold Uni.NAIC_TAIL in M.
  apply Matches_Seq_inv_u in M as (st1 & M1 & M).
  apply Matches_Seq_inv_u in M as (st2 & M2 & M3).
  apply Matches_lang_u in M1 as (ws & E1 & L1).
  apply Matches_group_text_u in M2 as (g & G & E2 & L2).
  pose proof (Matches_keeps_group_u _ _ _ _ M3 eq_refl) as K.
  apply Matches_lang_u in M3 as (ws' & E3 & L3).
  apply lang_Plus_Chr_u in L1 as [A1 N1]. apply lang_Star_Chr_u in L3.
  apply lang_Seq_inv_u in L2 as (d4 & d2 & -> & L4 & L5).
  apply lang_Times_Chr_u in L4 as [Len4 A4]. apply lang_UpTo_Chr_u in L5 as [Len2 A2].
  exists ws, (d4 ++ d2)%list, (ws' ++ rest st')%list.
  split; [now rewrite E1, E2, E3|].
  split; [unfold group1; now rewrite K, G|].
  split; [exact N1|]. split; [exact A1|]. split.
  - split; [now rewrite all_chars_app_u, A4, A2 | rewrite length_app; lia].
  - now rewrite all_chars_app_u, L3, Tend.
Qed.

Lemma naic_match_from_sound_u : forall s taken g1 g2,
  naic_match_from taken s = Some (g1, g2) ->
  exists p ws t,
    s = (p ++ ws ++ g2 ++ t)%list /\ g1 = (taken ++ p)%list /\
    naic_shaped g2 /\ all_chars isspace t = true.
Proof.
  induction s as [|c s IH]; intros taken g1 g2 H; cbn [Uni.naic_match_from] in H;
    [discriminate|].
  destruct (is_newline c); [discriminate|].
  destruct (exec NAIC_TAIL (MState (Some c) s None) at_end) as [m|] eqn:E.
  - apply naic_tail_sound_u in E as (ws & g & t & Es & Eg & _ & _ & S & T).
    cbn [rest] in Es. injection H as <- <-. exists [c], ws, t.
    rewrite Eg. split; [cbn; now rewrite Es|].
    split; [reflexivity|]. split; [exact S | exact T].
  - apply IH in H as (p & ws & t & -> & -> & S & T).
    exists (c :: p), ws, t.
    split; [reflexivity|]. split; [now rewrite <- app_assoc|]. now split.
Qed.

Lemma naic_match_none_u line :
  (forall c, last_char line = Some c -> isdecimal c = false /\ isspace c = false) ->
  naic_match line = None.
Proof.
  intros H. unfold Uni.naic_match.
  destruct (naic_match_from [] line) as [[g1 g2]|] eqn:M; [exfalso|reflexivity].
  apply naic_match_from_sound_u in M as (p & ws & t & -> & _ & [Ag Lg] & At).
  assert (Ng : g2 <> []) by (intros ->; cbn in Lg; lia).
  destruct t as [|c t].
  - rewrite app_nil_r, app_assoc in H.
    destruct (last_char_some_u g2 Ng) as (d & L).
    pose proof (all_chars_last_u _ _ _ Ag L) as D.
    destruct (H d) as [D' _]; [now rewrite last_char_app_u|].
    rewrite D' in D. discriminate.
  - destruct (last_char_some_u (c :: t)) as (d & L); [discriminate|].
    pose proof (all_chars_last_u _ _ _ At L) as S.
    destruct (H d) as [_ S'].
    + rewrite !app_assoc, last_char_app_u by discriminate. exact L.
    + rewrite S' in S. discriminate.
Qed.

Lemma lstrip_id_u s :
  (forall c, first_char s = Some c -> isspace c = false) -> lstrip s = s.
Proof.
  destruct s as [|c s]; [reflexivity|]. intros H. cbn [Uni.lstrip].
  now rewrite (H c eq_refl).
Qed.

Lemma rstrip_id_u s :
  (forall c, last_char s = Some c -> isspace c = false) -> rstrip s = s.
Proof.
  induction s as [|c s IH]; [reflexivity|]. intros H. cbn [Uni.rstrip].
  destruct s as [|d s].
  - cbn [Uni.rstrip]. now rewrite (H c eq_refl).
  - rewrite IH; [reflexivity|].
    intros e L. apply H. rewrite last_char_cons_u by discriminate. exact L.
Qed.

Lemma strip_id_u s : trimmed db s -> strip s = s.
Proof.
  intros [F L]. unfold Uni.strip. rewrite (lstrip_id_u s F). now apply rstrip_id_u.
Qed.

(** What a line gives for the name and the code. *)
Lemma cdi_line_shape line nm naic_code :
  cdi_line db line = Some (nm, naic_code) ->
  (4 <= List.length nm /\ trimmed db nm /\ occurs_in nm line) /\
  (naic_code = [] \/ naic_shaped naic_code /\ occurs_in naic_code line).
Proof.
  intros H. unfold cdi_line in H.
  pose proof (strip_occurs_u line) as Hs.
  destruct (is_empty (strip line) || (List.length (strip line) <? 5));
    [discriminate|].
  destruct (existsb _ CDI_SKIP); [discriminate|].
  destruct (naic_match (strip line)) as [[g1 g2]|] eqn:M.
  - destruct (is_empty (strip g1) || (List.length (strip g1) <? 4)) eqn:Short;
      [discriminate|].
    injection H as <- <-.
    apply orb_false_iff in Short as [_ Short]. apply Nat.ltb_ge in Short.
    apply naic_match_from_sound_u in M as (p & ws & t & E & -> & S & _).
    cbn [app] in *. split.
    + split; [exact Short|]. split; [apply strip_trimmed_u|].
      eapply occurs_in_trans_u; [apply strip_occurs_u|].
      eapply occurs_in_trans_u; [|exact Hs]. rewrite E. apply occurs_in_prefix_u.
    + right. split; [exact S|].
      eapply occurs_in_trans_u; [|exact Hs]. rewrite E.
      exists (p ++ ws)%list, t. now rewrite <- !app_assoc.
  - destruct (is_empty (strip (strip line)) ||
              (List.length (strip (strip line)) <? 4)) eqn:Short; [discriminate|].
    injection H as <- <-.
    apply orb_false_iff in Short as [_ Short]. apply Nat.ltb_ge in Short.
    split; [|now left].
    split; [exact Short|]. split; [apply strip_trimmed_u|].
    eapply occurs_in_trans_u; [apply strip_occurs_u | exact Hs].
Qed.

Lemma cdi_line_without_code line :
  (forall c, last_char (strip line) = Some c -> isdecimal c = false) ->
  cdi_line db line =
  if (List.length (strip line) <? 5) ||
     existsb (fun skip => str_in (of_string skip) (upper db (strip line))) CDI_SKIP
  then None
  else Some (strip line, []).
Proof.
  intros H. unfold cdi_line.
  destruct (Nat.ltb_spec (List.length (strip line)) 5) as [Lt|Ge].
  - now rewrite orb_true_r.
  - rewrite orb_false_r.
    replace (is_empty (strip line)) with false
      by (destruct (strip line); [cbn in Ge; lia | reflexivity]).
    cbn [orb]. destruct (existsb _ CDI_SKIP); [reflexivity|].
    rewrite naic_match_none_u.
    + rewrite (strip_id_u _ (strip_trimmed_u db line)).
      replace (is_empty (strip line)) with false
        by (destruct (strip line); [cbn in Ge; lia | reflexivity]).
      destruct (Nat.ltb_spec (List.length (strip line)) 4) as [?|_]; [lia|].
      reflexivity.
    + intros c L. split; [now apply H|].
      now apply (proj2 (strip_trimmed_u db line)).
Qed.

End WideRegistry.

(** *** Lines of code points below 256 *)

Section RegistryBelow.

Variable db : Uni.unicode.

Lemma is_empty_below s : Uni.is_empty (Uni.of_string s) = is_empty s.
Proof. now destruct s. Qed.

Lemma upper_char_below c :
  Uni.upper_char db (N_of_ascii c) =
  map wide_capital (Uni.of_string (upper_char c)).
Proof. destruct c as [[] [] [] [] [] [] [] []]; vm_compute; reflexivity. Qed.

Lemma upper_below s :
  Uni.upper db (Uni.of_string s) = map wide_capital (Uni.of_string (upper s)).
Proof.
  unfold Uni.upper.
  induction s as [|c s IH]; cbn [Uni.of_string upper flat_map]; [reflexivity|].
  now rewrite IH, upper_char_below, of_string_append, map_app.
Qed.

Lemma eqb_capital a b :
  (code a <? 128) = true ->
  N.eqb (N_of_ascii a) (wide_capital (N_of_ascii b)) = Ascii.eqb a b.
Proof.
  intros A. unfold wide_capital.
  destruct (N.eqb_spec (N_of_ascii b) 181) as [E|_].
  { assert (B : b = ascii_of_N 181) by now rewrite <- E, ascii_N_embedding.
    subst b. destruct a as [[] [] [] [] [] [] [] []]; try discriminate A;
      reflexivity. }
  destruct (N.eqb_spec (N_of_ascii b) 255) as [E|_].
  { assert (B : b = ascii_of_N 255) by now rewrite <- E, ascii_N_embedding.
    subst b. destruct a as [[] [] [] [] [] [] [] []]; try discriminate A;
      reflexivity. }
  apply (is_char_below a b).
Qed.

Lemma startswith_capital : forall p s,
  all_chars (fun a => code a <? 128) p = true ->
  Uni.startswith (Uni.of_string p) (map wide_capital (Uni.of_string s)) =
  startswith p s.
Proof.
  induction p as [|a p IH]; intros [|b s] A;
    cbn [Uni.of_string map Uni.startswith startswith]; try reflexivity.
  cbn [all_chars] in A. apply andb_true_iff in A as [A1 A2].
  now rewrite eqb_capital, IH.
Qed.

Lemma str_in_capital p :
  all_chars (fun a => code a <? 128) p = true ->
  forall s,
    Uni.str_in (Uni.of_string p) (map wide_capital (Uni.of_string s)) =
    str_in p s.
Proof.
  intros A. induction s as [|b s IH].
  - cbn [Uni.of_string map Uni.str_in str_in]. f_equal.
    apply (startswith_capital p "" A).
  - cbn [Uni.of_string map Uni.str_in str_in].
    rewrite <- IH. f_equal. apply (startswith_capital p (String b s) A).
Qed.

Lemma skip_below s :
  existsb (fun skip => Uni.str_in (Uni.of_string skip)
                         (Uni.upper db (Uni.of_string s))) CDI_SKIP =
  existsb (fun skip => str_in skip (upper s)) CDI_SKIP.
Proof.
  rewrite upper_below. unfold CDI_SKIP. cbn [existsb].
  now rewrite !str_in_capital by reflexivity.
Qed.

Lemma same_pattern_NAIC : same_pattern NAIC_TAIL (Uni.NAIC_TAIL db).
Proof.
  unfold NAIC_TAIL, Uni.NAIC_TAIL. repeat constructor;
    intros c; first [apply is_char_below | apply class_below].
Qed.

Lemma at_end_below st : Uni.at_end (emb st) = option_map emb (at_end st).
Proof.
  unfold Uni.at_end, at_end. cbn [emb Uni.rest].
  destruct (rest st) as [|c [|d s]]; cbn [Uni.of_string]; try reflexivity.
  change (Uni.is_newline (N_of_ascii c)) with (Uni.is_char newline (N_of_ascii c)).
  rewrite is_char_below. fold (is_newline c). now destruct (is_newline c).
Qed.

Lemma naic_match_from_below : forall s taken,
  Uni.naic_match_from db (Uni.of_string taken) (Uni.of_string s) =
  option_map (fun g => (Uni.of_string (fst g), Uni.of_string (snd g)))
             (naic_match_from taken s).
Proof.
  induction s as [|c s IH]; intros taken;
    cbn [Uni.of_string Uni.naic_match_from naic_match_from]; [reflexivity|].
  change (Uni.is_newline (N_of_ascii c)) with (Uni.is_char newline (N_of_ascii c)).
  rewrite is_char_below. fold (is_newline c).
  destruct (is_newline c); [reflexivity|].
  change (Uni.MState (Some (N_of_ascii c)) (Uni.of_string s) None)
    with (emb (MState (Some c) s None)).
  rewrite (exec_below db _ _ same_pattern_NAIC _ at_end Uni.at_end at_end_below).
  destruct (exec NAIC_TAIL (MState (Some c) s None) at_end) as [m|];
    cbn [option_map fst snd].
  - now rewrite group1_below, of_string_append.
  - change (Uni.of_string taken ++ [N_of_ascii c])%list
      with (Uni.of_string taken ++ Uni.of_string (String c ""))%list.
    rewrite <- of_string_append. apply IH.
Qed.

(** On a line of code points below 256 the record has the name and the
    categories that the line gives as a text. *)
Lemma cdi_record_below pdf_url line :
  option_map (fun c => (Uni.of_string (name c), Uni.of_string (categories c)))
             (cdi_record pdf_url line) =
  option_map (fun g => (fst g,
                        if Uni.is_empty (snd g) then []
                        else (Uni.of_string "NAIC: " ++ snd g)%list))
             (Uni.cdi_line db (Uni.of_string line)).
Proof.
  unfold cdi_record, Uni.cdi_line.
  rewrite (strip_below db), is_empty_below, of_string_length, skip_below.
  destruct (is_empty (strip line) || (String.length (strip line) <? 5));
    [reflexivity|].
  destruct (existsb _ CDI_SKIP); [reflexivity|].
  unfold Uni.naic_match, naic_match.
  pose proof (naic_match_from_below (strip line) "") as NM.
  change (Uni.of_string "") with (@nil N) in NM. rewrite NM. clear NM.
  destruct (naic_match_from "" (strip line)) as [[g1 g2]|];
    cbn [option_map fst snd].
  - rewrite (strip_below db), is_empty_below, of_string_length.
    destruct (is_empty (strip g1) || (String.length (strip g1) <? 4));
      [reflexivity|].
    cbn [option_map fst snd name categories]. rewrite is_empty_below.
    destruct (is_empty g2); [reflexivity|]. now rewrite of_string_append.
  - rewrite (strip_below db), is_empty_below, of_string_length.
    destruct (is_empty (strip (strip line)) ||
              (String.length (strip (strip line)) <? 4)); reflexivity.
Qed.

End RegistryBelow.

(** X10: every record the registry parser makes has the registry's label
    as source, the document's URL, state "CA" and nothing in the other
    fields but name and categories; its name is trimmed, at least four
    characters long and occurs in the text; its categories are empty or
    "NAIC: " followed by a code of four to six characters that occurs in
    the text.  On lines of arbitrary code points, whatever the Unicode
    database says of those from 256 on: the name a line gives is trimmed,
    at least four characters long and occurs in the line, and the code it
    gives is empty or four to six decimal digits that occur in the line, a
    decimal digit being what [\d] takes for one.  On a line of code
    points below 256 the record has the name the line gives, and as
    categories "NAIC: " and the code the line gives, or nothing when it
    gives none. *)
Theorem X10_cdi_records_shape :
  (forall (pdf_url all_text : string) (c : InsuranceCompany),
      In c (cdi_records pdf_url all_text) ->
      (source c = CDI_SOURCE /\ source_url c = pdf_url /\ state c = "CA" /\
       address c = "" /\ city c = "" /\ zip_code c = "" /\ phone c = "" /\
       website c = "" /\ email c = "" /\ rating c = "" /\ review_count c = "" /\
       description c = "") /\
      (4 <= String.length (name c) /\ trimmed (name c) /\
       occurs_in (name c) all_text) /\
      (categories c = "" \/
       exists code, categories c = "NAIC: " ++ code /\
                    4 <= String.length code <= 6 /\ occurs_in code all_text)) /\
  (forall (db : Uni.unicode) (line nm naic_code : Uni.text),
      Uni.cdi_line db line = Some (nm, naic_code) ->
      (4 <= List.length nm /\ Uni.trimmed db nm /\ Uni.occurs_in nm line) /\
      (naic_code = [] \/
       Uni.naic_shaped db naic_code /\ Uni.occurs_in naic_code line)) /\
  (forall (db : Uni.unicode) (pdf_url line : string),
      option_map (fun c => (Uni.of_string (name c), Uni.of_string (categories c)))
                 (cdi_record pdf_url line) =
      option_map (fun g => (fst g,
                            if Uni.is_empty (snd g) then []
                            else (Uni.of_string "NAIC: " ++ snd g)%list))
                 (Uni.cdi_line db (Uni.of_string line))).
Proof.
  split; [|split; [intros db line nm naic_code; apply cdi_line_shape
                  |intros db pdf_url line; apply cdi_record_below]].
  intros pdf_url all_text c I. rewrite cdi_records_eq in I.
  apply keep_some_In in I as (line & Hl & H).
  apply split_entry_occurs in Hl.
  assert (Hs : occurs_in (strip line) all_text).
  { eapply occurs_in_trans; [apply strip_occurs | exact Hl]. }
  unfold cdi_record in H.
  destruct (is_empty (strip line) || (String.length (strip line) <? 5));
    [discriminate|].
  destruct (existsb _ CDI_SKIP); [discriminate|].
  destruct (naic_match (strip line)) as [[g1 g2]|] eqn:M.
  - destruct (is_empty (strip g1) || (String.length (strip g1) <? 4)) eqn:Short;
      [discriminate|].
    injection H as <-. cbn [source source_url state address city zip_code phone
      website email rating review_count description name categories].
    apply orb_false_iff in Short as [_ Short]. apply Nat.ltb_ge in Short.
    apply naic_match_from_sound in M as (p & ws & t & E & -> & _ & _ & _ & S & _).
    cbn [append] in *.
    split; [repeat split|]. split.
    + split; [exact Short|]. split; [apply strip_trimmed|].
      eapply occurs_in_trans; [apply strip_occurs|].
      eapply occurs_in_trans; [|exact Hs]. rewrite E. apply occurs_in_prefix.
    + right. exists g2.
      assert (N : is_empty g2 = false).
      { destruct S as [_ [L _]]. destruct g2; [cbn in L; lia | reflexivity]. }
      rewrite N. split; [reflexivity|]. split; [apply S|].
      eapply occurs_in_trans; [|exact Hs]. rewrite E.
      exists (p ++ ws), t. now rewrite !append_assoc.
  - destruct (is_empty (strip (strip line)) ||
              (String.length (strip (strip line)) <? 4)) eqn:Short; [discriminate|].
    injection H as <-. cbn [source source_url state address city zip_code phone
      website email rating review_count description name categories].
    apply orb_false_iff in Short as [_ Short]. apply Nat.ltb_ge in Short.
    split; [repeat split|]. split; [|now left].
    split; [exact Short|]. split; [apply strip_trimmed|].
    eapply occurs_in_trans; [apply strip_occurs | exact Hs].
Qed.

Lemma X10_cdi_records_shape_witness :
  (4 <= String.length "ACE INSURANCE COMPANY" /\
   trimmed "ACE INSURANCE COMPANY" /\
   occurs_in "ACE INSURANCE COMPANY" "ACE INSURANCE COMPANY 22667") /\
  ([1633; 1634; 1635; 1636; 1637]%N = [] \/
   Uni.naic_shaped arabic_indic [1633; 1634; 1635; 1636; 1637]%N /\
   Uni.occurs_in [1633; 1634; 1635; 1636; 1637]%N
     (Uni.of_string "ACME CO " ++ [1633; 1634; 1635; 1636; 1637]%N)%list).
Proof.
  destruct X10_cdi_records_shape as (Hrec & Hline & _). split.
  - apply (Hrec "http://cdi.test/a.pdf" "ACE INSURANCE COMPANY 22667"
             (mkCompany "ACE INSURANCE COMPANY" "" "" "CA" "" "" "" "" "" ""
                "NAIC: 22667" "" CDI_SOURCE "http://cdi.test/a.pdf")).
    vm_compute. left. reflexivity.
  - apply (Hline arabic_indic
             (Uni.of_string "ACME CO " ++ [1633; 1634; 1635; 1636; 1637]%N)%list
             (Uni.of_string "ACME CO")).
    vm_compute. reflexivity.
Defined.

(** X11: a line made of a trimmed name of at least four characters without
    line break, white space and a code of four to six digits, with none of
    the header phrases in it, gives the record with exactly that name and
    "NAIC: " and that code as categories; digits or spaces inside the name
    do not change this. *)
Theorem X11_cdi_record_round_trip :
  forall (pdf_url nm sep code : string),
    trimmed nm -> 4 <= String.length nm ->
    all_chars (fun c => negb (is_newline c)) nm = true ->
    sep <> "" -> all_chars isspace sep = true ->
    naic_shaped code ->
    existsb (fun skip => str_in skip (upper (nm ++ sep ++ code))) CDI_SKIP = false ->
    cdi_record pdf_url (nm ++ sep ++ code) =
    Some (mkCompany nm "" "" "CA" "" "" "" "" "" "" ("NAIC: " ++ code) ""
            CDI_SOURCE pdf_url).
Proof.
  intros pdf_url nm sep code T Len A Ns As Sc Skip.
  assert (Nn : nm <> "") by (intros ->; cbn in Len; lia).
  assert (Nc : code <> "") by (destruct Sc as [_ L]; intros ->; cbn in L; lia).
  assert (Tl : trimmed (nm ++ sep ++ code)).
  { destruct T as [F L]. split; intros c H.
    - apply F. destruct nm; [congruence | exact H].
    - rewrite <- append_assoc, last_char_append in H by exact Nc.
      apply digit_not_space. eapply all_chars_last; [apply Sc | exact H]. }
  unfold cdi_record. rewrite (strip_id _ Tl), Skip.
  assert (L5 : 5 <= String.length (nm ++ sep ++ code)).
  { rewrite !length_append. destruct Sc as [_ L]. lia. }
  replace (is_empty (nm ++ sep ++ code)) with false
    by (destruct nm; [congruence | reflexivity]).
  destruct (Nat.ltb_spec (String.length (nm ++ sep ++ code)) 5) as [?|_]; [lia|].
  cbn [orb]. unfold naic_match.
  rewrite (naic_match_from_name sep code Ns As Sc nm "" Nn A (proj2 T)).
  cbn [append]. rewrite (strip_id _ T).
  replace (is_empty nm) with false by (destruct nm; [congruence | reflexivity]).
  destruct (Nat.ltb_spec (String.length nm) 4) as [?|_]; [lia|].
  cbn [orb].
  replace (is_empty code) with false by (destruct code; [congruence | reflexivity]).
  reflexivity.
Qed.

Lemma X11_cdi_record_round_trip_witness :
  cdi_record "http://cdi.test/a.pdf" ("21ST CENTURY INSURANCE" ++ "  " ++ "12963") =
  Some (mkCompany "21ST CENTURY INSURANCE" "" "" "CA" "" "" "" "" "" ""
          ("NAIC: " ++ "12963") "" CDI_SOURCE "http://cdi.test/a.pdf").
Proof.
  apply X11_cdi_record_round_trip.
  - split; intros c [= <-]; reflexivity.
  - cbn; lia.
  - reflexivity.
  - discriminate.
  - reflexivity.
  - split; [reflexivity | cbn; lia].
  - reflexivity.
Defined.

(** X12: on lines of arbitrary code points, whatever the Unicode database
    says of those from 256 on, a line whose trimmed text does not end in a
    decimal digit (a character [\d] takes) is never cut: when it is at
    least five characters long and has no header phrase in it, the whole
    trimmed line is the name and there is no code; otherwise it gives no
    record. *)
Theorem X12_cdi_record_without_code :
  forall (db : Uni.unicode) (line : Uni.text),
    (forall c, Uni.last_char (Uni.strip db line) = Some c ->
               Uni.isdecimal db c = false) ->
    Uni.cdi_line db line =
    if (List.length (Uni.strip db line) <? 5) ||
       existsb (fun skip => Uni.str_in (Uni.of_string skip)
                              (Uni.upper db (Uni.strip db line))) CDI_SKIP
    then None
    else Some (Uni.strip db line, []).
Proof. intros db line. apply cdi_line_without_code. Qed.

Lemma X12_cdi_record_without_code_witness :
  Uni.cdi_line arabic_indic
    (Uni.of_string "  ZURICH AMERICAN INSURANCE COMPANY (1912) ") =
  Some (Uni.of_string "ZURICH AMERICAN INSURANCE COMPANY (1912)", []).
Proof.
  rewrite X12_cdi_record_without_code.
  - vm_compute. reflexivity.
  - intros c H. vm_compute in H. injection H as <-. reflexivity.
Defined.

(** X13: the pages' texts are put together with nothing between them: the
    last line of one run of pages and the first line of the next are read
    as one line, a page without text adds nothing, and the records are at
    most one per line of the joined text. *)
Theorem X13_cdi_page_break :
  forall (pdf_url : string) (ps qs : list (option string)),
    let lines pages := split (String newline "") (cdi_text pages) in
    lines (ps ++ qs)%list =
      (removelast (lines ps) ++
       [(last (lines ps) "" ++ hd "" (lines qs))%string] ++
       tl (lines qs))%list /\
    cdi_text (None :: ps) = cdi_text ps /\
    List.length (cdi_records pdf_url (cdi_text (ps ++ qs)%list)) + 1
      <= List.length (lines ps) + List.length (lines qs).
Proof.
  intros pdf_url ps qs lines.
  assert (E : lines (ps ++ qs)%list =
      (removelast (lines ps) ++
       [(last (lines ps) "" ++ hd "" (lines qs))%string] ++
       tl (lines qs))%list).
  { unfold lines, split. rewrite cdi_text_app. apply split_newline_app. }
  split; [exact E|]. split; [reflexivity|].
  rewrite cdi_records_eq.
  pose proof (keep_some_length (cdi_record pdf_url)
                (split (String newline "") (cdi_text (ps ++ qs)%list))) as K.
  fold (lines (ps ++ qs)%list) in K |- *. rewrite E in K.
  rewrite !length_app in K. cbn [List.length] in K.
  assert (N : forall pages, lines pages <> []).
  { intros pages. unfold lines, split. rewrite split_newline_cur. discriminate. }
  assert (R : forall (l : list string), l <> [] ->
                List.length (removelast l) + 1 = List.length l).
  { induction l as [|x [|y l] IH]; intros Nl; [congruence|reflexivity|].
    change (S (List.length (removelast (y :: l))) + 1 = S (List.length (y :: l))).
    rewrite <- IH by discriminate. lia. }
  pose proof (R _ (N ps)) as Rp.
  assert (Tq : List.length (tl (lines qs)) + 1 = List.length (lines qs)).
  { pose proof (N qs). destruct (lines qs); [congruence | cbn; lia]. }
  rewrite E. lia.
Qed.

(** ** The list sources *)

Section ListSources.

Lemma lower_alpha c : is_alpha_az c = true -> is_lower_az (lower_char c) = true.
Proof.
  destruct c as [[] [] [] [] [] [] [] []]; vm_compute; congruence.
Qed.

Lemma pick_cases a b : (a <> "" /\ pick a b = a) \/ (a = "" /\ pick a b = b).
Proof. unfold pick. destruct a; cbn; [right | left]; split; congruence. Qed.

(** A city as the address pattern gives it has a letter in front, which
    the identity key keeps. *)
Lemma normalize_city_shaped w : city_shaped w -> w <> "" -> normalize w <> "".
Proof.
  intros (A & F & _) N. destruct w as [|c w]; [congruence|].
  cbn [all_chars] in A. apply andb_true_iff in A as [Hc _].
  pose proof (F c eq_refl) as S. unfold cls_city in Hc. rewrite S, orb_false_r in Hc.
  rewrite normalize_filter. cbn [lower filter_chars].
  rewrite (lower_alpha c Hc). discriminate.
Qed.

Lemma normalize_extracted_or a fallback :
  normalize fallback <> "" ->
  normalize (pick (extract_city_from_address a) fallback) <> "".
Proof.
  intros Hf. destruct (pick_cases (extract_city_from_address a) fallback)
    as [[N ->]|[_ ->]]; [|exact Hf].
  apply normalize_city_shaped; [apply extract_city_shaped | exact N].
Qed.

Lemma normalize_nonempty s : normalize s <> "" -> s <> "".
Proof. intros H ->. apply H. reflexivity. Qed.

Lemma region_cities_normal region_name :
  In region_name GMAPS_REGION_NAMES -> normalize (region_city region_name) <> "".
Proof.
  intros I.
  assert (F : forallb (fun r => negb (is_empty (normalize (region_city r))))
                GMAPS_REGION_NAMES = true) by (vm_compute; reflexivity).
  rewrite forallb_forall in F. specialize (F _ I).
  apply negb_true_iff in F. now apply is_empty_false.
Qed.

Lemma yp_cities_normal location :
  In location YP_LOCATIONS -> normalize (hd "" (split "," location)) <> "".
Proof.
  intros I.
  assert (F : forallb (fun l => negb (is_empty (normalize (hd "" (split "," l)))))
                YP_LOCATIONS = true) by (vm_compute; reflexivity).
  rewrite forallb_forall in F. specialize (F _ I).
  apply negb_true_iff in F. now apply is_empty_false.
Qed.

(** A record with a city and a record without one never have the same
    identity key. *)
Lemma key_apart c r :
  normalize (city c) <> "" -> city r = "" -> dedup_key c <> dedup_key r.
Proof.
  intros N E K. apply dedup_key_eq_iff in K as [_ K].
  rewrite E in K. apply N. rewrite K. reflexivity.
Qed.

Lemma gmaps_listings_spec region_name url : forall listings_data results,
  exists found,
    gmaps_listings region_name url listings_data results = (results ++ found)%list /\
    List.length found <= List.length listings_data /\
    Forall (fun c => exists data, In data listings_data /\
                       gmaps_company region_name url data = Some c) found.
Proof.
  induction listings_data as [|data more IH]; intros results; cbn [gmaps_listings].
  - exists []. rewrite app_nil_r. repeat split; [cbn; lia | constructor].
  - destruct (gmaps_company region_name url data) as [company|] eqn:E.
    + destruct (IH (list_append results company)) as (found & -> & L & F).
      exists (company :: found). unfold list_append. rewrite <- app_assoc.
      split; [reflexivity|]. split; [cbn; lia|]. constructor.
      * exists data. split; [now left | exact E].
      * eapply Forall_impl; [|exact F]. intros c (d & I & H).
        exists d. split; [now right | exact H].
    + exists []. rewrite app_nil_r. repeat split; [cbn; lia | constructor].
Qed.

End ListSources.

(** X14: a record made of a Google Maps listing for one of the configured
    regions always has a city: the one read from the address or, when the
    address gives none, the first part of the region's name.  The city
    keeps at least one character in the identity key, so the record never
    has the key of a record without city.  Website, email and description
    are empty, the ZIP code is the one read from the address, the state is
    "CA" and the source is "Google Maps". *)
Theorem X14_gmaps_company_has_city :
  forall (region_name url : string) (data : dict string) (c : InsuranceCompany),
    In region_name GMAPS_REGION_NAMES ->
    gmaps_company region_name url data = Some c ->
    (city c <> "" /\ normalize (city c) <> "" /\
     (city c = extract_city_from_address (address c) \/
      extract_city_from_address (address c) = "" /\
      city c = region_city region_name)) /\
    (forall r, city r = "" -> dedup_key c <> dedup_key r) /\
    (website c = "" /\ email c = "" /\ description c = "" /\
     zip_code c = extract_zip (address c) /\ state c = "CA" /\
     source c = GMAPS_SOURCE /\ source_url c = url).
Proof.
  intros region_name url data c I H. unfold gmaps_company in H.
  destruct (dict_get "name" data) as [nm|]; [|discriminate].
  injection H as <-.
  cbn [city address website email description zip_code state source source_url].
  pose proof (region_cities_normal _ I) as R.
  pose proof (normalize_extracted_or (py_get "address" data) _ R) as N.
  split; [|split].
  - split; [now apply normalize_nonempty|]. split; [exact N|].
    destruct (pick_cases (extract_city_from_address (py_get "address" data))
                (region_city region_name)) as [[_ ->]|[E ->]]; auto.
  - intros r E. now apply key_apart.
  - repeat split.
Qed.

Lemma X14_gmaps_company_has_city_witness :
  city (mkCompany "Bay Brokers" "Open 24 hours" "SF Mission" "CA" "" "" "" ""
          "4.5" "" "" "" GMAPS_SOURCE "http://maps.test/q") <> "".
Proof.
  apply (X14_gmaps_company_has_city "SF Mission/Castro" "http://maps.test/q"
           [("name", "Bay Brokers"); ("address", "Open 24 hours"); ("rating", "4.5")]).
  - vm_compute. tauto.
  - vm_compute. reflexivity.
Defined.

(** X15: a Yellow Pages card without name gives no record; a card with a
    name, found for one of the configured locations, gives a record with
    that name and a city, read from the address or else the part of the
    location before the comma, which keeps at least one character in the
    identity key.  Email and description are empty, and the website is the
    link's target when the card has a link with one. *)
Theorem X15_yp_company_has_name_and_city :
  forall (location url : string) (card : yp_card) (c : InsuranceCompany),
    In location YP_LOCATIONS ->
    yp_company location url card = Some c ->
    (name_el card = Some (name c) /\ name c <> "") /\
    (city c <> "" /\ normalize (city c) <> "" /\
     (city c = extract_city_from_address (address c) \/
      extract_city_from_address (address c) = "" /\
      city c = hd "" (split "," location))) /\
    (email c = "" /\ description c = "" /\ source c = YP_SOURCE /\
     source_url c = url /\
     (forall href, website_el card = Some (Some href) -> website c = href) /\
     (website c <> "" -> website_el card = Some (Some (website c)))).
Proof.
  intros location url card c I H. unfold yp_company in H.
  destruct (is_empty (text_of (name_el card))) eqn:E; [discriminate|].
  injection H as <-.
  cbn [name city address website email description source source_url].
  apply is_empty_false in E.
  pose proof (yp_cities_normal _ I) as R.
  pose proof (normalize_extracted_or (text_of (addr_el card)) _ R) as N.
  split; [|split].
  - split; [|exact E]. destruct (name_el card); [reflexivity | now cbn in E].
  - split; [now apply normalize_nonempty|]. split; [exact N|].
    destruct (pick_cases (extract_city_from_address (text_of (addr_el card)))
                (hd "" (split "," location))) as [[_ ->]|[E' ->]]; auto.
  - repeat split.
    + intros href ->. reflexivity.
    + destruct (website_el card) as [[href|]|]; cbn; congruence.
Qed.

Lemma X15_yp_company_has_name_and_city_witness :
  name_el (YpCard (Some "Bay Brokers") None (Some "1 Main St, Oakland, CA 94607")
             (Some None) ["Insurance"; "Business Insurance"])
  = Some "Bay Brokers" /\ "Bay Brokers" <> "".
Proof.
  apply (X15_yp_company_has_name_and_city "Oakland, CA" "http://yp.test/1"
           (YpCard (Some "Bay Brokers") None (Some "1 Main St, Oakland, CA 94607")
              (Some None) ["Insurance"; "Business Insurance"])
           (mkCompany "Bay Brokers" "1 Main St, Oakland, CA 94607" "Oakland" "CA"
              "94607" "" "" "" "" "" "Insurance, Business Insurance" "" YP_SOURCE
              "http://yp.test/1")).
  - vm_compute. tauto.
  - vm_compute. reflexivity.
Defined.

(** X16: one search scrolls the feed at least four and at most twelve
    times.  It stops before the twelfth scroll exactly when, from the
    fourth scroll on, a scroll leaves the number of links as the scroll
    before left it, and it stops at the first such scroll. *)
Theorem X16_scroll_loop_bounds :
  forall (count_after : nat -> nat),
    let n := scrolls count_after in
    4 <= n <= 12 /\
    (n < 12 -> count_after (n - 1) = count_after (n - 2)) /\
    (forall k, 3 <= k -> k + 1 < n -> count_after k <> count_after (k - 1)).
Proof.
  intros f n. subst n. unfold scrolls. cbn [seq scroll_loop Nat.ltb Nat.leb].
  rewrite !andb_false_r.
  repeat match goal with
  | |- context [(f ?a =? f ?b) && true] =>
      let E := fresh "E" in
      destruct (Nat.eqb_spec (f a) (f b)) as [E|E]; cbn [andb]
  end.
  all: split; [lia|]; split.
  all: try (intros L; try lia; cbn [Nat.sub]; assumption).
  all: intros k K1 K2.
  all: assert (Hk : k = 3 \/ k = 4 \/ k = 5 \/ k = 6 \/ k = 7 \/ k = 8 \/
                    k = 9 \/ k = 10) by lia.
  all: repeat (destruct Hk as [->|Hk]; [first [lia | cbn [Nat.sub]; assumption]|]).
  all: first [lia | subst k; cbn [Nat.sub]; assumption].
Qed.

(** ** The order of the output *)

Section SortFacts.

Context {A K : Type}.
Variable lt : K -> K -> bool.
Variable key : A -> K.
Hypothesis lt_asym : forall a b, lt a b = true -> lt b a = false.
Hypothesis lt_ntrans : forall a b c, lt a b = false -> lt b c = false -> lt a c = false.

Local Abbreviation same := (same_key lt).
Local Abbreviation asc := (ascending lt key).
Local Abbreviation sel := (with_key lt key).

Lemma lt_irrefl a : lt a a = false.
Proof. destruct (lt a a) eqn:E; [|reflexivity]. now rewrite (lt_asym _ _ E) in E. Qed.

Lemma same_refl a : same a a = true.
Proof. unfold same_key. now rewrite lt_irrefl. Qed.

Lemma same_iff a b : same a b = true <-> lt a b = false /\ lt b a = false.
Proof.
  unfold same_key. rewrite negb_true_iff, orb_false_iff. reflexivity.
Qed.

Lemma same_sym a b : same a b = same b a.
Proof. unfold same_key. now rewrite orb_comm. Qed.

Lemma same_trans a b c : same a b = true -> same b c = true -> same a c = true.
Proof.
  rewrite !same_iff. intros [H1 H2] [H3 H4]. split; eapply lt_ntrans; eauto.
Qed.

Lemma insert_by_In x l y : In y (insert_by lt key x l) <-> y = x \/ In y l.
Proof.
  induction l as [|z l IH]; cbn [insert_by].
  - cbn. intuition.
  - destruct (lt (key z) (key x)); cbn [In]; [rewrite IH|]; intuition.
Qed.

Lemma insert_by_sorted x l : asc l -> asc (insert_by lt key x l).
Proof.
  unfold ascending. induction 1 as [|y l S IH F]; cbn [insert_by].
  - constructor; constructor.
  - destruct (lt (key y) (key x)) eqn:E.
    + constructor; [exact IH|].
      apply Forall_forall. intros z Hz. apply insert_by_In in Hz as [->|Hz].
      * now apply lt_asym.
      * rewrite Forall_forall in F. now apply F.
    + constructor; [now constructor|].
      constructor; [exact E|].
      apply Forall_forall. intros z Hz. rewrite Forall_forall in F.
      eapply lt_ntrans; [apply F; exact Hz | exact E].
Qed.

Lemma sort_by_sorted l : asc (sort_by lt key l).
Proof.
  induction l as [|x l IH]; cbn [sort_by]; [constructor|].
  now apply insert_by_sorted.
Qed.

Lemma with_key_insert k x l :
  sel k (insert_by lt key x l) =
  if same (key x) k then x :: sel k l else sel k l.
Proof.
  unfold with_key. induction l as [|y l IH]; cbn [insert_by filter].
  - reflexivity.
  - destruct (lt (key y) (key x)) eqn:E; cbn [filter].
    + rewrite IH. destruct (same (key x) k) eqn:Sx; [|reflexivity].
      destruct (same (key y) k) eqn:Sy; [|reflexivity].
      exfalso. rewrite same_sym in Sx.
      pose proof (same_trans _ _ _ Sy Sx) as S.
      apply same_iff in S as [S _]. congruence.
    + reflexivity.
Qed.

Lemma with_key_sort k l : sel k (sort_by lt key l) = sel k l.
Proof.
  induction l as [|x l IH]; cbn [sort_by]; [reflexivity|].
  rewrite with_key_insert, IH. reflexivity.
Qed.

Lemma insert_by_perm x l : Permutation (x :: l) (insert_by lt key x l).
Proof.
  induction l as [|y l IH]; cbn [insert_by]; [reflexivity|].
  destruct (lt (key y) (key x)); [|reflexivity].
  rewrite perm_swap. now constructor.
Qed.

Lemma sort_by_perm l : Permutation l (sort_by lt key l).
Proof.
  induction l as [|x l IH]; cbn [sort_by]; [constructor|].
  rewrite <- insert_by_perm. now constructor.
Qed.

Lemma with_key_head k x l :
  same (key x) k = true -> sel k (x :: l) = x :: sel k l.
Proof. unfold with_key. cbn [filter]. now intros ->. Qed.

Lemma with_key_In k x l : In x (sel k l) -> In x l.
Proof. unfold with_key. intros H. now apply filter_In in H. Qed.

(** An ascending list is known by the entries it has under each key. *)
Lemma ascending_unique : forall l1 l2,
  asc l1 -> asc l2 -> (forall k, sel k l1 = sel k l2) -> l1 = l2.
Proof.
  induction l1 as [|x t1 IH]; intros l2 S1 S2 E.
  - destruct l2 as [|y t2]; [reflexivity|]. exfalso.
    specialize (E (key y)). rewrite (with_key_head _ y t2 (same_refl _)) in E.
    discriminate.
  - destruct l2 as [|y t2].
    { exfalso. specialize (E (key x)).
      rewrite (with_key_head _ x t1 (same_refl _)) in E. discriminate. }
    unfold ascending in S1, S2.
    apply StronglySorted_inv in S1 as [S1 F1].
    apply StronglySorted_inv in S2 as [S2 F2].
    rewrite Forall_forall in F1, F2.
    assert (Lyx : lt (key y) (key x) = false).
    { assert (I : In y (x :: t1)).
      { apply (with_key_In (key y)). rewrite E, (with_key_head _ y t2 (same_refl _)).
        now left. }
      destruct I as [<-|I]; [apply lt_irrefl | now apply F1]. }
    assert (Lxy : lt (key x) (key y) = false).
    { assert (I : In x (y :: t2)).
      { apply (with_key_In (key x)). rewrite <- E, (with_key_head _ x t1 (same_refl _)).
        now left. }
      destruct I as [<-|I]; [apply lt_irrefl | now apply F2]. }
    assert (Syx : same (key y) (key x) = true) by (apply same_iff; auto).
    pose proof (E (key x)) as Ex.
    rewrite (with_key_head _ x t1 (same_refl _)), (with_key_head _ y t2 Syx) in Ex.
    injection Ex as <- _. f_equal. apply IH; [exact S1 | exact S2|].
    intros k. specialize (E k). unfold with_key in E |- *. cbn [filter] in E.
    destruct (same (key x) k); [now injection E | exact E].
Qed.

End SortFacts.

Section OrderFacts.

(** A three-way comparison that is a total order gives a [<] fit for
    sorting. *)
Context {K : Type}.
Variable cmp : K -> K -> comparison.
Hypothesis cmp_antisym : forall a b, cmp a b = CompOpp (cmp b a).
Hypothesis cmp_eq : forall a b, cmp a b = Eq -> a = b.
Hypothesis cmp_trans : forall a b c, cmp a b = Lt -> cmp b c = Lt -> cmp a c = Lt.

Local Abbreviation lt_of := (lt_of cmp).

Lemma lt_of_asym a b : lt_of a b = true -> lt_of b a = false.
Proof.
  unfold lt_of. rewrite (cmp_antisym b a). destruct (cmp a b); cbn; congruence.
Qed.

Lemma lt_of_ntrans a b c :
  lt_of a b = false -> lt_of b c = false -> lt_of a c = false.
Proof.
  unfold lt_of. intros H1 H2.
  destruct (cmp a c) eqn:Eac; try reflexivity. exfalso.
  destruct (cmp a b) eqn:Eab; try discriminate.
  - apply cmp_eq in Eab as ->. rewrite Eac in H2. discriminate.
  - destruct (cmp b c) eqn:Ebc; try discriminate.
    + apply cmp_eq in Ebc as ->. congruence.
    + assert (Ecb : cmp c b = Lt) by (rewrite cmp_antisym, Ebc; reflexivity).
      pose proof (cmp_trans _ _ _ Eac Ecb). congruence.
Qed.

Lemma lt_of_same a b : same_key lt_of a b = true <-> a = b.
Proof.
  unfold same_key, lt_of. split.
  - rewrite (cmp_antisym b a). destruct (cmp a b) eqn:E; cbn; try discriminate.
    intros _. now apply cmp_eq.
  - intros ->. pose proof (cmp_antisym b b) as H.
    destruct (cmp b b); cbn in *; congruence.
Qed.

End OrderFacts.

Section StringOrder.

Lemma ascii_compare_refl c : Ascii.compare c c = Eq.
Proof. unfold Ascii.compare. apply N.compare_refl. Qed.

Lemma ascii_compare_trans a b c :
  Ascii.compare a b = Lt -> Ascii.compare b c = Lt -> Ascii.compare a c = Lt.
Proof.
  unfold Ascii.compare. rewrite !N.compare_lt_iff. apply N.lt_trans.
Qed.

Lemma string_compare_trans : forall a b c,
  String.compare a b = Lt -> String.compare b c = Lt -> String.compare a c = Lt.
Proof.
  induction a as [|x a IH]; intros [|y b] [|z c]; cbn; try congruence.
  destruct (Ascii.compare x y) eqn:Exy; try discriminate;
    destruct (Ascii.compare y z) eqn:Eyz; try discriminate.
  - apply Ascii.compare_eq_iff in Exy as ->. apply Ascii.compare_eq_iff in Eyz as ->.
    rewrite ascii_compare_refl. apply IH.
  - apply Ascii.compare_eq_iff in Exy as ->. now rewrite Eyz.
  - apply Ascii.compare_eq_iff in Eyz as <-. now rewrite Exy.
  - now rewrite (ascii_compare_trans _ _ _ Exy Eyz).
Qed.

Lemma string_compare_refl s : String.compare s s = Eq.
Proof. induction s as [|c s IH]; cbn; [reflexivity|]. now rewrite ascii_compare_refl. Qed.

Lemma key_lt_compare k1 k2 : key_lt k1 k2 = lt_of key_compare k1 k2.
Proof.
  unfold key_lt, lt_of, key_compare, String.ltb.
  destruct (String.compare (fst k1) (fst k2)); reflexivity.
Qed.

Lemma key_compare_antisym a b : key_compare a b = CompOpp (key_compare b a).
Proof.
  unfold key_compare. rewrite (String.compare_antisym (fst b) (fst a)).
  destruct (String.compare (fst a) (fst b)); cbn; try reflexivity.
  apply String.compare_antisym.
Qed.

Lemma key_compare_eq a b : key_compare a b = Eq -> a = b.
Proof.
  unfold key_compare. destruct a as [a1 a2], b as [b1 b2]. cbn.
  destruct (String.compare a1 b1) eqn:E; try discriminate.
  intros E2. apply String.compare_eq_iff in E, E2. congruence.
Qed.

Lemma key_compare_trans a b c :
  key_compare a b = Lt -> key_compare b c = Lt -> key_compare a c = Lt.
Proof.
  unfold key_compare. destruct a as [a1 a2], b as [b1 b2], c as [c1 c2]. cbn.
  destruct (String.compare a1 b1) eqn:Eab; try discriminate;
    destruct (String.compare b1 c1) eqn:Ebc; try discriminate; intros H1 H2.
  - apply String.compare_eq_iff in Eab as ->. apply String.compare_eq_iff in Ebc as ->.
    rewrite string_compare_refl. eapply string_compare_trans; eauto.
  - apply String.compare_eq_iff in Eab as ->. now rewrite Ebc.
  - apply String.compare_eq_iff in Ebc as <-. now rewrite Eab.
  - now rewrite (string_compare_trans _ _ _ Eab Ebc).
Qed.

Lemma key_lt_asym a b : key_lt a b = true -> key_lt b a = false.
Proof.
  rewrite !key_lt_compare. apply lt_of_asym. apply key_compare_antisym.
Qed.

Lemma key_lt_ntrans a b c :
  key_lt a b = false -> key_lt b c = false -> key_lt a c = false.
Proof.
  rewrite !key_lt_compare.
  apply lt_of_ntrans;
    [apply key_compare_antisym | apply key_compare_eq | apply key_compare_trans].
Qed.

Lemma key_lt_same a b : same_key key_lt a b = true <-> a = b.
Proof.
  unfold same_key. rewrite !key_lt_compare.
  apply (lt_of_same key_compare key_compare_antisym key_compare_eq).
Qed.

Lemma gt_asym (a b : nat) : (b <? a) = true -> (a <? b) = false.
Proof. rewrite Nat.ltb_lt, Nat.ltb_ge. lia. Qed.

Lemma gt_ntrans (a b c : nat) :
  (b <? a) = false -> (c <? b) = false -> (c <? a) = false.
Proof. rewrite !Nat.ltb_ge. lia. Qed.

End StringOrder.

Section Tally.

Lemma dict_get_set_other {V} k k' (v : V) d :
  k <> k' -> dict_get k (dict_set k' v d) = dict_get k d.
Proof.
  intros N. induction d as [|[k0 v0] d IH]; cbn [dict_set dict_get].
  - destruct (String.eqb_spec k k'); [contradiction | reflexivity].
  - destruct (String.eqb_spec k' k0) as [->|N0]; cbn [dict_get].
    + destruct (String.eqb_spec k k0); [contradiction | reflexivity].
    + destruct (String.eqb k k0); [reflexivity | exact IH].
Qed.

Lemma count_up_get k k' d :
  or_zero (dict_get k (count_up d k')) =
  or_zero (dict_get k d) + (if String.eqb k k' then 1 else 0).
Proof.
  unfold count_up. destruct (String.eqb_spec k k') as [->|N].
  - rewrite dict_get_set. cbn [or_zero]. destruct (dict_get k' d); reflexivity.
  - rewrite dict_get_set_other by exact N. lia.
Qed.

Lemma occurrences_cons k x ks :
  occurrences k (x :: ks) = (if String.eqb k x then 1 else 0) + occurrences k ks.
Proof. unfold occurrences. cbn [filter]. now destruct (String.eqb k x). Qed.

Lemma tally_get k ks : forall d,
  or_zero (dict_get k (fold_left count_up ks d)) =
  or_zero (dict_get k d) + occurrences k ks.
Proof.
  induction ks as [|x ks IH]; intros d; cbn [fold_left].
  - unfold occurrences. cbn. lia.
  - rewrite IH, count_up_get, occurrences_cons. lia.
Qed.

(** No entry of a tally is zero. *)
Lemma tally_positive ks : forall d,
  Forall (fun kv => 0 < snd kv) d ->
  Forall (fun kv => 0 < snd kv) (fold_left count_up ks d).
Proof.
  induction ks as [|x ks IH]; intros d F; cbn [fold_left]; [exact F|].
  apply IH. unfold count_up.
  generalize (or_zero (dict_get x d)) as n. intros n.
  induction F as [|[k0 v0] d P F IHF]; cbn [dict_set].
  - constructor; [cbn; lia | constructor].
  - destruct (String.eqb x k0); constructor; auto. cbn. lia.
Qed.

Lemma dict_set_sum k v d :
  list_sum (map snd (dict_set k v d)) + or_zero (dict_get k d) =
  list_sum (map snd d) + v.
Proof.
  induction d as [|[k0 v0] d IH]; cbn [dict_set dict_get].
  - cbn. lia.
  - destruct (String.eqb k k0); cbn [map snd or_zero]; rewrite ?list_sum_cons;
      cbn [list_sum fold_right]; fold (list_sum (map snd d));
      try fold (list_sum (map snd (dict_set k v d))); lia.
Qed.

Lemma tally_sum ks : forall d,
  list_sum (map snd (fold_left count_up ks d)) =
  list_sum (map snd d) + List.length ks.
Proof.
  induction ks as [|x ks IH]; intros d; cbn [fold_left List.length]; [lia|].
  rewrite IH. unfold count_up.
  pose proof (dict_set_sum x (or_zero (dict_get x d) + 1) d) as S.
  fold (or_zero (dict_get x d)). lia.
Qed.

Lemma tally_keys ks : forall d,
  map fst (fold_left count_up ks d) =
  (map fst d ++
   filter (fun k => negb (existsb (String.eqb k) (map fst d))) (first_seen ks))%list.
Proof.
  induction ks as [|x ks IH]; intros d; cbn [fold_left first_seen filter].
  - now rewrite app_nil_r.
  - rewrite IH. unfold count_up.
    destruct (dict_get x d) as [n|] eqn:G.
    + rewrite (dict_set_keys _ _ _ _ G). f_equal.
      assert (M : existsb (String.eqb x) (map fst d) = true).
      { apply existsb_eqb_In. apply dict_get_In in G.
        change x with (fst (x, n)). now apply in_map. }
      rewrite M. cbn [negb]. symmetry. apply filter_weaker.
      intros y Hy. apply negb_true_iff.
      destruct (String.eqb_spec y x) as [->|]; [|reflexivity].
      rewrite M in Hy. discriminate Hy.
    + rewrite (dict_set_absent _ _ _ G), map_app. cbn [map fst].
      assert (M : existsb (String.eqb x) (map fst d) = false).
      { destruct (existsb _ _) eqn:E; [|reflexivity].
        apply existsb_eqb_In in E. now apply dict_get_None in G. }
      rewrite M. cbn [negb]. rewrite <- app_assoc. cbn [app].
      do 2 f_equal. apply filter_negb_mem_app.
Qed.

Lemma tally_spec k ks :
  dict_get k (fold_left count_up ks []) =
  if occurrences k ks =? 0 then None else Some (occurrences k ks).
Proof.
  pose proof (tally_get k ks []) as G. cbn [dict_get or_zero] in G.
  pose proof (tally_positive ks [] (Forall_nil _)) as P.
  destruct (dict_get k (fold_left count_up ks [])) as [n|] eqn:E; cbn [or_zero] in G.
  - apply dict_get_In in E. rewrite Forall_forall in P. specialize (P _ E).
    cbn in P. destruct (Nat.eqb_spec (occurrences k ks) 0); [lia|].
    f_equal. lia.
  - cbn in G. now rewrite <- G.
Qed.

Lemma fold_flat_map {A B C} (f : C -> B -> C) (g : A -> list B) l : forall acc,
  fold_left (fun acc x => fold_left f (g x) acc) l acc =
  fold_left f (flat_map g l) acc.
Proof.
  induction l as [|x l IH]; intros acc; cbn [fold_left flat_map]; [reflexivity|].
  now rewrite fold_left_app, IH.
Qed.

Lemma fold_map {A B C} (f : C -> B -> C) (g : A -> B) l : forall acc,
  fold_left (fun acc x => f acc (g x)) l acc = fold_left f (map g l) acc.
Proof.
  induction l as [|x l IH]; intros acc; cbn [fold_left map]; [reflexivity|].
  apply IH.
Qed.

End Tally.

Section SummaryFacts.

Lemma first_seen_In x l : In x (first_seen l) -> In x l.
Proof.
  revert x. induction l as [|y l IH]; intros x; cbn [first_seen]; [auto|].
  intros [<-|I]; [now left|]. right. apply filter_In in I as [I _]. now apply IH.
Qed.

Lemma split_from_nonempty sep : forall s skip cur,
  1 <= List.length (split_from sep s skip cur).
Proof.
  induction s as [|c s IH]; intros skip cur; cbn [split_from]; [cbn; lia|].
  destruct skip; [|apply IH].
  destruct (startswith sep (String c s)); [cbn; lia | apply IH].
Qed.

Lemma flat_map_length_ge {A B} (g : A -> list B) l :
  (forall x, 1 <= List.length (g x)) ->
  List.length l <= List.length (flat_map g l).
Proof.
  intros H. induction l as [|x l IH]; cbn [flat_map List.length]; [lia|].
  rewrite length_app. specialize (H x). lia.
Qed.

Lemma StronglySorted_weaken {A} (R R' : A -> A -> Prop) l :
  (forall a b, R a b -> R' a b) -> StronglySorted R l -> StronglySorted R' l.
Proof.
  intros H. induction 1 as [|x l S IH F]; constructor; [exact IH|].
  eapply Forall_impl; [|exact F]. intros b. apply H.
Qed.

Lemma tally_keys_fresh ks :
  map fst (fold_left count_up ks []) = first_seen ks.
Proof. rewrite tally_keys. cbn [map app existsb negb]. apply filter_all. Qed.

End SummaryFacts.

(** X17: the rows of the CSV and the JSON file are the records handed to
    [save_results], each once, in ascending order of the pair (lowercased
    city, lowercased name), records with the same pair in the order in
    which they came; and this fixes the order completely: no other
    arrangement is ascending and keeps, for every pair, the records that
    have it in their order. *)
Theorem X17_save_order_is_the_stable_sort :
  forall (companies : list InsuranceCompany),
    let rows := save_order companies in
    ascending key_lt sort_key rows /\
    Permutation companies rows /\
    (forall k, filter (fun c => same_key key_lt (sort_key c) k) rows =
               filter (fun c => same_key key_lt (sort_key c) k) companies) /\
    (forall a b, same_key key_lt a b = true <-> a = b) /\
    (forall rows',
        ascending key_lt sort_key rows' ->
        (forall k, with_key key_lt sort_key k rows' =
                   with_key key_lt sort_key k companies) ->
        rows' = rows).
Proof.
  intros companies rows. subst rows. unfold save_order.
  split; [apply sort_by_sorted; [apply key_lt_asym | apply key_lt_ntrans]|].
  split; [apply sort_by_perm|].
  assert (W : forall k, with_key key_lt sort_key k (sort_by key_lt sort_key companies)
                        = with_key key_lt sort_key k companies).
  { intros k. apply with_key_sort; first [apply key_lt_asym | apply key_lt_ntrans]. }
  split; [exact W|].
  split; [apply key_lt_same|].
  intros rows' S E.
  apply (ascending_unique key_lt sort_key);
    try first [apply key_lt_asym | apply key_lt_ntrans].
  - exact S.
  - apply sort_by_sorted; [apply key_lt_asym | apply key_lt_ntrans].
  - intros k. rewrite E. symmetry. apply W.
Qed.

(** X18: in the summary a label of "By City" has the number of records
    whose city, or "Unknown" when they have none, is that label, so that
    a record without city and a record of a city called "Unknown" are
    counted together; the labels come in the order of their first record,
    none is empty, and the counts add up to the number of records.  A
    label of "By Source" has the number of times it is an entry of a
    [source] field split at ", "; those counts add up to the number of
    entries, which is at least the number of records. *)
Theorem X18_summary_counts :
  forall (companies : list InsuranceCompany) (k : string),
    let labels := map city_label companies in
    let entries := flat_map (fun c => split ", " (source c)) companies in
    (dict_get k (summary_cities companies) =
       (if occurrences k labels =? 0 then None else Some (occurrences k labels)) /\
     map fst (summary_cities companies) = first_seen labels /\
     ~ In "" (map fst (summary_cities companies)) /\
     list_sum (map snd (summary_cities companies)) = List.length companies) /\
    (dict_get k (summary_sources companies) =
       (if occurrences k entries =? 0 then None else Some (occurrences k entries)) /\
     map fst (summary_sources companies) = first_seen entries /\
     list_sum (map snd (summary_sources companies)) = List.length entries /\
     List.length companies <= List.length entries).
Proof.
  intros companies k labels entries.
  assert (Ec : summary_cities companies = fold_left count_up labels []).
  { unfold summary_cities, labels. apply (fold_map count_up city_label). }
  assert (Es : summary_sources companies = fold_left count_up entries []).
  { unfold summary_sources, entries.
    apply (fold_flat_map count_up (fun c => split ", " (source c))). }
  rewrite Ec, Es. split.
  - split; [apply tally_spec|]. split; [apply tally_keys_fresh|]. split.
    + rewrite tally_keys_fresh. intros I. apply first_seen_In in I.
      unfold labels in I. apply in_map_iff in I as (c & E & _).
      unfold city_label, pick in E. destruct (city c) eqn:C; cbn in E; discriminate.
    + rewrite tally_sum. unfold labels. cbn. now rewrite length_map.
  - split; [apply tally_spec|]. split; [apply tally_keys_fresh|]. split.
    + rewrite tally_sum. reflexivity.
    + unfold entries. apply flat_map_length_ge. intros c. apply split_from_nonempty.
Qed.

(** X19: the lines of each part of the summary are the entries counted,
    each once, by decreasing count, entries of equal count in the order in
    which their labels were first met. *)
Theorem X19_summary_lines_by_decreasing_count :
  forall (d : dict nat),
    let lines := by_count d in
    StronglySorted (fun a b => snd b <= snd a) lines /\
    Permutation d lines /\
    (forall n, filter (fun kv => snd kv =? n) lines =
               filter (fun kv => snd kv =? n) d).
Proof.
  intros d lines. subst lines. unfold by_count.
  split; [|split].
  - pose proof (sort_by_sorted (fun a b => b <? a) (@snd string nat)
                  gt_asym gt_ntrans d) as S.
    unfold ascending in S.
    eapply StronglySorted_weaken; [|exact S].
    intros a b H. cbn in H. apply Nat.ltb_ge in H. exact H.
  - apply sort_by_perm.
  - intros n.
    assert (W : with_key (fun a b => b <? a) (@snd string nat) n
                  (sort_by (fun a b => b <? a) snd d)
                = with_key (fun a b => b <? a) (@snd string nat) n d).
    { apply with_key_sort; first [exact gt_asym | exact gt_ntrans]. }
    unfold with_key in W.
    assert (E : forall kv : string * nat,
              (snd kv =? n) = same_key (fun a b => b <? a) (snd kv) n).
    { intros kv. unfold same_key.
      destruct (Nat.eqb_spec (snd kv) n) as [->|N].
      - now rewrite Nat.ltb_irrefl.
      - destruct (Nat.ltb_spec n (snd kv)); destruct (Nat.ltb_spec (snd kv) n);
          cbn; try reflexivity; lia. }
    rewrite (filter_ext _ _ E), (filter_ext _ _ E d). exact W.
Qed.

(** ** The run *)

Section MainFacts.

Variable World : Type.
Variable http_get : World -> string -> World * outcome.
Variable Soup : Type.
Variable BeautifulSoup : string -> option Soup.
Variable find_meta_description : Soup -> option string.

Local Abbreviation enrich_loop :=
  (enrich_loop World http_get Soup BeautifulSoup find_meta_description).
Local Abbreviation enrich_from_websites :=
  (enrich_from_websites World http_get Soup BeautifulSoup find_meta_description).

(** A loop whose turns append to the list appends to it. *)
Lemma fold_appends {X B} (f : list B -> X -> list B) (P : B -> Prop) (l : list X) :
  (forall acc x, In x l -> exists found, f acc x = (acc ++ found)%list /\ Forall P found) ->
  forall acc, exists found,
    fold_left f l acc = (acc ++ found)%list /\ Forall P found.
Proof.
  induction l as [|x l IH]; intros H acc; cbn [fold_left].
  - exists []. now rewrite app_nil_r.
  - destruct (H acc x (or_introl eq_refl)) as (f1 & -> & P1).
    destruct (IH (fun a y I => H a y (or_intror I)) (acc ++ f1)%list)
      as (f2 & -> & P2).
    exists (f1 ++ f2)%list. rewrite app_assoc. split; [reflexivity|].
    apply Forall_app. now split.
Qed.

Lemma some_inj {B} (a b : B) : Some a = Some b -> a = b.
Proof. now intros [= ->]. Qed.

Lemma scrape_google_maps_spec sw results out :
  scrape_google_maps sw results = Some out ->
  exists found, out = (results ++ found)%list /\ Forall from_gmaps found.
Proof.
  unfold scrape_google_maps. destruct (gmaps_setup sw); [|discriminate|].
  - intros E. apply some_inj in E. subst out. exists []. now rewrite app_nil_r.
  - intros E. apply some_inj in E. subst out.
    apply fold_appends. intros acc region_name I.
    apply fold_appends. intros acc' query _. unfold gmaps_search.
    destruct (gmaps_feed sw region_name query) as [listings_data|].
    + destruct (gmaps_listings_spec region_name (gmaps_url sw region_name query)
                  listings_data acc') as (found & -> & _ & F).
      exists found. split; [reflexivity|].
      eapply Forall_impl; [|exact F]. intros c (data & _ & H).
      exists region_name, (gmaps_url sw region_name query), data. now split.
    + exists []. now rewrite app_nil_r.
Qed.

Lemma scrape_cdi_pdf_spec sw results :
  exists found,
    scrape_cdi_pdf sw results = (results ++ found)%list /\ Forall from_cdi found.
Proof.
  unfold scrape_cdi_pdf. destruct (cdi_pages sw) as [pages|].
  - eexists. split; [reflexivity|]. apply Forall_forall. intros c I.
    rewrite cdi_records_eq in I. apply keep_some_In in I as (line & _ & H).
    now exists CDI_PDF_URL, line.
  - exists []. now rewrite app_nil_r.
Qed.

Lemma from_gmaps_fields c :
  from_gmaps c ->
  website c = "" /\ email c = "" /\ description c = "" /\ state c = "CA" /\
  source c = GMAPS_SOURCE /\ normalize (city c) <> "".
Proof.
  intros (region_name & url & data & I & H). unfold gmaps_company in H.
  destruct (dict_get "name" data); [|discriminate]. injection H as <-.
  cbn [website email description state source city]. repeat split.
  apply normalize_extracted_or, region_cities_normal, I.
Qed.

Lemma from_cdi_fields c :
  from_cdi c ->
  website c = "" /\ email c = "" /\ description c = "" /\ state c = "CA" /\
  source c = CDI_SOURCE /\ city c = "".
Proof.
  intros (pdf_url & line & H). unfold cdi_record in H.
  destruct (is_empty (strip line) || _); [discriminate|].
  destruct (existsb _ CDI_SKIP); [discriminate|].
  destruct (naic_match (strip line)) as [[g1 g2]|];
    destruct (is_empty _ || _); try discriminate;
    injection H as <-; repeat split.
Qed.

Lemma source_same_merges g : forall e,
  (forall y, In y g -> source y = source e) ->
  source (fold_left merge_into g e) = source e.
Proof.
  induction g as [|c g IH]; intros e H; cbn [fold_left]; [reflexivity|].
  assert (E : source (merge_into e c) = source e).
  { rewrite source_merge_into, (H c (or_introl eq_refl)). now rewrite str_in_self. }
  rewrite IH; [exact E|]. intros y I. rewrite E. apply H. now right.
Qed.

Lemma merged_field_empty f g x :
  (forall y, In y (x :: g) -> getattr y f = "") ->
  getattr (fold_left merge_into g x) f = "".
Proof.
  intros H. rewrite getattr_fold_merge_into.
  destruct (first_nonempty_In (map (fun y => getattr y f) (x :: g))) as [E|I];
    [exact E|].
  apply in_map_iff in I as (y & E & I). rewrite <- E. now apply H.
Qed.

(** Map listings and registry lines never merge with one another, and
    what is merged within either has no website. *)
Lemma deduplicate_plain xs :
  Forall (fun c => from_gmaps c \/ from_cdi c) xs ->
  Forall plain_record (deduplicate xs).
Proof.
  intros F. rewrite Forall_forall in F. apply Forall_forall. intros r I.
  apply In_deduplicate in I.
  destruct (entry_spec _ _ _ I) as (x & g & G & -> & Kx & _ & Fr & _).
  assert (M : forall y, In y (x :: g) -> In y xs /\ dedup_key y = dedup_key x).
  { intros y Hy. rewrite <- G in Hy. apply group_In in Hy as [Hy K].
    split; [exact Hy | congruence]. }
  assert (W : forall y, In y (x :: g) ->
                website y = "" /\ email y = "" /\ description y = "").
  { intros y Hy. destruct (M y Hy) as [Iy _].
    destruct (F y Iy) as [H|H];
      [apply from_gmaps_fields in H | apply from_cdi_fields in H]; tauto. }
  assert (St : state x = "CA").
  { destruct (M x (or_introl eq_refl)) as [Ix _].
    destruct (F x Ix) as [H|H];
      [apply from_gmaps_fields in H | apply from_cdi_fields in H]; tauto. }
  apply frame_eq in Fr as (_ & _ & Es & _).
  unfold plain_record.
  split; [apply (merged_field_empty f_website); intros y Hy; now apply W|].
  split; [apply (merged_field_empty f_email); intros y Hy; now apply W|].
  split; [apply (merged_field_empty f_description); intros y Hy; now apply W|].
  split; [congruence|].
  destruct (M x (or_introl eq_refl)) as [Ix _].
  destruct (F x Ix) as [Hx|Hx].
  - left. apply from_gmaps_fields in Hx as (_ & _ & _ & _ & Sx & Nx).
    rewrite source_same_merges; [exact Sx|].
    intros y Hy. destruct (M y (or_intror Hy)) as [Iy Ky]. rewrite Sx.
    destruct (F y Iy) as [H|H].
    + now apply from_gmaps_fields in H.
    + exfalso. apply from_cdi_fields in H as (_ & _ & _ & _ & _ & Cy).
      apply (key_apart x y Nx Cy). congruence.
  - right. apply from_cdi_fields in Hx as (_ & _ & _ & _ & Sx & Cx).
    rewrite source_same_merges; [exact Sx|].
    intros y Hy. destruct (M y (or_intror Hy)) as [Iy Ky]. rewrite Sx.
    destruct (F y Iy) as [H|H].
    + exfalso. apply from_gmaps_fields in H as (_ & _ & _ & _ & _ & Ny).
      apply (key_apart y x Ny Cx). exact Ky.
    + now apply from_cdi_fields in H.
Qed.

(** Without websites the enrichment has nothing to do. *)
Lemma enrich_loop_idle : forall companies st,
  Forall (fun c => website c = "") companies ->
  enrich_loop st companies = (st, companies).
Proof.
  induction companies as [|c more IH]; intros st F; cbn [enrich_loop];
    [reflexivity|].
  inversion F as [|? ? E F']; subst. rewrite E. cbn [has_website is_empty andb negb].
  now rewrite (IH st F').
Qed.

Lemma enrich_keeps_keys w companies :
  map dedup_key (snd (enrich_from_websites w companies)) = map dedup_key companies.
Proof.
  unfold enrich_from_websites.
  pose proof (enrich_loop_enriched_from World http_get Soup BeautifulSoup
                find_meta_description companies (EnrichState w 0 [])) as F.
  eapply Forall2_map_eq; [exact F|].
  intros c c' R. eapply enriched_from_key. exact R.
Qed.

Lemma save_order_In c companies : In c (save_order companies) <-> In c companies.
Proof.
  unfold save_order.
  pose proof (sort_by_perm key_lt sort_key companies) as P. split; intros I.
  - eapply Permutation_in; [symmetry; exact P | exact I].
  - eapply Permutation_in; [exact P | exact I].
Qed.

Lemma save_order_sorted companies : ascending key_lt sort_key (save_order companies).
Proof. apply sort_by_sorted; [apply key_lt_asym | apply key_lt_ntrans]. Qed.

Lemma save_order_keys companies :
  NoDup (map dedup_key companies) -> NoDup (map dedup_key (save_order companies)).
Proof.
  apply Permutation_NoDup. apply Permutation_map.
  apply (sort_by_perm key_lt sort_key).
Qed.

(** The part of [main] after the sources. *)
Lemma main_finish (flag : bool) w xs :
  let '(log, unique) :=
    if flag then
      let '(st, unique) := enrich_from_websites w (deduplicate xs) in
      (requests st, unique)
    else ([], deduplicate xs) in
  NoDup (map dedup_key (save_order unique)) /\
  ascending key_lt sort_key (save_order unique) /\
  (flag = false -> log = []) /\
  (xs = [] -> save_order unique = [] /\ log = []).
Proof.
  destruct flag.
  - pose proof (enrich_keeps_keys w (deduplicate xs)) as K.
    destruct (enrich_from_websites w (deduplicate xs)) as [st unique] eqn:E.
    cbn [snd] in K.
    split; [apply save_order_keys; rewrite K; apply deduplicate_NoDup|].
    split; [apply save_order_sorted|]. split; [discriminate|].
    intros ->. cbn in E. injection E as <- <-. now split.
  - split; [apply save_order_keys, deduplicate_NoDup|].
    split; [apply save_order_sorted|]. split; [reflexivity|].
    intros ->. now split.
Qed.

End MainFacts.

(** X20: a run without arguments takes Google Maps and the registry
    document as sources and then calls the enrichment, which has nothing
    to do: no record of either source has a website, no listing has the
    identity key of a registry line, so every saved row has an empty
    website, email and description and exactly one of the two source
    labels, and not one request is made.  The run fails only when the
    browser cannot be launched. *)
Theorem X20_default_run_never_enriches :
  forall (World Soup : Type)
         (http_get : World -> string -> World * outcome)
         (BeautifulSoup : string -> option Soup)
         (find_meta_description : Soup -> option string)
         (sw : sources_world) (w : World) (argv : list string),
    List.length argv <= 1 ->
    match main World http_get Soup BeautifulSoup find_meta_description sw w argv with
    | Raises => gmaps_setup sw = LaunchFails
    | NotFollowed => False
    | Saved rows log => log = [] /\ Forall plain_record rows
    end.
Proof.
  intros World Soup http_get BeautifulSoup find_meta_description sw w argv L.
  unfold main.
  destruct (Nat.ltb_spec 1 (List.length argv)) as [?|_]; [lia|].
  destruct (Nat.leb_spec (List.length argv) 1) as [_|?]; [|lia].
  change (py_in "gmaps" ["gmaps"; "cdi"]) with true.
  change (py_in "yelp" ["gmaps"; "cdi"]) with false.
  change (py_in "yellowpages" ["gmaps"; "cdi"]) with false.
  change (py_in "cdi" ["gmaps"; "cdi"]) with true.
  change (py_in "enrich" ["gmaps"; "cdi"]) with false.
  cbn [orb].
  destruct (scrape_google_maps sw []) as [found|] eqn:G.
  2:{ unfold scrape_google_maps in G. now destruct (gmaps_setup sw). }
  apply scrape_google_maps_spec in G as (fg & -> & Fg). cbn [app].
  destruct (scrape_cdi_pdf_spec sw fg) as (fc & -> & Fc).
  assert (P : Forall plain_record (deduplicate (fg ++ fc)%list)).
  { apply deduplicate_plain. apply Forall_app. split.
    - eapply Forall_impl; [|exact Fg]. auto.
    - eapply Forall_impl; [|exact Fc]. auto. }
  unfold enrich_from_websites. rewrite enrich_loop_idle.
  - cbn [requests]. split; [reflexivity|].
    apply Forall_forall. intros c I. apply (proj1 (save_order_In _ _)) in I.
    rewrite Forall_forall in P. now apply P.
  - eapply Forall_impl; [|exact P]. intros c H. apply H.
Qed.

Lemma X20_default_run_never_enriches_witness :
  match main unit acme_net string text_soup no_meta
          (SourcesWorld Started (fun r q => "http://maps.test/" ++ r)
             (fun r q => if String.eqb r "Oakland Downtown" && String.eqb q "commercial insurance"
                         then Some [[("name", "Acme Insurance");
                                     ("address", "1 Main St, Oakland, CA 94607")]]
                         else None)
             None LaunchFails (fun _ _ _ => "") (fun _ _ _ => None)
             (Some [Some "ACME INSURANCE 12345"]))
          tt ["scraper.py"] with
  | Raises => Started = LaunchFails
  | NotFollowed => False
  | Saved rows log => log = [] /\ Forall plain_record rows
  end.
Proof.
  apply (X20_default_run_never_enriches unit string acme_net text_soup no_meta
           (SourcesWorld Started (fun r q => "http://maps.test/" ++ r)
             (fun r q => if String.eqb r "Oakland Downtown" && String.eqb q "commercial insurance"
                         then Some [[("name", "Acme Insurance");
                                     ("address", "1 Main St, Oakland, CA 94607")]]
                         else None)
             None LaunchFails (fun _ _ _ => "") (fun _ _ _ => None)
             (Some [Some "ACME INSURANCE 12345"]))
           tt ["scraper.py"]).
  cbn. lia.
Defined.

(** X21: whatever the arguments, the sources and the network, the rows a
    run saves have pairwise distinct identity keys and are in ascending
    order of (lowercased city, lowercased name).  When arguments are given
    and "enrich" is not among them no request is made; when arguments are
    given and none of them names a source, nothing is scraped and an empty
    list is saved.  A run raises before saving only when it asked for a
    source whose browser could not be launched, or asked for Yelp and a
    page gave a record whose name or city is not a string (a null
    [addressLocality], say): [scrape_yelp] returns normally then and
    [deduplicate] raises; and whenever Yelp is asked and gives such a
    record, the run raises.  The runs that are not followed to their end
    asked for Yelp and were given names and cities that are strings and
    another field that is not. *)
Theorem X21_saved_rows_distinct_and_sorted :
  forall (World Soup : Type)
         (http_get : World -> string -> World * outcome)
         (BeautifulSoup : string -> option Soup)
         (find_meta_description : Soup -> option string)
         (sw : sources_world) (w : World) (argv : list string),
    let sources := if 1 <? List.length argv then tl argv else ["gmaps"; "cdi"] in
    match main World http_get Soup BeautifulSoup find_meta_description sw w argv with
    | Raises =>
        py_in "gmaps" sources = true /\ gmaps_setup sw = LaunchFails \/
        py_in "yelp" sources = true /\
        (yelp_found sw = None \/
         exists found, yelp_found sw = Some found /\
                       forallb yelp_keyed found = false) \/
        py_in "yellowpages" sources = true /\ yp_setup sw = LaunchFails
    | NotFollowed =>
        py_in "yelp" sources = true /\
        exists found, yelp_found sw = Some found /\
                      forallb yelp_keyed found = true /\
                      yelp_companies found = None
    | Saved rows log =>
        NoDup (map dedup_key rows) /\
        ascending key_lt sort_key rows /\
        (1 < List.length argv -> py_in "enrich" sources = false -> log = []) /\
        (1 < List.length argv ->
         py_in "gmaps" sources = false -> py_in "yelp" sources = false ->
         py_in "yellowpages" sources = false -> py_in "cdi" sources = false ->
         rows = [] /\ log = [])
    end /\
    (forall found,
        py_in "yelp" sources = true -> yelp_found sw = Some found ->
        forallb yelp_keyed found = false ->
        main World http_get Soup BeautifulSoup find_meta_description sw w argv
        = Raises).
Proof.
  intros World Soup http_get BeautifulSoup find_meta_description sw w argv sources.
  unfold main. fold sources.
  set (flag := py_in "enrich" sources || (List.length argv <=? 1)).
  assert (Hflag : 1 < List.length argv -> py_in "enrich" sources = false ->
                  flag = false).
  { intros L E. unfold flag. rewrite E.
    destruct (Nat.leb_spec (List.length argv) 1); [lia | reflexivity]. }
  set (finish := fun all_results : list InsuranceCompany =>
    let all_results :=
      if py_in "cdi" sources then scrape_cdi_pdf sw all_results
      else all_results in
    let unique := deduplicate all_results in
    let '(log, unique) :=
      if flag then
        let '(st, unique) :=
          enrich_from_websites World http_get Soup BeautifulSoup
            find_meta_description w unique in
        (requests st, unique)
      else ([], unique) in
    Saved (save_order unique) log).
  assert (Use : forall xs,
    (py_in "gmaps" sources = false -> py_in "yelp" sources = false ->
     py_in "yellowpages" sources = false -> xs = []) ->
    forall raised not_followed : Prop,
    match finish xs with
    | Raises => raised
    | NotFollowed => not_followed
    | Saved rows log =>
        NoDup (map dedup_key rows) /\
        ascending key_lt sort_key rows /\
        (1 < List.length argv -> py_in "enrich" sources = false -> log = []) /\
        (1 < List.length argv ->
         py_in "gmaps" sources = false -> py_in "yelp" sources = false ->
         py_in "yellowpages" sources = false -> py_in "cdi" sources = false ->
         rows = [] /\ log = [])
    end).
  { intros xs Hxs raised not_followed. unfold finish.
    set (ys := if py_in "cdi" sources then scrape_cdi_pdf sw xs else xs).
    pose proof (main_finish World http_get Soup BeautifulSoup find_meta_description
                  flag w ys) as M.
    cbv zeta.
    destruct (if flag then _ else _) as [log unique].
    destruct M as (N & S & F & Z).
    split; [exact N|]. split; [exact S|]. split; [auto|].
    intros L G Y P C. apply Z. unfold ys. rewrite C. auto. }
  assert (Yelp : forall results,
    match scrape_yelp sw results with
    | None => yelp_found sw = None
    | Some BadKey =>
        exists found, yelp_found sw = Some found /\
                      forallb yelp_keyed found = false
    | Some BadField =>
        exists found, yelp_found sw = Some found /\
                      forallb yelp_keyed found = true /\
                      yelp_companies found = None
    | Some (Records _) =>
        forall found, yelp_found sw = Some found ->
                      forallb yelp_keyed found = true
    end).
  { intros results. unfold scrape_yelp.
    destruct (yelp_found sw) as [found|]; [|reflexivity].
    destruct (forallb yelp_keyed found) eqn:K.
    - destruct (yelp_companies found) eqn:C.
      + intros found' [= <-]. exact K.
      + exists found. auto.
    - exists found. auto. }
  assert (Pages : forall results,
    match scrape_yellowpages sw results with
    | None => yp_setup sw = LaunchFails
    | Some _ => True
    end).
  { intros results. unfold scrape_yellowpages. now destruct (yp_setup sw). }
  change (match ?r with
          | Records all_results => ?f
          | BadKey => Raises | BadField => NotFollowed end)
    with (match r with
          | Records all_results => finish all_results
          | BadKey => Raises | BadField => NotFollowed end) in |- *.
  assert (Gmaps : scrape_google_maps sw [] = None -> gmaps_setup sw = LaunchFails).
  { unfold scrape_google_maps. now destruct (gmaps_setup sw). }
  split.
  - destruct (py_in "gmaps" sources) eqn:G.
    + destruct (scrape_google_maps sw []) as [a1|] eqn:SG; [|now left; auto].
      destruct (py_in "yelp" sources) eqn:Y.
      * pose proof (Yelp a1) as Hy.
        destruct (scrape_yelp sw a1) as [[a2| |]|]; [| | |now right; left; auto].
        -- destruct (py_in "yellowpages" sources) eqn:P; cbn [appending option_map].
           ++ pose proof (Pages a2) as Hp.
              destruct (scrape_yellowpages sw a2) as [a3|]; cbn [option_map];
                [|now right; right; auto].
              apply Use. discriminate.
           ++ apply Use. discriminate.
        -- destruct (py_in "yellowpages" sources) eqn:P; cbn [appending option_map].
           ++ pose proof (Pages []) as Hp.
              destruct (scrape_yellowpages sw []) as [a3|]; cbn [option_map];
                [|now right; right; auto].
              right; left. auto.
           ++ right; left. auto.
        -- destruct (py_in "yellowpages" sources) eqn:P; cbn [appending option_map].
           ++ pose proof (Pages []) as Hp.
              destruct (scrape_yellowpages sw []) as [a3|]; cbn [option_map];
                [|now right; right; auto].
              auto.
           ++ auto.
      * destruct (py_in "yellowpages" sources) eqn:P; cbn [appending option_map].
        -- pose proof (Pages a1) as Hp.
           destruct (scrape_yellowpages sw a1) as [a3|]; cbn [option_map];
             [|now right; right; auto].
           apply Use. discriminate.
        -- apply Use. discriminate.
    + destruct (py_in "yelp" sources) eqn:Y.
      * pose proof (Yelp []) as Hy.
        destruct (scrape_yelp sw []) as [[a2| |]|]; [| | |now right; left; auto].
        -- destruct (py_in "yellowpages" sources) eqn:P; cbn [appending option_map].
           ++ pose proof (Pages a2) as Hp.
              destruct (scrape_yellowpages sw a2) as [a3|]; cbn [option_map];
                [|now right; right; auto].
              apply Use. discriminate.
           ++ apply Use. discriminate.
        -- destruct (py_in "yellowpages" sources) eqn:P; cbn [appending option_map].
           ++ pose proof (Pages []) as Hp.
              destruct (scrape_yellowpages sw []) as [a3|]; cbn [option_map];
                [|now right; right; auto].
              right; left. auto.
           ++ right; left. auto.
        -- destruct (py_in "yellowpages" sources) eqn:P; cbn [appending option_map].
           ++ pose proof (Pages []) as Hp.
              destruct (scrape_yellowpages sw []) as [a3|]; cbn [option_map];
                [|now right; right; auto].
              auto.
           ++ auto.
      * destruct (py_in "yellowpages" sources) eqn:P; cbn [appending option_map].
        -- pose proof (Pages []) as Hp.
           destruct (scrape_yellowpages sw []) as [a3|]; cbn [option_map];
             [|now right; right; auto].
           apply Use. discriminate.
        -- apply Use. auto.
  - intros found Y F K. rewrite Y.
    assert (SY : forall results, scrape_yelp sw results = Some BadKey).
    { intros results. unfold scrape_yelp. now rewrite F, K. }
    destruct (if py_in "gmaps" sources then scrape_google_maps sw [] else Some [])
      as [a1|]; [|reflexivity].
    rewrite SY. cbn [appending].
    destruct (py_in "yellowpages" sources); [|reflexivity].
    now destruct (scrape_yellowpages sw []).
Qed.

Lemma X21_saved_rows_distinct_and_sorted_witness :
  main unit acme_net string text_soup no_meta
    (SourcesWorld NotInstalled (fun _ _ => "") (fun _ _ => None)
       (Some [YelpListing (YelpStr "Acme Insurance") "1 Main St, None, CA 94607"
                YelpOther (YelpStr "CA") (YelpStr "94607") (YelpStr "")
                (YelpStr "") "4.5" "12" "" "https://www.yelp.com/search"])
       NotInstalled (fun _ _ _ => "") (fun _ _ _ => None) None)
    tt ["scraper.py"; "yelp"] = Raises.
Proof.
  apply (proj2 (X21_saved_rows_distinct_and_sorted unit string acme_net text_soup
                  no_meta
                  (SourcesWorld NotInstalled (fun _ _ => "") (fun _ _ => None)
                     (Some [YelpListing (YelpStr "Acme Insurance")
                              "1 Main St, None, CA 94607"
                              YelpOther (YelpStr "CA") (YelpStr "94607")
                              (YelpStr "") (YelpStr "") "4.5" "12" ""
                              "https://www.yelp.com/search"])
                     NotInstalled (fun _ _ _ => "") (fun _ _ _ => None) None)
                  tt ["scraper.py"; "yelp"])
           [YelpListing (YelpStr "Acme Insurance") "1 Main St, None, CA 94607"
              YelpOther (YelpStr "CA") (YelpStr "94607") (YelpStr "")
              (YelpStr "") "4.5" "12" "" "https://www.yelp.com/search"]);
    reflexivity.
Defined.

(** ** The second enricher *)

Section SecondEnricherFacts.

Variable World : Type.
Variable http_get : World -> string -> World * outcome.
Variable urlparse : string -> option (string * string).

Local Abbreviation try_suffixes := (try_suffixes World http_get).
Local Abbreviation scrape_website_for_email :=
  (scrape_website_for_email World http_get urlparse).
Local Abbreviation phase2_step := (phase2_step World http_get urlparse).
Local Abbreviation phase2_loop := (phase2_loop World http_get urlparse).

Lemma scrape_website_for_email_log w website :
  List.length (snd (fst (scrape_website_for_email w website))) <= 6.
Proof.
  unfold scrape_website_for_email.
  destruct (has_website website); cbn [negb]; [|cbn; lia].
  destruct (http_get w website) as [w1 o].
  destruct o as [|code text url]; [cbn; lia|].
  destruct (code =? 200); cbn [negb]; [|cbn; lia].
  destruct (extract_emails text); [|cbn; lia].
  destruct (urlparse url) as [[scheme netloc]|]; [|cbn; lia].
  pose proof (try_suffixes_log World http_get (scheme ++ "://" ++ netloc)
                SUFFIXES w1 [(website, Response code text url)]) as Len.
  cbn in Len |- *. lia.
Qed.

Lemma filter_map_S (p : nat -> bool) l :
  filter p (map S l) = map S (filter (fun j => p (S j)) l).
Proof.
  induction l as [|x l IH]; cbn [map filter]; [reflexivity|].
  destruct (p (S x)); cbn [map]; now rewrite IH.
Qed.

(** The indices taken: those of the rows that pass the test, ascending. *)
Lemma sf_indices_from_spec : forall rows i acc,
  sf_indices_from i rows acc =
  (acc ++ map (fun j => i + j)
            (filter (fun j => is_sf_row (nth j rows []))
                    (seq 0 (List.length rows))))%list.
Proof.
  induction rows as [|row more IH]; intros i acc;
    cbn [sf_indices_from List.length].
  - cbn. now rewrite app_nil_r.
  - rewrite IH. cbn [seq]. rewrite <- seq_shift. cbn [filter nth].
    rewrite filter_map_S. cbn [nth].
    set (found := filter (fun j => is_sf_row (nth j more [])) (seq 0 (List.length more))).
    assert (E : map (fun j => S i + j) found = map (fun j => i + j) (map S found)).
    { rewrite map_map. apply map_ext. intros j. lia. }
    rewrite E. destruct (is_sf_row row); [|reflexivity].
    unfold list_append. rewrite <- app_assoc. cbn [app map].
    now rewrite Nat.add_0_r.
Qed.

Lemma sf_indices_spec all_rows :
  sf_indices all_rows =
  filter (fun j => is_sf_row (row_at all_rows j)) (seq 0 (List.length all_rows)).
Proof.
  unfold sf_indices. rewrite sf_indices_from_spec. cbn [app].
  rewrite map_id. reflexivity.
Qed.

Lemma sf_indices_In all_rows i :
  In i (sf_indices all_rows) <->
  i < List.length all_rows /\ is_sf_row (row_at all_rows i) = true.
Proof. rewrite sf_indices_spec, filter_In, in_seq. intuition lia. Qed.

Lemma sites_to_check_In all_rows sf i :
  In i (sites_to_check all_rows sf) <->
  In i sf /\ truthy "website" (row_at all_rows i) = true.
Proof. unfold sites_to_check. apply filter_In. Qed.

Lemma sites_to_check_length all_rows sf :
  List.length (sites_to_check all_rows sf) <= List.length sf.
Proof. apply filter_length_le. Qed.

Lemma row_at_set_row_same rows : forall idx row,
  idx < List.length rows -> row_at (set_row rows idx row) idx = row.
Proof.
  unfold row_at. induction rows as [|r rows IH]; intros [|idx] row L;
    cbn in *; try lia; [reflexivity|]. apply IH. lia.
Qed.

Lemma row_at_set_row_other rows : forall idx i row,
  i <> idx -> row_at (set_row rows idx row) i = row_at rows i.
Proof.
  unfold row_at. induction rows as [|r rows IH]; intros [|idx] [|i] row N;
    cbn; try reflexivity; try congruence. apply IH. congruence.
Qed.

Lemma set_row_length rows : forall idx row,
  List.length (set_row rows idx row) = List.length rows.
Proof.
  induction rows as [|r rows IH]; intros [|idx] row; cbn; auto.
Qed.

Lemma py_get_set_same k v (row : dict string) : py_get k (dict_set k v row) = v.
Proof. unfold py_get. now rewrite dict_get_set. Qed.

Lemma py_get_set_other k k' v (row : dict string) :
  k <> k' -> py_get k (dict_set k' v row) = py_get k row.
Proof. intros N. unfold py_get. now rewrite dict_get_set_other. Qed.

Lemma truthy_present k (row : dict string) :
  truthy k row = true -> exists v, dict_get k row = Some v /\ v <> "".
Proof.
  unfold truthy, py_get. destruct (dict_get k row) as [v|]; [|discriminate].
  intros H. exists v. split; [reflexivity|].
  apply negb_true_iff in H. now apply is_empty_false.
Qed.

Lemma phase2_step_spec all_rows sites st idx :
  (forall row, In row all_rows -> dict_get "name" row <> None) ->
  phase2_inv all_rows sites st ->
  In idx sites ->
  idx < List.length all_rows ->
  truthy "website" (row_at all_rows idx) = true ->
  exists st',
    phase2_step st idx = Some st' /\ phase2_inv all_rows sites st' /\
    List.length (p2_requests st') <= List.length (p2_requests st) + 6 /\
    found_emails st' <= found_emails st + 1.
Proof.
  intros Hname [Len Inv] Site L Web. unfold phase2_step.
  destruct (truthy "email" (row_at (all_rows_now st) idx)) eqn:Em.
  { eexists. split; [reflexivity|]. split; [split; assumption|].
    cbn. lia. }
  assert (Same : row_at (all_rows_now st) idx = row_at all_rows idx).
  { destruct (Inv idx) as [E|(_ & [E|(_ & e & Ne & E)])]; try exact E. exfalso.
    rewrite E in Em. unfold truthy in Em. rewrite py_get_set_same in Em.
    apply negb_false_iff, is_empty_true in Em. contradiction. }
  rewrite Same in *.
  destruct (truthy_present _ _ Web) as (website & -> & _).
  destruct (dict_get "name" (row_at all_rows idx)) as [nm|] eqn:N.
  2:{ exfalso. apply (Hname (row_at all_rows idx)); [|exact N].
      unfold row_at. now apply nth_In. }
  pose proof (scrape_website_for_email_log (p2_world st) website) as Log.
  destruct (scrape_website_for_email (p2_world st) website) as [[w log] email].
  cbn [fst snd] in Log.
  destruct (is_empty email) eqn:E.
  - eexists. split; [reflexivity|]. split; [split; assumption|].
    cbn. rewrite length_app. lia.
  - eexists. split; [reflexivity|]. split; [split|].
    + cbn. now rewrite set_row_length.
    + intros i. cbn [all_rows_now]. destruct (Nat.eq_dec i idx) as [->|Ni].
      * rewrite row_at_set_row_same by lia. right.
        split; [exact Site|]. right. split; [exact Em|].
        exists email. split; [now apply is_empty_false | reflexivity].
      * rewrite row_at_set_row_other by exact Ni. apply Inv.
    + cbn. rewrite length_app. lia.
Qed.

Lemma phase2_loop_spec all_rows sites : forall todo st,
  (forall row, In row all_rows -> dict_get "name" row <> None) ->
  phase2_inv all_rows sites st ->
  Forall (fun idx => In idx sites /\ idx < List.length all_rows /\
                     truthy "website" (row_at all_rows idx) = true) todo ->
  exists st',
    phase2_loop st todo = Some st' /\ phase2_inv all_rows sites st' /\
    List.length (p2_requests st') <= List.length (p2_requests st) + 6 * List.length todo /\
    found_emails st' <= found_emails st + List.length todo.
Proof.
  induction todo as [|idx more IH]; intros st Hname Inv F; cbn [phase2_loop].
  - exists st. split; [reflexivity|]. split; [exact Inv|]. cbn. lia.
  - inversion F as [|? ? (Site & L & Web) F']; subst.
    destruct (phase2_step_spec all_rows sites st idx Hname Inv Site L Web)
      as (st1 & -> & Inv1 & Log1 & Found1).
    destruct (IH st1 Hname Inv1 F') as (st' & -> & Inv' & Log' & Found').
    exists st'. split; [reflexivity|]. split; [exact Inv'|].
    cbn [List.length]. lia.
Qed.

Lemma emailed_other_columns row row' k :
  emailed row row' -> k <> "email" -> py_get k row' = py_get k row.
Proof.
  intros [->|(_ & e & _ & ->)] N; [reflexivity|].
  now apply py_get_set_other.
Qed.

End SecondEnricherFacts.



(** ** The sources as a whole, and what the second enricher takes *)

Section SelectionFacts.

Lemma scrape_yellowpages_spec sw results out :
  scrape_yellowpages sw results = Some out ->
  exists found, out = (results ++ found)%list /\ Forall from_yp found.
Proof.
  unfold scrape_yellowpages. destruct (yp_setup sw); [|discriminate|].
  - intros E. apply some_inj in E. subst out. exists []. now rewrite app_nil_r.
  - intros E. apply some_inj in E. subst out.
    apply fold_appends. intros acc location I.
    apply fold_appends. intros acc' query _.
    apply fold_appends. intros acc'' page_num _. unfold yp_search.
    destruct (yp_page sw location query page_num) as [cards|].
    + unfold yp_cards. rewrite keep_some_loop. eexists. split; [reflexivity|].
      apply Forall_forall. intros c Hc. apply keep_some_In in Hc as (card & _ & H).
      exists location, (yp_url sw location query page_num), card. now split.
    + exists []. now rewrite app_nil_r.
Qed.

Lemma is_sf_row_asdict c :
  is_sf_row (asdict c) =
  (startswith "SF " (city c) || String.eqb (city c) "San Francisco") &&
  str_in "Google Maps" (source c).
Proof. reflexivity. Qed.

Lemma region_sf_test region_name :
  In region_name GMAPS_REGION_NAMES ->
  startswith "SF " (region_city region_name) ||
  String.eqb (region_city region_name) "San Francisco"
  = startswith "SF " region_name.
Proof.
  intros I.
  assert (F : forallb (fun r => Bool.eqb
                         (startswith "SF " (region_city r) ||
                          String.eqb (region_city r) "San Francisco")
                         (startswith "SF " r))
                GMAPS_REGION_NAMES = true) by (vm_compute; reflexivity).
  rewrite forallb_forall in F. specialize (F _ I). now apply Bool.eqb_prop in F.
Qed.

Lemma city_fold_merge_into g x : city (fold_left merge_into g x) = city x.
Proof.
  pose proof (frame_fold_merge_into g x) as F. apply frame_eq in F. tauto.
Qed.

End SelectionFacts.

(** X23: the row written for a record made of a Google Maps listing
    passes the San Francisco test of the second enricher exactly when its
    city starts with "SF " or is "San Francisco", and whatever is merged
    into the record afterwards it still passes or still fails; when the
    address of the listing gives no city, the row passes exactly when the
    name of the region searched starts with "SF ".  A row written for a
    line of the registry document never passes, whatever is merged into
    it. *)
Theorem X23_sf_test_on_saved_rows :
  forall (region_name url : string) (data : dict string) (c : InsuranceCompany),
    In region_name GMAPS_REGION_NAMES ->
    gmaps_company region_name url data = Some c ->
    (forall g,
        is_sf_row (asdict (fold_left merge_into g c)) =
        (startswith "SF " (city c) || String.eqb (city c) "San Francisco")) /\
    (extract_city_from_address (address c) = "" ->
     forall g, is_sf_row (asdict (fold_left merge_into g c)) =
               startswith "SF " region_name) /\
    (forall r g, from_cdi r ->
                 is_sf_row (asdict (fold_left merge_into g r)) = false).
Proof.
  intros region_name url data c I H.
  assert (Fc : from_gmaps c) by (exists region_name, url, data; now split).
  apply from_gmaps_fields in Fc as (_ & _ & _ & _ & Sc & _).
  assert (A : forall g,
             is_sf_row (asdict (fold_left merge_into g c)) =
             (startswith "SF " (city c) || String.eqb (city c) "San Francisco")).
  { intros g. rewrite is_sf_row_asdict, city_fold_merge_into.
    assert (S : str_in "Google Maps" (source (fold_left merge_into g c)) = true).
    { change "Google Maps" with GMAPS_SOURCE. rewrite <- Sc.
      apply source_kept_by_merges. apply str_in_self. }
    rewrite S. apply andb_true_r. }
  split; [exact A|]. split.
  - intros E g. rewrite A. unfold gmaps_company in H.
    destruct (dict_get "name" data); [|discriminate]. injection H as <-.
    cbn [city address] in *. unfold pick. rewrite E. cbn [is_empty].
    now apply region_sf_test.
  - intros r g Fr. apply from_cdi_fields in Fr as (_ & _ & _ & _ & _ & Cr).
    rewrite is_sf_row_asdict, city_fold_merge_into, Cr. reflexivity.
Qed.

Lemma X23_sf_test_on_saved_rows_witness :
    is_sf_row (asdict (fold_left merge_into [acme_b]
                 (mkCompany "Bay Brokers" "Open 24 hours" "SF Mission" "CA" "" ""
                    "" "" "4.5" "" "" "" GMAPS_SOURCE "http://maps.test/q")))
    = true.
Proof.
  destruct (X23_sf_test_on_saved_rows "SF Mission/Castro" "http://maps.test/q"
              [("name", "Bay Brokers"); ("address", "Open 24 hours"); ("rating", "4.5")]
              (mkCompany "Bay Brokers" "Open 24 hours" "SF Mission" "CA" "" ""
                 "" "" "4.5" "" "" "" GMAPS_SOURCE "http://maps.test/q"))
    as [A _].
  - vm_compute. tauto.
  - vm_compute. reflexivity.
  - exact (A [acme_b]).
Defined.

(** X24: a source never removes or changes what is in [results]: what it
    returns is the list it was given followed by what it found.  What
    Google Maps adds are records made of listings, each with a city; what
    Yellow Pages adds are records made of cards, each with a name and a
    city; what the registry adds are records made of lines, none with a
    city.  The registry source always returns; a browser source fails
    only when the browser cannot be launched. *)
Theorem X24_sources_only_append :
  forall (sw : sources_world) (results : list InsuranceCompany),
    match scrape_google_maps sw results with
    | Some out =>
        exists found, out = (results ++ found)%list /\
          Forall (fun c => from_gmaps c /\ city c <> "") found
    | None => gmaps_setup sw = LaunchFails
    end /\
    match scrape_yellowpages sw results with
    | Some out =>
        exists found, out = (results ++ found)%list /\
          Forall (fun c => from_yp c /\ name c <> "" /\ city c <> "") found
    | None => yp_setup sw = LaunchFails
    end /\
    exists found,
      scrape_cdi_pdf sw results = (results ++ found)%list /\
      Forall (fun c => from_cdi c /\ city c = "") found.
Proof.
  intros sw results. split; [|split].
  - destruct (scrape_google_maps sw results) as [out|] eqn:E.
    + apply scrape_google_maps_spec in E as (found & -> & F).
      exists found. split; [reflexivity|].
      eapply Forall_impl; [|exact F]. intros c Hc. split; [exact Hc|].
      apply from_gmaps_fields in Hc as (_ & _ & _ & _ & _ & N).
      now apply normalize_nonempty.
    + unfold scrape_google_maps in E. now destruct (gmaps_setup sw).
  - destruct (scrape_yellowpages sw results) as [out|] eqn:E.
    + apply scrape_yellowpages_spec in E as (found & -> & F).
      exists found. split; [reflexivity|].
      eapply Forall_impl; [|exact F]. intros c Hc. split; [exact Hc|].
      destruct Hc as (location & url & card & I & H). unfold yp_company in H.
      destruct (is_empty (text_of (name_el card))) eqn:N; [discriminate|].
      injection H as <-. cbn [name city]. split; [now apply is_empty_false|].
      apply normalize_nonempty, normalize_extracted_or, yp_cities_normal, I.
    + unfold scrape_yellowpages in E. now destruct (yp_setup sw).
  - destruct (scrape_cdi_pdf_spec sw results) as (found & E & F).
    exists found. split; [exact E|].
    eapply Forall_impl; [|exact F]. intros c Hc. split; [exact Hc|].
    now apply from_cdi_fields in Hc.
Qed.
